(** * deploy_frontend.py: clean a remote web root over SFTP and upload a build

    The script talks to two collaborators it does not implement: the
    paramiko SSH/SFTP client and the local [os] module.  The embedding keeps
    the script's own code generic in these collaborators (a record [Env] of
    operations over an abstract world [W], the way the Python passes [sftp]
    around), runs it in a state-and-exception monad that also records every
    collaborator call and every printed line, and afterwards instantiates
    the collaborators with a small POSIX-like file tree to speak about the
    remote state. *)

From Stdlib Require Import String Ascii List Bool Arith ZArith Lia.
Import ListNotations.
Local Open Scope list_scope.
Local Open Scope string_scope.

(** ** Python exceptions *)

(** The handlers of the script tell three families apart:
    [except FileNotFoundError], [except Exception] and the bare [except:],
    which also catches what is not an [Exception] ([KeyboardInterrupt],
    [SystemExit]). *)
Inductive exn_class : Type :=
| FileNotFoundError
| PermissionError
| IOError
| SSHException
| KeyboardInterrupt.

Record exn : Type := mkExn { exn_cls : exn_class; exn_text : string }.

Definition is_FileNotFoundError (e : exn) : bool :=
  match exn_cls e with FileNotFoundError => true | _ => false end.

Definition is_Exception (e : exn) : bool :=
  match exn_cls e with KeyboardInterrupt => false | _ => true end.

Definition any_exn (e : exn) : bool := true.

(** ** Collaborators *)

(** What a library call answers. *)
Inductive reply (A : Type) : Type :=
| Ok (a : A)
| Err (e : exn).
Arguments Ok {A} a.
Arguments Err {A} e.

Inductive host_key_policy : Type := RejectPolicy | AutoAddPolicy.

(** paramiko's client and SFTP channel, and the [os] functions the script
    uses.  [sftp_stat] returns attributes the script never looks at. *)
Record Env (W : Type) : Type := mkEnv {
  ssh_connect : host_key_policy -> string -> Z -> string -> string -> Z ->
                W -> W * reply unit;
  ssh_open_sftp : W -> W * reply unit;
  ssh_close : W -> W * reply unit;
  sftp_stat : string -> W -> W * reply unit;
  sftp_listdir : string -> W -> W * reply (list string);
  sftp_remove : string -> W -> W * reply unit;
  sftp_rmdir : string -> W -> W * reply unit;
  sftp_mkdir : string -> W -> W * reply unit;
  sftp_put : string -> string -> W -> W * reply unit;
  sftp_close : W -> W * reply unit;
  os_listdir : string -> W -> W * reply (list string);
  os_path_join : string -> string -> string;
  os_path_isfile : string -> W -> bool;
  os_path_isdir : string -> W -> bool
}.
Arguments ssh_connect {W}.
Arguments ssh_open_sftp {W}.
Arguments ssh_close {W}.
Arguments sftp_stat {W}.
Arguments sftp_listdir {W}.
Arguments sftp_remove {W}.
Arguments sftp_rmdir {W}.
Arguments sftp_mkdir {W}.
Arguments sftp_put {W}.
Arguments sftp_close {W}.
Arguments os_listdir {W}.
Arguments os_path_join {W}.
Arguments os_path_isfile {W}.
Arguments os_path_isdir {W}.

(** The calls that reach a collaborator and may fail or change the world,
    in the order the script makes them. *)
Inductive call : Type :=
| c_connect (policy : host_key_policy) (host : string) (port : Z)
            (username password : string) (timeout : Z)
| c_open_sftp
| c_ssh_close
| c_stat (path : string)
| c_listdir (path : string)
| c_remove (path : string)
| c_rmdir (path : string)
| c_mkdir (path : string)
| c_put (localpath remotepath : string)
| c_sftp_close
| c_os_listdir (path : string).

(** A call together with the exception it raised, if it raised one. *)
Definition event : Type := (call * option exn)%type.

Definition failure {A} (r : reply A) : option exn :=
  match r with Ok _ => None | Err e => Some e end.

(** ** The monad of the script *)

(** The collaborators' world, the calls made so far and the lines printed
    so far. *)
Record state (W : Type) : Type := mkState {
  world : W;
  calls : list event;
  out : list string
}.
Arguments mkState {W}.
Arguments world {W}.
Arguments calls {W}.
Arguments out {W}.

(** [Diverge] is not a Python outcome: it marks a run that used up the
    recursion fuel of the embedding.  No handler catches it. *)
Inductive outcome (A : Type) : Type :=
| Return (a : A)
| Raise (e : exn)
| Diverge.
Arguments Return {A} a.
Arguments Raise {A} e.
Arguments Diverge {A}.

Definition M (W A : Type) : Type := state W -> state W * outcome A.

Definition ret {W A} (a : A) : M W A := fun s => (s, Return a).

Definition bind {W A B} (m : M W A) (k : A -> M W B) : M W B :=
  fun s =>
    match m s with
    | (s', Return a) => k a s'
    | (s', Raise e) => (s', Raise e)
    | (s', Diverge) => (s', Diverge)
    end.

Definition raise {W A} (e : exn) : M W A := fun s => (s, Raise e).

Definition diverge {W A} : M W A := fun s => (s, Diverge).

Declare Scope py_scope.
Delimit Scope py_scope with py.
Notation "x <- m ;; k" := (bind m (fun x => k))
  (at level 61, m at next level, right associativity) : py_scope.
Notation "m ;; k" := (bind m (fun _ => k))
  (at level 61, right associativity) : py_scope.
Local Open Scope py_scope.

(** [try: body except <classes> as e: handler e]. *)
Definition try_except {W A} (body : M W A) (catches : exn -> bool)
           (handler : exn -> M W A) : M W A :=
  fun s =>
    match body s with
    | (s', Raise e) => if catches e then handler e s' else (s', Raise e)
    | r => r
    end.

Definition print {W} (line : string) : M W unit :=
  fun s => (mkState (world s) (calls s) (out s ++ [line])%list, Return tt).

(** A collaborator call: logged, then answered by the environment. *)
Definition invoke {W A} (c : call) (op : W -> W * reply A) : M W A :=
  fun s =>
    let (w', r) := op (world s) in
    (mkState w' (calls s ++ [(c, failure r)])%list (out s),
     match r with Ok a => Return a | Err e => Raise e end).

(** A side-effect-free test on the local file system. *)
Definition query {W A} (f : W -> A) : M W A :=
  fun s => (s, Return (f (world s))).

Fixpoint for_each {W A} (items : list A) (body : A -> M W unit) : M W unit :=
  match items with
  | [] => ret tt
  | item :: rest => body item ;; for_each rest body
  end.

(** ** Constants of the script *)

Definition nl : string := String (ascii_of_nat 10) EmptyString.

Definition HOST : string := "37.140.192.181".
Definition PORT : Z := 22.
Definition USERNAME : string := "u3372484".
Definition PASSWORD : string := "j758aqXHELv2l2AM".
Definition LOCAL_DIST : string := "f:\Code\Хранилище - ПУПУПУ\dist".
Definition REMOTE_DIR : string :=
  "/var/www/u3372484/data/www/factchain-traker.online".

Arguments HOST : simpl never.
Arguments USERNAME : simpl never.
Arguments PASSWORD : simpl never.
Arguments LOCAL_DIST : simpl never.
Arguments REMOTE_DIR : simpl never.

(** [item.startswith(prefix)]. *)
Definition startswith (item pre : string) : bool := String.prefix pre item.

(** ** The script *)

Section Script.
Context {W : Type} (env : Env W).

Definition stat (path : string) : M W unit :=
  invoke (c_stat path) (sftp_stat env path).
Definition listdir (path : string) : M W (list string) :=
  invoke (c_listdir path) (sftp_listdir env path).
Definition remove (path : string) : M W unit :=
  invoke (c_remove path) (sftp_remove env path).
Definition rmdir (path : string) : M W unit :=
  invoke (c_rmdir path) (sftp_rmdir env path).
Definition mkdir (path : string) : M W unit :=
  invoke (c_mkdir path) (sftp_mkdir env path).
Definition put (localpath remotepath : string) : M W unit :=
  invoke (c_put localpath remotepath) (sftp_put env localpath remotepath).

(** Lines 17-21: probe the remote directory, create it when the probe
    raises [FileNotFoundError]. *)
Definition ensure_remote_dir (remote_dir : string) : M W unit :=
  try_except (stat remote_dir) is_FileNotFoundError
    (fun _ =>
       print ("Creating directory: " ++ remote_dir) ;;
       mkdir remote_dir).

(** Lines 24-31, the body of the loop over [os.listdir(local_dir)];
    [recurse] is the recursive call of [upload_directory]. *)
Definition upload_item (recurse : string -> string -> M W unit)
           (local_dir remote_dir item : string) : M W unit :=
  let local_path := os_path_join env local_dir item in
  let remote_path := remote_dir ++ "/" ++ item in
  is_file <- query (os_path_isfile env local_path) ;;
  if is_file then
    print ("Uploading: " ++ item ++ " -> " ++ remote_path) ;;
    put local_path remote_path
  else
    is_dir <- query (os_path_isdir env local_path) ;;
    if is_dir then recurse local_path remote_path else ret tt.

(** Lines 14-31.  Python's recursion has no bound of its own; [fuel]
    bounds its depth here. *)
Fixpoint upload_directory (fuel : nat) (local_dir remote_dir : string)
  : M W unit :=
  match fuel with
  | O => diverge
  | S fuel' =>
      ensure_remote_dir remote_dir ;;
      items <- invoke (c_os_listdir local_dir) (os_listdir env local_dir) ;;
      for_each items
        (upload_item (upload_directory fuel') local_dir remote_dir)
  end.

(** Lines 58-62, the body of the loop of [rmdir_recursive]. *)
Definition rmdir_child (recurse : string -> M W unit) (path f : string)
  : M W unit :=
  let fp := path ++ "/" ++ f in
  try_except (remove fp) any_exn (fun _ => recurse fp).

(** Lines 56-63. *)
Fixpoint rmdir_recursive (fuel : nat) (path : string) : M W unit :=
  match fuel with
  | O => diverge
  | S fuel' =>
      fs <- listdir path ;;
      for_each fs (rmdir_child (rmdir_recursive fuel') path) ;;
      rmdir path
  end.

(** Lines 49-65, the body of the cleanup loop. *)
Definition clean_item (fuel : nat) (item : string) : M W unit :=
  if negb (startswith item ".") then
    let remote_path := REMOTE_DIR ++ "/" ++ item in
    try_except
      (remove remote_path ;;
       print ("  Removed file: " ++ item))
      any_exn
      (fun _ =>
         rmdir_recursive fuel remote_path ;;
         print ("  Removed dir: " ++ item))
  else ret tt.

(** Line 48 with its loop: what the outer [try] of the cleanup guards. *)
Definition cleanup_body (fuel : nat) : M W unit :=
  items <- listdir REMOTE_DIR ;;
  for_each items (clean_item fuel).

(** Lines 47-67. *)
Definition cleanup (fuel : nat) : M W unit :=
  try_except (cleanup_body fuel) is_Exception
    (fun e => print ("  Warning: " ++ exn_text e)).

(** Lines 40-43. *)
Definition connect_phase (policy : host_key_policy) : M W unit :=
  invoke (c_connect policy HOST PORT USERNAME PASSWORD 30)
         (ssh_connect env policy HOST PORT USERNAME PASSWORD 30) ;;
  print "Connected!" ;;
  invoke c_open_sftp (ssh_open_sftp env).

(** Lines 70-71. *)
Definition upload_phase (fuel : nat) : M W unit :=
  print (nl ++ "Uploading " ++ LOCAL_DIST ++ " -> " ++ REMOTE_DIR) ;;
  upload_directory fuel LOCAL_DIST REMOTE_DIR.

(** Lines 74-80. *)
Definition list_and_close : M W unit :=
  print (nl ++ "Uploaded files:") ;;
  items <- listdir REMOTE_DIR ;;
  for_each items (fun item => print ("  " ++ item)) ;;
  invoke c_sftp_close (sftp_close env) ;;
  invoke c_ssh_close (ssh_close env) ;;
  print (nl ++ "Done! Frontend deployed to https://factchain-traker.online").

(** Lines 40-80, the body of the outer [try] of [main]. *)
Definition session (fuel : nat) (policy : host_key_policy) : M W unit :=
  connect_phase policy ;;
  print (nl ++ "Cleaning " ++ REMOTE_DIR ++ "...") ;;
  cleanup fuel ;;
  upload_phase fuel ;;
  list_and_close.

(** Lines 33-84.  [ssh] is a fresh client whose policy line 37 sets to
    [AutoAddPolicy] before the [try]. *)
Definition main (fuel : nat) : M W unit :=
  print ("Connecting to " ++ HOST ++ "...") ;;
  let policy := AutoAddPolicy in
  try_except (session fuel policy) is_Exception
    (fun e =>
       print ("Error: " ++ exn_text e) ;;
       raise e).

End Script.

(** ** A POSIX-like model of the two file systems *)

(** A file with its bytes, a directory with its entries in listing order,
    or something that is neither (a dangling link, a device). *)
#[warnings="-register-all"]
Inductive node : Type :=
| File (data : string)
| Special
| Dir (entries : list (string * node)).

Definition is_dir (n : node) : bool :=
  match n with Dir _ => true | _ => false end.

Definition is_file (n : node) : bool :=
  match n with File _ => true | _ => false end.

Fixpoint find (name : string) (entries : list (string * node)) : option node :=
  match entries with
  | [] => None
  | (k, v) :: rest => if String.eqb k name then Some v else find name rest
  end.

(** Drop every entry called [name]. *)
Fixpoint del_entry (name : string) (entries : list (string * node))
  : list (string * node) :=
  match entries with
  | [] => []
  | (k, v) :: rest =>
      if String.eqb k name then del_entry name rest
      else (k, v) :: del_entry name rest
  end.

(** Replace the entry called [name] where it stands, or add it last. *)
Fixpoint put_entry (name : string) (n : node) (entries : list (string * node))
  : list (string * node) :=
  match entries with
  | [] => [(name, n)]
  | (k, v) :: rest =>
      if String.eqb k name then (k, n) :: rest
      else (k, v) :: put_entry name n rest
  end.

Definition set_entry (name : string) (n : option node)
           (entries : list (string * node)) : list (string * node) :=
  match n with
  | Some n' => put_entry name n' entries
  | None => del_entry name entries
  end.

(** The node a list of components leads to, from [t]. *)
Fixpoint lookup (path : list string) (t : node) : option node :=
  match path with
  | [] => Some t
  | name :: path' =>
      match t with
      | Dir entries =>
          match find name entries with
          | Some child => lookup path' child
          | None => None
          end
      | _ => None
      end
  end.

(** Change the entry [path] names inside its parent directory: [f] sees
    what is there and answers what shall be there, or refuses. *)
Fixpoint alter (path : list string) (f : option node -> option (option node))
         (t : node) : option node :=
  match path, t with
  | [name], Dir entries =>
      match f (find name entries) with
      | Some n' => Some (Dir (set_entry name n' entries))
      | None => None
      end
  | name :: path', Dir entries =>
      match find name entries with
      | Some child =>
          match alter path' f child with
          | Some child' => Some (Dir (put_entry name child' entries))
          | None => None
          end
      | None => None
      end
  | _, _ => None
  end.

(** Path strings: components between separators, empty ones dropped. *)
Fixpoint split_on (sep : ascii) (s : string) : list string :=
  match s with
  | EmptyString => [EmptyString]
  | String c s' =>
      if Ascii.eqb c sep then EmptyString :: split_on sep s'
      else
        match split_on sep s' with
        | seg :: rest => String c seg :: rest
        | [] => [String c EmptyString]
        end
  end.

Definition segments (sep : ascii) (path : string) : list string :=
  filter (fun seg => negb (String.eqb seg "")) (split_on sep path).

Definition rsegs (path : string) : list string := segments "/" path.
Definition lsegs (path : string) : list string := segments "\" path.

Fixpoint has_char (c : ascii) (s : string) : bool :=
  match s with
  | EmptyString => false
  | String c' s' => Ascii.eqb c' c || has_char c s'
  end.

(** A name a directory entry can bear on either side. *)
Definition valid_name (name : string) : bool :=
  negb (String.eqb name "") && negb (has_char "/" name)
  && negb (has_char "\" name).

(** The site of a deployment: both trees from their roots, what the network
    answers to a connection attempt, whether the server's key is already
    known to the client, and the remote paths the server refuses to
    change. *)
Record site : Type := mkSite {
  remote : node;
  local : node;
  link_error : option exn;
  host_known : bool;
  readonly : list (list string)
}.

Definition set_remote (w : site) (t : node) : site :=
  mkSite t (local w) (link_error w) (host_known w) (readonly w).

Definition enoent : exn := mkExn FileNotFoundError "[Errno 2] No such file".
Definition eacces : exn := mkExn PermissionError "[Errno 13] Permission denied".
Definition efailure : exn := mkExn IOError "Failure".
Definition eunknown_host : exn :=
  mkExn SSHException "Server not found in known_hosts".

Definition denied (w : site) (path : list string) : bool :=
  if in_dec (list_eq_dec string_dec) path (readonly w) then true else false.

(** A change of the remote tree at [path]. *)
Definition remote_change (path : string)
           (f : option node -> option (option node)) (w : site)
  : site * reply unit :=
  if denied w (rsegs path) then (w, Err eacces)
  else
    match alter (rsegs path) f (remote w) with
    | Some t' => (set_remote w t', Ok tt)
    | None =>
        (w, Err match lookup (rsegs path) (remote w) with
                | None => enoent
                | Some _ => efailure
                end)
    end.

Definition posix_connect (policy : host_key_policy) (host : string) (port : Z)
           (username password : string) (timeout : Z) (w : site)
  : site * reply unit :=
  match link_error w with
  | Some e => (w, Err e)
  | None =>
      match policy with
      | RejectPolicy => if host_known w then (w, Ok tt) else (w, Err eunknown_host)
      | AutoAddPolicy => (w, Ok tt)
      end
  end.

Definition posix_stat (path : string) (w : site) : site * reply unit :=
  match lookup (rsegs path) (remote w) with
  | Some _ => (w, Ok tt)
  | None => (w, Err enoent)
  end.

Definition names_of (t : list string) (r : option node) : reply (list string) :=
  match r with
  | Some (Dir entries) => Ok (map fst entries)
  | Some _ => Err efailure
  | None => Err enoent
  end.

Definition posix_listdir (path : string) (w : site)
  : site * reply (list string) :=
  (w, names_of [] (lookup (rsegs path) (remote w))).

(** [remove] unlinks anything but a directory. *)
Definition posix_remove (path : string) : site -> site * reply unit :=
  remote_change path
    (fun o => match o with
              | Some (Dir _) | None => None
              | Some _ => Some None
              end).

(** [rmdir] takes an empty directory away. *)
Definition posix_rmdir (path : string) : site -> site * reply unit :=
  remote_change path
    (fun o => match o with
              | Some (Dir []) => Some None
              | _ => None
              end).

Definition posix_mkdir (path : string) : site -> site * reply unit :=
  remote_change path
    (fun o => match o with
              | None => Some (Some (Dir []))
              | Some _ => None
              end).

(** [put] reads the whole local file and writes it over whatever file the
    remote path names; it cannot replace a directory. *)
Definition posix_put (localpath remotepath : string) (w : site)
  : site * reply unit :=
  match lookup (lsegs localpath) (local w) with
  | Some (File data) =>
      remote_change remotepath
        (fun o => match o with
                  | Some (Dir _) => None
                  | _ => Some (Some (File data))
                  end) w
  | _ => (w, Err enoent)
  end.

Definition posix_os_listdir (path : string) (w : site)
  : site * reply (list string) :=
  (w, names_of [] (lookup (lsegs path) (local w))).

Definition posix_isfile (path : string) (w : site) : bool :=
  match lookup (lsegs path) (local w) with
  | Some n => is_file n
  | None => false
  end.

Definition posix_isdir (path : string) (w : site) : bool :=
  match lookup (lsegs path) (local w) with
  | Some n => is_dir n
  | None => false
  end.

Definition posix : Env site := {|
  ssh_connect := posix_connect;
  ssh_open_sftp := fun w => (w, Ok tt);
  ssh_close := fun w => (w, Ok tt);
  sftp_stat := posix_stat;
  sftp_listdir := posix_listdir;
  sftp_remove := posix_remove;
  sftp_rmdir := posix_rmdir;
  sftp_mkdir := posix_mkdir;
  sftp_put := posix_put;
  sftp_close := fun w => (w, Ok tt);
  os_listdir := posix_os_listdir;
  os_path_join := fun a b => a ++ "\" ++ b;
  os_path_isfile := posix_isfile;
  os_path_isdir := posix_isdir
|}.

Definition start {W} (w : W) : state W := mkState w [] [].

(** A directory tree with [t] at the end of [path]. *)
Fixpoint plant (path : list string) (t : node) : node :=
  match path with
  | [] => t
  | name :: path' => Dir [(name, plant path' t)]
  end.

Definition web_root (t : node) : node := plant (rsegs REMOTE_DIR) t.
Definition dist_root (t : node) : node := plant (lsegs LOCAL_DIST) t.

Definition scenario_A : site :=
  mkSite
    (web_root (Dir [("old.html", File "old");
                    (".htaccess", File "deny");
                    ("css", Dir [("a.css", File "a"); (".keep", File "")])]))
    (dist_root (Dir [("index.html", File "<html>");
                     ("assets", Dir [("app.js", File "js")])]))
    None false [].


(** ** Vocabulary of the properties *)

Definition is_connect (c : call) : bool :=
  match c with c_connect _ _ _ _ _ _ => true | _ => false end.

Definition is_put (c : call) : bool :=
  match c with c_put _ _ => true | _ => false end.

(** The calls the cleanup phase makes. *)
Definition is_cleanup_call (c : call) : bool :=
  match c with c_listdir _ | c_remove _ | c_rmdir _ => true | _ => false end.

(** The calls made once the connection stands. *)
Definition is_sftp_call (c : call) : bool := negb (is_connect c).

(** The one failure [upload_directory] handles itself: the existence probe
    answered [FileNotFoundError]. *)
Definition is_absence_probe (c : call) (e : exn) : bool :=
  match c with c_stat _ => is_FileNotFoundError e | _ => false end.

Definition not_absence_probe (c : call) (e : exn) : bool :=
  negb (is_absence_probe c e).

Definition put_failure (c : call) (e : exn) : bool := is_put c.

Definition any_failure (c : call) (e : exn) : bool := true.

(** [m] only makes calls of the kind [Q]. *)
Definition emits {W A} (Q : call -> bool) (m : M W A) : Prop :=
  forall s s' r, m s = (s', r) ->
    exists evs, calls s' = (calls s ++ evs)%list /\
                Forall (fun ev : event => Q (fst ev) = true) evs.

(** Every failing call of [m] that [P] selects is the last call [m] makes
    and [m] ends raising its exception. *)
Definition fatal_on {W A} (P : call -> exn -> bool) (m : M W A) : Prop :=
  forall s s' r, m s = (s', r) ->
    exists evs, calls s' = (calls s ++ evs)%list /\
      forall pre c e post,
        evs = (pre ++ (c, Some e) :: post)%list -> P c e = true ->
        post = [] /\ r = Raise e.

Definition printed {W} (line : string) (s : state W) : state W :=
  mkState (world s) (calls s) (out s ++ [line])%list.

(** What line 83 adds to the output before the exception leaves [main]. *)
Definition reported {W} (e : exn) (s : state W) : state W :=
  if is_Exception e then printed ("Error: " ++ exn_text e) s else s.

(** What line 67 adds. *)
Definition warned {W} (e : exn) (s : state W) : state W :=
  printed ("  Warning: " ++ exn_text e) s.

Definition called {W} (c : call) (err : option exn) (w : W) (s : state W)
  : state W :=
  mkState w (calls s ++ [(c, err)])%list (out s).

(** ** Observing a tree *)

(** What a path shows without its listing order: the kind of the node and,
    for a file, its bytes. *)
Inductive kind : Type :=
| KFile (data : string)
| KSpecial
| KDir.

Definition shape (n : node) : kind :=
  match n with
  | File data => KFile data
  | Special => KSpecial
  | Dir _ => KDir
  end.

Definition kind_at (path : list string) (t : node) : option kind :=
  option_map shape (lookup path t).

(** Two trees that show the same at every path. *)
Definition same_tree (t t' : node) : Prop :=
  forall path, kind_at path t = kind_at path t'.

(** [strip p q] is what follows [p] in [q], when [q] starts with [p]. *)
Fixpoint strip (p q : list string) : option (list string) :=
  match p, q with
  | [], _ => Some q
  | a :: p', b :: q' => if String.eqb a b then strip p' q' else None
  | _ :: _, [] => None
  end.

(** Every name in the tree is a file name and no directory lists a name
    twice. *)
Fixpoint names_distinct (names : list string) : bool :=
  match names with
  | [] => true
  | n :: rest =>
      negb (existsb (String.eqb n) rest) && names_distinct rest
  end.

Fixpoint well_formed (t : node) : bool :=
  match t with
  | Dir entries =>
      names_distinct (map fst entries)
      && forallb (fun e => valid_name (fst e) && well_formed (snd e)) entries
  | _ => true
  end.

(** How deep the directories of a tree nest. *)
Fixpoint depth (t : node) : nat :=
  match t with
  | Dir entries => S (fold_right (fun e d => Nat.max (depth (snd e)) d) 0 entries)
  | _ => 0
  end.

(** What a remote path shows after an upload, from what it showed before
    and from the local node that maps onto it: a local file replaces what
    was there, a local directory fills an empty place with a directory and
    leaves anything else in its place, and all else is kept. *)
Definition merged (before : option kind) (src : option node) : option kind :=
  match src with
  | Some (File data) => Some (KFile data)
  | Some (Dir _) =>
      match before with
      | None => Some KDir
      | Some _ => before
      end
  | _ => before
  end.

(** The remote tree after uploading the local directory [src] to the remote
    path [rp], seen at [q]. *)
Definition uploaded (src : node) (rp : list string) (t : node)
           (q : list string) : option kind :=
  match strip rp q with
  | Some rel => merged (kind_at q t) (lookup rel src)
  | None => kind_at q t
  end.

(** Two paths neither of which leads through the other. *)
Definition apart (p q : list string) : Prop :=
  strip p q = None /\ strip q p = None.

(** Everything of a site but its remote tree. *)
Definition steady (w w' : site) : Prop :=
  local w' = local w /\ link_error w' = link_error w /\
  host_known w' = host_known w /\ readonly w' = readonly w.

(** [w'] differs from [w] at most at and below the remote path [p]: paths
    apart from [p] lead to the very same nodes, and paths that do not start
    with [p] show the same kinds. *)
Definition within (p : list string) (w w' : site) : Prop :=
  steady w w' /\
  (forall q, apart p q ->
             lookup q (remote w') = lookup q (remote w)) /\
  (forall q, strip p q = None ->
             kind_at q (remote w') = kind_at q (remote w)).

(** Every run of [m] takes the world to a related one. *)
Definition preserves {W A} (Rel : W -> W -> Prop) (m : M W A) : Prop :=
  forall s s' r, m s = (s', r) -> Rel (world s) (world s').

(** An upload that returns took the remote tree to [uploaded]. *)
Definition upload_meets_spec (fuel : nat) : Prop :=
  forall local_dir remote_dir s s',
    well_formed (local (world s)) = true ->
    upload_directory posix fuel local_dir remote_dir s = (s', Return tt) ->
    exists les,
      lookup (lsegs local_dir) (local (world s)) = Some (Dir les) /\
      steady (world s) (world s') /\
      forall q, kind_at q (remote (world s'))
                = uploaded (Dir les) (rsegs remote_dir) (remote (world s)) q.

(** Whatever [m] ends with, short of running out of fuel, [m'] ends with
    too. *)
Definition refines {W A} (m m' : M W A) : Prop :=
  forall s s' r, m s = (s', r) -> r <> Diverge -> m' s = (s', r).

(** A step that leaves a well-formed remote tree well-formed. *)
Definition keeps_well_formed (w w' : site) : Prop :=
  well_formed (remote w) = true -> well_formed (remote w') = true.

(** With [fuel], every well-formed remote directory that nests no deeper
    than [fuel] is taken away by [rmdir_recursive], on a server that
    refuses nothing. *)
Definition deletable (fuel : nat) : Prop :=
  forall path pp n es s,
    rsegs path = (pp ++ [n])%list ->
    lookup (rsegs path) (remote (world s)) = Some (Dir es) ->
    well_formed (Dir es) = true ->
    depth (Dir es) <= fuel ->
    readonly (world s) = [] ->
    exists s', rmdir_recursive posix fuel path s = (s', Return tt).

(** The remote tree after a cleanup of the directory [rp] that came to its
    end, seen at [q]: nothing below a visible name of [rp], all else as
    before. *)
Definition cleaned (rp : list string) (t : node) (q : list string)
  : option kind :=
  match strip rp q with
  | Some (i :: rel) => if startswith i "." then kind_at q t else None
  | _ => kind_at q t
  end.

(** The kinds at [rp] and outside it are the same. *)
Definition same_outside (rp : list string) (w w' : site) : Prop :=
  forall q, strip rp q = None \/ strip rp q = Some [] ->
            kind_at q (remote w') = kind_at q (remote w).

(** The remote tree [t] leaves room for an upload of [src] to [rp]: no
    directory stands where a local file goes, and where a local directory
    holds a file or a directory, the remote place is free or a directory. *)
Definition fits (src : node) (rp : list string) (t : node) : Prop :=
  (forall rel data, lookup rel src = Some (File data) ->
     kind_at (rp ++ rel) t <> Some KDir) /\
  (forall rel c n, lookup (rel ++ [c]) src = Some n -> n <> Special ->
     kind_at (rp ++ rel) t = None \/ kind_at (rp ++ rel) t = Some KDir).

(** With [fuel], every well-formed local directory that nests no deeper
    than [fuel] is uploaded to a remote place that is there or can be
    created, into a tree that leaves room for it, on a server that refuses
    nothing. *)
Definition uploadable (fuel : nat) : Prop :=
  forall local_dir remote_dir les s,
    well_formed (local (world s)) = true ->
    readonly (world s) = [] ->
    lookup (lsegs local_dir) (local (world s)) = Some (Dir les) ->
    depth (Dir les) <= fuel ->
    (kind_at (rsegs remote_dir) (remote (world s)) <> None \/
     exists pp n, rsegs remote_dir = (pp ++ [n])%list /\
                  kind_at pp (remote (world s)) = Some KDir) ->
    fits (Dir les) (rsegs remote_dir) (remote (world s)) ->
    exists s',
      upload_directory posix fuel local_dir remote_dir s = (s', Return tt).

(** The state in which the cleanup starts, once the connection stands and
    the channel is open. *)
Definition connected {W} (policy : host_key_policy) (w1 w2 : W)
           (s : state W) : state W :=
  printed (nl ++ "Cleaning " ++ REMOTE_DIR ++ "...")
    (called c_open_sftp None w2
       (printed "Connected!"
          (called (c_connect policy HOST PORT USERNAME PASSWORD 30) None w1
             (printed ("Connecting to " ++ HOST ++ "...") s)))).

(** ** Directory handling, as the specification words it *)



(** ** Vocabulary of the further properties *)

Definition is_close (c : call) : bool :=
  match c with c_sftp_close | c_ssh_close => true | _ => false end.

Definition not_close (c : call) : bool := negb (is_close c).

(** A call of the cleanup on a remote path that starts with [base]. *)
Definition cleanup_call_below (base : string) (c : call) : bool :=
  match c with
  | c_listdir p | c_remove p | c_rmdir p => String.prefix base p
  | _ => false
  end.

(** A call of the upload: a local listing, or a probe, a creation or a
    transfer on a remote path that starts with [base]. *)
Definition upload_call_below (base : string) (c : call) : bool :=
  match c with
  | c_stat p | c_mkdir p | c_put _ p => String.prefix base p
  | c_os_listdir _ => true
  | _ => false
  end.

(** The hidden entries of the directory [rp], with all they hold, are the
    same nodes. *)
Definition hidden_kept (rp : list string) (w w' : site) : Prop :=
  forall i rel, startswith i "." = true ->
    lookup (rp ++ i :: rel) (remote w') = lookup (rp ++ i :: rel) (remote w).

(** What a cleanup of [rp] may change: the visible entries of [rp] and
    nothing else. *)
Definition confined (rp : list string) (w w' : site) : Prop :=
  steady w w' /\ same_outside rp w w' /\ hidden_kept rp w w'.

(** The remote tree only grew: every directory is still a directory,
    every other entry is as it was or a file now, and the rest of the site
    is as it was. *)
Definition only_adds (w w' : site) : Prop :=
  steady w w' /\
  forall q,
    match kind_at q (remote w) with
    | None => True
    | Some KDir => kind_at q (remote w') = Some KDir
    | Some k => kind_at q (remote w') = Some k \/
                exists data, kind_at q (remote w') = Some (KFile data)
    end.

(** [m] adds to the trace a list of events that satisfies [P]. *)
Definition traces {W A} (P : list event -> Prop) (m : M W A) : Prop :=
  forall s s' r, m s = (s', r) ->
    exists evs, calls s' = (calls s ++ evs)%list /\ P evs.

(** Every [mkdir] comes right after a probe of the same path that
    answered [FileNotFoundError], and every such probe is followed at once
    by the [mkdir] of its path. *)
Definition probe_then_create (evs : list event) : Prop :=
  (forall pre p r post,
      evs = (pre ++ (c_mkdir p, r) :: post)%list ->
      exists pre' e, pre = (pre' ++ [(c_stat p, Some e)])%list /\
                     is_FileNotFoundError e = true) /\
  (forall pre p e post,
      evs = (pre ++ (c_stat p, Some e) :: post)%list ->
      is_FileNotFoundError e = true ->
      exists r post', post = (c_mkdir p, r) :: post').

Definition is_probe_or_create (c : call) : bool :=
  match c with c_stat _ | c_mkdir _ => true | _ => false end.

(** ** Sample sites *)

(** The web root is missing on the server; its parent is there. *)
Definition scenario_B : site :=
  mkSite
    (plant ["var"; "www"; "u3372484"; "data"; "www"] (Dir []))
    (dist_root (Dir [("index.html", File "<html>")]))
    None false [].

(** The network does not answer. *)
Definition site_unreachable : site :=
  mkSite (web_root (Dir [])) (dist_root (Dir []))
         (Some (mkExn SSHException "timed out")) false [].

(** The build holds a file [.env]; the server keeps a directory of that
    name, which no [put] can replace. *)
Definition site_blocked_put : site :=
  mkSite
    (web_root (Dir [(".env", Dir [])]))
    (dist_root (Dir [("a.js", File "a"); (".env", File "KEY=1");
                     ("z.js", File "z")]))
    None false [].

(** The build holds a dangling link next to a file. *)
Definition site_special : site :=
  mkSite
    (web_root (Dir []))
    (dist_root (Dir [("latest", Special); ("index.html", File "<html>")]))
    None false [].

(** The web root holds a directory the server refuses to change. *)
Definition site_locked_dir : site :=
  mkSite
    (web_root (Dir [("cache", Dir []); ("old.html", File "old")]))
    (dist_root (Dir [("index.html", File "<html>")]))
    None false [(rsegs REMOTE_DIR ++ ["cache"])%list].

(** The build holds an empty directory [.well-known]; the server keeps a
    file of that name. *)
Definition site_file_in_the_way : site :=
  mkSite
    (web_root (Dir [(".well-known", File "placeholder")]))
    (dist_root (Dir [("index.html", File "<html>"); (".well-known", Dir [])]))
    None false [].

(** The build holds a visible and a hidden file; the web root is empty. *)
Definition site_dot_build : site :=
  mkSite
    (web_root (Dir []))
    (dist_root (Dir [("app.js", File "js"); (".env", File "KEY=1")]))
    None false [].

(** The web root holds a file the server refuses to change, and another
    one after it. *)
Definition site_locked_file : site :=
  mkSite
    (web_root (Dir [("old.html", File "old"); ("stale.js", File "s")]))
    (dist_root (Dir [("index.html", File "<html>")]))
    None false [(rsegs REMOTE_DIR ++ ["old.html"])%list].

(** The build folder is missing on the local side. *)
Definition site_no_build : site :=
  mkSite
    (web_root (Dir [("old.html", File "old"); (".htaccess", File "deny")]))
    (Dir [])
    None false [].

(** A server on which every call succeeds and changes nothing, except that
    every listing is interrupted from the keyboard. *)
Definition interrupted_listing : Env unit := {|
  ssh_connect := fun _ _ _ _ _ _ w => (w, Ok tt);
  ssh_open_sftp := fun w => (w, Ok tt);
  ssh_close := fun w => (w, Ok tt);
  sftp_stat := fun _ w => (w, Ok tt);
  sftp_listdir := fun _ w => (w, Err (mkExn KeyboardInterrupt ""));
  sftp_remove := fun _ w => (w, Ok tt);
  sftp_rmdir := fun _ w => (w, Ok tt);
  sftp_mkdir := fun _ w => (w, Ok tt);
  sftp_put := fun _ _ w => (w, Ok tt);
  sftp_close := fun w => (w, Ok tt);
  os_listdir := fun _ w => (w, Ok []);
  os_path_join := fun a b => a ++ "\" ++ b;
  os_path_isfile := fun _ _ => false;
  os_path_isdir := fun _ _ => false
|}.

(** * Properties *)

(** ** Running the monad *)

Lemma bind_return {W A B} (m : M W A) (k : A -> M W B) s s1 a :
  m s = (s1, Return a) -> bind m k s = k a s1.
Proof. intros H. unfold bind. now rewrite H. Qed.

Lemma bind_raise {W A B} (m : M W A) (k : A -> M W B) s s1 e :
  m s = (s1, Raise e) -> bind m k s = (s1, Raise e).
Proof. intros H. unfold bind. now rewrite H. Qed.

Lemma bind_diverge {W A B} (m : M W A) (k : A -> M W B) s s1 :
  m s = (s1, Diverge) -> bind m k s = (s1, Diverge).
Proof. intros H. unfold bind. now rewrite H. Qed.

Lemma bind_inv {W A B} (m : M W A) (k : A -> M W B) s s' r :
  bind m k s = (s', r) ->
  (exists s1 a, m s = (s1, Return a) /\ k a s1 = (s', r)) \/
  (exists e, m s = (s', Raise e) /\ r = Raise e) \/
  (m s = (s', Diverge) /\ r = Diverge).
Proof.
  unfold bind. destruct (m s) as [s1 [a|e|]]; intros H.
  - left. now exists s1, a.
  - right. left. inversion H; subst. now exists e.
  - right. right. inversion H; subst. now split.
Qed.

Lemma try_inv {W A} (body : M W A) catches handler s s' r :
  try_except body catches handler s = (s', r) ->
  (exists s1 e, body s = (s1, Raise e) /\ catches e = true /\
                handler e s1 = (s', r)) \/
  (body s = (s', r) /\ forall e, r = Raise e -> catches e = false).
Proof.
  unfold try_except. destruct (body s) as [s1 [a|e|]] eqn:Hb; intros H.
  - right. inversion H; subst. split; [easy|discriminate].
  - destruct (catches e) eqn:Hc.
    + left. now exists s1, e.
    + right. inversion H; subst. split; [easy|]. intros e' He'.
      now inversion He'; subst.
  - right. inversion H; subst. split; [easy|discriminate].
Qed.

Lemma invoke_inv {W A} c (op : W -> W * reply A) s s' r :
  invoke c op s = (s', r) ->
  exists w' rep, op (world s) = (w', rep) /\
    s' = called c (failure rep) w' s /\
    r = match rep with Ok a => Return a | Err e => Raise e end.
Proof.
  unfold invoke. destruct (op (world s)) as [w' rep]. intros H.
  inversion H; subst. now exists w', rep.
Qed.

(** ** The calls a computation makes *)

Section Traces.
Context {W : Type}.

Lemma emits_ret {A} Q (a : A) : emits Q (@ret W A a).
Proof.
  intros s s' r H. inversion H; subst. exists []. now rewrite app_nil_r.
Qed.

Lemma emits_raise {A} Q e : emits Q (@raise W A e).
Proof.
  intros s s' r H. inversion H; subst. exists []. now rewrite app_nil_r.
Qed.

Lemma emits_diverge {A} Q : emits Q (@diverge W A).
Proof.
  intros s s' r H. inversion H; subst. exists []. now rewrite app_nil_r.
Qed.

Lemma emits_print Q line : emits Q (@print W line).
Proof.
  intros s s' r H. inversion H; subst. exists []. cbn.
  now rewrite app_nil_r.
Qed.

Lemma emits_query {A} Q (f : W -> A) : emits Q (query f).
Proof.
  intros s s' r H. inversion H; subst. exists []. now rewrite app_nil_r.
Qed.

Lemma emits_invoke {A} (Q : call -> bool) c (op : W -> W * reply A) :
  Q c = true -> emits Q (invoke c op).
Proof.
  intros HQ s s' r H. apply invoke_inv in H as (w' & rep & _ & -> & _).
  exists [(c, failure rep)]. split; [reflexivity|]. now constructor.
Qed.

Lemma emits_bind {A B} Q (m : M W A) (k : A -> M W B) :
  emits Q m -> (forall a, emits Q (k a)) -> emits Q (bind m k).
Proof.
  intros Hm Hk s s' r H.
  apply bind_inv in H as [(s1 & a & H1 & H2)|[(e & H1 & _)|(H1 & _)]].
  - apply Hm in H1 as (ev1 & E1 & F1). apply Hk in H2 as (ev2 & E2 & F2).
    exists (ev1 ++ ev2)%list. split.
    + now rewrite E2, E1, app_assoc.
    + now apply Forall_app.
  - now apply Hm in H1.
  - now apply Hm in H1.
Qed.

Lemma emits_try {A} Q (body : M W A) catches handler :
  emits Q body -> (forall e, emits Q (handler e)) ->
  emits Q (try_except body catches handler).
Proof.
  intros Hb Hh s s' r H.
  apply try_inv in H as [(s1 & e & H1 & _ & H2)|(H1 & _)].
  - apply Hb in H1 as (ev1 & E1 & F1). apply Hh in H2 as (ev2 & E2 & F2).
    exists (ev1 ++ ev2)%list. split.
    + now rewrite E2, E1, app_assoc.
    + now apply Forall_app.
  - now apply Hb in H1.
Qed.

Lemma emits_for_each {A} Q (items : list A) (body : A -> M W unit) :
  (forall item, emits Q (body item)) -> emits Q (for_each items body).
Proof.
  intros Hb. induction items as [|item rest IH]; cbn.
  - apply emits_ret.
  - apply emits_bind; [apply Hb|intros _; exact IH].
Qed.

Lemma emits_weaken {A} (Q Q' : call -> bool) (m : M W A) :
  (forall c, Q c = true -> Q' c = true) -> emits Q m -> emits Q' m.
Proof.
  intros HQ Hm s s' r H. apply Hm in H as (evs & E & F). exists evs.
  split; [exact E|]. eapply Forall_impl; [|exact F]. cbn. auto.
Qed.

(** A computation that never makes a call [P] selects. *)
Lemma emits_fatal {A} Q P (m : M W A) :
  emits Q m -> (forall c e, P c e = true -> Q c = false) -> fatal_on P m.
Proof.
  intros Hm HPQ s s' r H. apply Hm in H as (evs & E & F). exists evs.
  split; [exact E|]. intros pre c e post -> HP.
  apply Forall_app in F as [_ F]. inversion F as [|x l Hx _]; subst.
  cbn in Hx. rewrite (HPQ _ _ HP) in Hx. discriminate.
Qed.

Lemma fatal_ret {A} P (a : A) : fatal_on P (@ret W A a).
Proof.
  intros s s' r H. inversion H; subst. exists []. split.
  - now rewrite app_nil_r.
  - intros [|] ? ? ? E; discriminate E.
Qed.

Lemma fatal_print P line : fatal_on P (@print W line).
Proof.
  intros s s' r H. inversion H; subst. exists []. split.
  - cbn. now rewrite app_nil_r.
  - intros [|] ? ? ? E; discriminate E.
Qed.

Lemma fatal_query {A} P (f : W -> A) : fatal_on P (query f).
Proof.
  intros s s' r H. inversion H; subst. exists []. split.
  - now rewrite app_nil_r.
  - intros [|] ? ? ? E; discriminate E.
Qed.

Lemma fatal_diverge {A} P : fatal_on P (@diverge W A).
Proof.
  intros s s' r H. inversion H; subst. exists []. split.
  - now rewrite app_nil_r.
  - intros [|] ? ? ? E; discriminate E.
Qed.

(** A single call is its own last call. *)
Lemma fatal_invoke {A} P c (op : W -> W * reply A) :
  fatal_on P (invoke c op).
Proof.
  intros s s' r H. apply invoke_inv in H as (w' & rep & _ & -> & ->).
  exists [(c, failure rep)]. split; [reflexivity|].
  intros [|x [|y pre]] c' e post E _; try discriminate E.
  inversion E as [[Ec Ee Ep]]. subst. split; [reflexivity|].
  destruct rep; cbn in Ee; [discriminate|]. now inversion Ee.
Qed.

Lemma fatal_bind {A B} P (m : M W A) (k : A -> M W B) :
  fatal_on P m -> (forall a, fatal_on P (k a)) -> fatal_on P (bind m k).
Proof.
  intros Hm Hk s s' r H.
  apply bind_inv in H as [(s1 & a & H1 & H2)|[(e & H1 & ->)|(H1 & ->)]].
  - apply Hm in H1 as (ev1 & E1 & F1). apply Hk in H2 as (ev2 & E2 & F2).
    exists (ev1 ++ ev2)%list. split.
    + now rewrite E2, E1, app_assoc.
    + intros pre c e post E HP.
      apply app_eq_app in E as [l [[E3 E4]|[E3 E4]]].
      * destruct l as [|x l].
        -- cbn in E4. rewrite app_nil_r in E3. subst.
           now apply (F2 [] c e post).
        -- cbn in E4. inversion E4; subst.
           destruct (F1 pre c e l eq_refl HP) as [_ Habs]. discriminate.
      * subst. now apply (F2 l c e post).
  - apply Hm in H1 as (evs & E & F). exists evs. split; [exact E|].
    intros pre c e0 post E' HP.
    destruct (F pre c e0 post E' HP) as [-> X]. now inversion X.
  - apply Hm in H1 as (evs & E & F). exists evs. split; [exact E|].
    intros pre c e0 post E' HP.
    destruct (F pre c e0 post E' HP) as [_ X]. discriminate X.
Qed.

Lemma fatal_for_each {A} P (items : list A) (body : A -> M W unit) :
  (forall item, fatal_on P (body item)) -> fatal_on P (for_each items body).
Proof.
  intros Hb. induction items as [|item rest IH]; cbn.
  - apply fatal_ret.
  - apply fatal_bind; [apply Hb|intros _; exact IH].
Qed.

Lemma fatal_weaken {A} (P P' : call -> exn -> bool) (m : M W A) :
  (forall c e, P' c e = true -> P c e = true) ->
  fatal_on P m -> fatal_on P' m.
Proof.
  intros HP Hm s s' r H. apply Hm in H as (evs & E & F). exists evs.
  split; [exact E|]. intros pre c e post E' HP'.
  apply (F pre c e post E'). now apply HP.
Qed.

(** A handler that makes no call and raises the exception again keeps
    the failures of the body fatal. *)
Lemma fatal_try_reraise P (body : M W unit) catches line :
  fatal_on P body ->
  fatal_on P (try_except body catches
                (fun e => print (line e) ;; raise e)).
Proof.
  intros Hb s s' r H.
  apply try_inv in H as [(s1 & e & H1 & _ & H2)|(H1 & _)].
  - apply Hb in H1 as (evs & E & F). exists evs.
    cbv [bind print raise] in H2. inversion H2; subst. cbn.
    split; [exact E|]. exact F.
  - now apply Hb in H1.
Qed.

End Traces.

(** ** The calls of each phase *)

Section Phases.
Context {W : Type} (env : Env W).

Lemma rmdir_recursive_emits fuel path :
  emits is_cleanup_call (rmdir_recursive env fuel path).
Proof.
  revert path. induction fuel as [|fuel IH]; intros path; cbn.
  - apply emits_diverge.
  - apply emits_bind; [now apply emits_invoke|intros fs].
    apply emits_bind; [|intros _; now apply emits_invoke].
    apply emits_for_each. intros f. unfold rmdir_child.
    apply emits_try; [now apply emits_invoke|intros _; apply IH].
Qed.

Lemma clean_item_emits fuel item :
  emits is_cleanup_call (clean_item env fuel item).
Proof.
  unfold clean_item. destruct (negb (startswith item ".")).
  - apply emits_try.
    + apply emits_bind; [now apply emits_invoke|intros _; apply emits_print].
    + intros _. apply emits_bind; [apply rmdir_recursive_emits|].
      intros _; apply emits_print.
  - apply emits_ret.
Qed.

Lemma cleanup_body_emits fuel : emits is_cleanup_call (cleanup_body env fuel).
Proof.
  unfold cleanup_body. apply emits_bind; [now apply emits_invoke|intros items].
  apply emits_for_each. intros item. apply clean_item_emits.
Qed.

Lemma cleanup_emits fuel : emits is_cleanup_call (cleanup env fuel).
Proof.
  unfold cleanup. apply emits_try; [apply cleanup_body_emits|].
  intros e. apply emits_print.
Qed.

Lemma upload_directory_emits fuel local_dir remote_dir :
  emits is_sftp_call (upload_directory env fuel local_dir remote_dir).
Proof.
  revert local_dir remote_dir.
  induction fuel as [|fuel IH]; intros local_dir remote_dir; cbn.
  - apply emits_diverge.
  - apply emits_bind.
    { unfold ensure_remote_dir. apply emits_try; [now apply emits_invoke|].
      intros _. apply emits_bind; [apply emits_print|intros _].
      now apply emits_invoke. }
    intros _. apply emits_bind; [now apply emits_invoke|intros items].
    apply emits_for_each. intros item. unfold upload_item.
    apply emits_bind; [apply emits_query|intros [|]].
    + apply emits_bind; [apply emits_print|intros _; now apply emits_invoke].
    + apply emits_bind; [apply emits_query|intros [|]];
        [apply IH|apply emits_ret].
Qed.

Lemma list_and_close_emits : emits is_sftp_call (list_and_close env).
Proof.
  unfold list_and_close.
  apply emits_bind; [apply emits_print|intros _].
  apply emits_bind; [now apply emits_invoke|intros items].
  apply emits_bind; [apply emits_for_each; intros; apply emits_print|].
  intros _. apply emits_bind; [now apply emits_invoke|intros _].
  apply emits_bind; [now apply emits_invoke|intros _; apply emits_print].
Qed.

(** Whatever fails in [upload_directory], the absence probe apart, ends
    it. *)
Lemma ensure_remote_dir_fatal remote_dir :
  fatal_on not_absence_probe (ensure_remote_dir env remote_dir).
Proof.
  intros s s' r H. unfold ensure_remote_dir in H.
  apply try_inv in H as [(s1 & e & H1 & Hc & H2)|(H1 & Hc)].
  - apply invoke_inv in H1 as (w1 & rep & _ & -> & Hr).
    destruct rep as [|e']; [discriminate|]. inversion Hr; subst e'.
    apply bind_inv in H2 as
        [(s2 & [] & H2 & H3)|[(e2 & H2 & _)|(H2 & _)]]; try discriminate.
    inversion H2; subst s2.
    apply invoke_inv in H3 as (w2 & rep2 & _ & -> & ->).
    exists [(c_stat remote_dir, Some e); (c_mkdir remote_dir, failure rep2)].
    split; [cbn; now rewrite <- app_assoc|].
    intros [|x [|y [|z pre]]] c e0 post E HP; inversion E; subst.
    + unfold not_absence_probe in HP. cbn in HP. rewrite Hc in HP.
      discriminate.
    + split; [reflexivity|]. destruct rep2; [discriminate|].
      cbn in *. congruence.
  - pose proof (fatal_invoke (W:=W) not_absence_probe (c_stat remote_dir)
                  (sftp_stat env remote_dir)) as F.
    exact (F s s' r H1).
Qed.

Lemma upload_directory_fatal fuel local_dir remote_dir :
  fatal_on not_absence_probe
           (upload_directory env fuel local_dir remote_dir).
Proof.
  revert local_dir remote_dir.
  induction fuel as [|fuel IH]; intros local_dir remote_dir; cbn.
  - apply fatal_diverge.
  - apply fatal_bind; [apply ensure_remote_dir_fatal|intros _].
    apply fatal_bind; [apply fatal_invoke|intros items].
    apply fatal_for_each. intros item. unfold upload_item.
    apply fatal_bind; [apply fatal_query|intros [|]].
    + apply fatal_bind; [apply fatal_print|intros _; apply fatal_invoke].
    + apply fatal_bind; [apply fatal_query|intros [|]];
        [apply IH|apply fatal_ret].
Qed.

Lemma connect_phase_fatal policy :
  fatal_on any_failure (connect_phase env policy).
Proof.
  unfold connect_phase.
  apply fatal_bind; [apply fatal_invoke|intros _].
  apply fatal_bind; [apply fatal_print|intros _; apply fatal_invoke].
Qed.

Lemma list_and_close_fatal : fatal_on any_failure (list_and_close env).
Proof.
  unfold list_and_close.
  apply fatal_bind; [apply fatal_print|intros _].
  apply fatal_bind; [apply fatal_invoke|intros items].
  apply fatal_bind; [apply fatal_for_each; intros; apply fatal_print|].
  intros _. apply fatal_bind; [apply fatal_invoke|intros _].
  apply fatal_bind; [apply fatal_invoke|intros _; apply fatal_print].
Qed.

Lemma upload_phase_fatal fuel :
  fatal_on not_absence_probe (upload_phase env fuel).
Proof.
  unfold upload_phase.
  apply fatal_bind; [apply fatal_print|intros _; apply upload_directory_fatal].
Qed.

End Phases.

(** ** The session as a whole *)

Section Session.
Context {W : Type} (env : Env W).

Lemma bind_assoc {A B C} (m : M W A) (k : A -> M W B) (h : B -> M W C) s :
  bind (bind m k) h s = bind m (fun a => bind (k a) h) s.
Proof. unfold bind. now destruct (m s) as [s1 [a|e|]]. Qed.

Lemma bind_cong {A B} (m : M W A) (k k' : A -> M W B) s :
  (forall a s1, k a s1 = k' a s1) -> bind m k s = bind m k' s.
Proof. intros H. unfold bind. destruct (m s) as [s1 [a|e|]]; auto. Qed.

(** A failing call that is no cleanup call and no absence probe ends the
    session, provided the final listing is not meant. *)
Lemma session_fatal P fuel policy :
  (forall c e, P c e = true -> is_cleanup_call c = false) ->
  (forall c e, P c e = true -> not_absence_probe c e = true) ->
  fatal_on P (session env fuel policy).
Proof.
  intros Hclean Hprobe. unfold session.
  apply fatal_bind.
  { eapply fatal_weaken; [|apply connect_phase_fatal]. reflexivity. }
  intros _. apply fatal_bind; [apply fatal_print|intros _].
  apply fatal_bind.
  { eapply emits_fatal; [apply cleanup_emits|exact Hclean]. }
  intros _. apply fatal_bind.
  { eapply fatal_weaken; [exact Hprobe|apply upload_phase_fatal]. }
  intros _. eapply fatal_weaken; [|apply list_and_close_fatal]. reflexivity.
Qed.

Lemma main_fatal P fuel :
  (forall c e, P c e = true -> is_cleanup_call c = false) ->
  (forall c e, P c e = true -> not_absence_probe c e = true) ->
  fatal_on P (main env fuel).
Proof.
  intros Hclean Hprobe. unfold main.
  apply fatal_bind; [apply fatal_print|intros _].
  apply fatal_try_reraise with (line := fun e => "Error: " ++ exn_text e).
  now apply session_fatal.
Qed.

(** What leaves [main] as an [Exception] was printed last. *)
Lemma main_raise_reported fuel s s' e :
  main env fuel s = (s', Raise e) -> is_Exception e = true ->
  exists lines, out s' = (lines ++ [("Error: " ++ exn_text e)%string])%list.
Proof.
  unfold main. intros H He.
  apply bind_inv in H as
      [(s1 & [] & H1 & H2)|[(e1 & H1 & _)|(H1 & _)]]; try discriminate.
  apply try_inv in H2 as [(s2 & e2 & H2 & Hc & H3)|(H2 & Hc)].
  - cbv [bind print raise] in H3. inversion H3; subst. cbn. now eexists.
  - rewrite (Hc e eq_refl) in He. discriminate.
Qed.

Lemma after_connect_emits fuel :
  emits is_sftp_call
    (print "Connected!" ;;
     invoke c_open_sftp (ssh_open_sftp env) ;;
     print (nl ++ "Cleaning " ++ REMOTE_DIR ++ "...") ;;
     cleanup env fuel ;;
     upload_phase env fuel ;;
     list_and_close env).
Proof.
  apply emits_bind; [apply emits_print|intros _].
  apply emits_bind; [now apply emits_invoke|intros _].
  apply emits_bind; [apply emits_print|intros _].
  apply emits_bind.
  { eapply emits_weaken; [|apply cleanup_emits]. now intros []. }
  intros _. apply emits_bind; [|intros _; apply list_and_close_emits].
  unfold upload_phase. apply emits_bind; [apply emits_print|intros _].
  apply upload_directory_emits.
Qed.

Lemma session_unfold fuel policy s :
  session env fuel policy s =
  (invoke (c_connect policy HOST PORT USERNAME PASSWORD 30)
          (ssh_connect env policy HOST PORT USERNAME PASSWORD 30) ;;
   print "Connected!" ;;
   invoke c_open_sftp (ssh_open_sftp env) ;;
   print (nl ++ "Cleaning " ++ REMOTE_DIR ++ "...") ;;
   cleanup env fuel ;;
   upload_phase env fuel ;;
   list_and_close env) s.
Proof.
  unfold session, connect_phase. rewrite bind_assoc.
  apply bind_cong. intros _ s1. apply bind_assoc.
Qed.

End Session.

(** ** Session establishment *)

Lemma session_connect_inv {W} (env : Env W) fuel policy s s1 r1 :
  session env fuel policy s = (s1, r1) ->
  exists w1 rep rest,
    ssh_connect env policy HOST PORT USERNAME PASSWORD 30 (world s)
    = (w1, rep) /\
    calls s1 = (calls s ++ (c_connect policy HOST PORT USERNAME PASSWORD 30,
                            failure rep) :: rest)%list /\
    Forall (fun ev : event => is_connect (fst ev) = false) rest /\
    forall e, rep = Err e ->
      s1 = called (c_connect policy HOST PORT USERNAME PASSWORD 30)
                  (Some e) w1 s /\ r1 = Raise e.
Proof.
  rewrite session_unfold. intros H.
  apply bind_inv in H as [(s2 & [] & H1 & H2)|[(e & H1 & ->)|(H1 & ->)]];
    apply invoke_inv in H1 as (w1 & rep & Hop & Hs & Hr).
  - exists w1, rep. apply after_connect_emits in H2 as (rest & E & F).
    exists rest. split; [exact Hop|]. subst s2. cbn in E. split.
    + now rewrite E, <- app_assoc.
    + split.
      * eapply Forall_impl; [|exact F]. cbn. intros ev Hev.
        unfold is_sftp_call in Hev. now apply negb_true_iff in Hev.
      * intros e ->. discriminate.
  - exists w1, rep, []. split; [exact Hop|]. subst s1. cbn. split; [easy|].
    split; [constructor|]. intros e' ->. inversion Hr; subst. now split.
  - destruct rep; discriminate.
Qed.

(** C7.  Every run of [main] makes exactly one [connect] call, the first
    call of the run, with [AutoAddPolicy] in force (unknown host keys are
    accepted) and with the fixed host, port, user name, password and the
    timeout of 30 seconds.  When that call fails, nothing else is called
    (no retry), [main] raises the very exception, and an [Exception] is
    printed as an error line before it leaves. *)
Theorem connection_once_no_retry {W} (env : Env W) fuel w s' r :
  main env fuel (start w) = (s', r) ->
  exists w1 rep rest,
    ssh_connect env AutoAddPolicy HOST PORT USERNAME PASSWORD 30 w
    = (w1, rep) /\
    calls s' = (c_connect AutoAddPolicy HOST PORT USERNAME PASSWORD 30,
                failure rep) :: rest /\
    Forall (fun ev : event => is_connect (fst ev) = false) rest /\
    forall e, rep = Err e ->
      rest = [] /\ r = Raise e /\ world s' = w1 /\
      out s' = ("Connecting to " ++ HOST ++ "...")
               :: (if is_Exception e then ["Error: " ++ exn_text e] else []).
Proof.
  unfold main. intros H.
  apply bind_inv in H as
      [(s0 & [] & H0 & H)|[(e0 & H0 & _)|(H0 & _)]]; try discriminate.
  inversion H0; subst s0; clear H0.
  apply try_inv in H as [(s1 & e1 & H1 & Hc & H2)|(H1 & Hc)].
  - apply session_connect_inv in H1 as (w1 & rep & rest & Hop & E & F & Herr).
    cbv [bind print raise] in H2. inversion H2; subst s' r; clear H2.
    exists w1, rep, rest. cbn in *. repeat split; try assumption.
    + destruct (Herr e H) as [Hs _]. subst s1. cbn in E.
      change (calls (start w)) with (@nil event) in E. cbn in E.
      inversion E as [E']. symmetry in E'. 
      now destruct rest.
    + destruct (Herr e H) as [_ Hr]. exact Hr.
    + destruct (Herr e H) as [Hs _]. now subst s1.
    + destruct (Herr e H) as [Hs Hr]. subst s1. inversion Hr; subst e1.
      cbn. now rewrite Hc.
  - apply session_connect_inv in H1 as (w1 & rep & rest & Hop & E & F & Herr).
    exists w1, rep, rest. cbn in *. repeat split; try assumption.
    + destruct (Herr e H) as [Hs _]. subst s'. cbn in E.
      inversion E as [E']. now destruct rest.
    + now destruct (Herr e H).
    + destruct (Herr e H) as [Hs _]. now subst s'.
    + destruct (Herr e H) as [Hs Hr]. subst s'. cbn.
      now rewrite (Hc e Hr).
Qed.

Lemma connection_once_no_retry_witness :
  exists w1 rep rest,
    ssh_connect posix AutoAddPolicy HOST PORT USERNAME PASSWORD 30
                site_unreachable = (w1, rep) /\
    calls (fst (main posix 3 (start site_unreachable)))
    = (c_connect AutoAddPolicy HOST PORT USERNAME PASSWORD 30, failure rep)
        :: rest /\
    Forall (fun ev : event => is_connect (fst ev) = false) rest /\
    forall e, rep = Err e ->
      rest = [] /\ snd (main posix 3 (start site_unreachable)) = Raise e /\
      world (fst (main posix 3 (start site_unreachable))) = w1 /\
      out (fst (main posix 3 (start site_unreachable)))
      = ("Connecting to " ++ HOST ++ "...")
          :: (if is_Exception e then ["Error: " ++ exn_text e] else []).
Proof.
  apply (connection_once_no_retry posix 3 site_unreachable).
  vm_compute. reflexivity.
Defined.

(** The server of [scenario_A] is unknown to the client and the run goes
    through all the same. *)
Example unknown_host_accepted :
  host_known scenario_A = false /\
  snd (main posix 3 (start scenario_A)) = Return tt.
Proof. vm_compute. split; reflexivity. Qed.

(** ** Upload failures *)

(** C6.  A [put] that fails is the last call of the whole run: nothing is
    transferred, created or listed after it, and [main] ends raising the
    exception of that [put], printed as an error line when it is an
    [Exception]. *)
Theorem transfer_failure_aborts_run {W} (env : Env W) fuel w s' r
        pre localpath remotepath e post :
  main env fuel (start w) = (s', r) ->
  calls s' = (pre ++ (c_put localpath remotepath, Some e) :: post)%list ->
  post = [] /\ r = Raise e /\
  (is_Exception e = true ->
   exists lines, out s' = (lines ++ [("Error: " ++ exn_text e)%string])%list).
Proof.
  intros Hrun Hcalls.
  assert (Hf : fatal_on put_failure (main env fuel)).
  { apply main_fatal; intros c e0 HP; destruct c; try discriminate HP;
      reflexivity. }
  destruct (Hf _ _ _ Hrun) as (evs & E & F). cbn in E. subst evs.
  destruct (F pre _ e post Hcalls eq_refl) as [-> ->].
  repeat split. intros He. eapply main_raise_reported; eassumption.
Qed.

Lemma transfer_failure_aborts_run_witness :
  (@nil event) = [] /\
  snd (main posix 3 (start site_blocked_put)) = Raise efailure /\
  (is_Exception efailure = true ->
   exists lines,
     out (fst (main posix 3 (start site_blocked_put)))
     = (lines ++ [("Error: " ++ exn_text efailure)%string])%list).
Proof.
  apply (transfer_failure_aborts_run posix 3 site_blocked_put
           (fst (main posix 3 (start site_blocked_put)))
           (snd (main posix 3 (start site_blocked_put)))
           (removelast (calls (fst (main posix 3 (start site_blocked_put)))))
           (LOCAL_DIST ++ "\.env") (REMOTE_DIR ++ "/.env") efailure []).
  - vm_compute. reflexivity.
  - vm_compute. reflexivity.
Defined.

(** In that run [a.js] went up before the failing [.env]; [z.js], which
    comes after it, never did. *)
Example blocked_put_run :
  map fst (calls (fst (main posix 3 (start site_blocked_put))))
  = [c_connect AutoAddPolicy HOST PORT USERNAME PASSWORD 30;
     c_open_sftp;
     c_listdir REMOTE_DIR;
     c_stat REMOTE_DIR;
     c_os_listdir LOCAL_DIST;
     c_put (LOCAL_DIST ++ "\a.js") (REMOTE_DIR ++ "/a.js");
     c_put (LOCAL_DIST ++ "\.env") (REMOTE_DIR ++ "/.env")].
Proof. vm_compute. reflexivity. Qed.

(** C9.  An entry of the local directory that [os.path.isfile] and
    [os.path.isdir] both deny is passed over: the loop body makes no call,
    prints nothing, leaves the world as it is and returns normally. *)
Theorem special_entry_skipped {W} (env : Env W) recurse
        local_dir remote_dir item s :
  os_path_isfile env (os_path_join env local_dir item) (world s) = false ->
  os_path_isdir env (os_path_join env local_dir item) (world s) = false ->
  upload_item env recurse local_dir remote_dir item s = (s, Return tt).
Proof.
  intros Hfile Hdir. unfold upload_item, bind, query.
  rewrite Hfile, Hdir. reflexivity.
Qed.

Lemma special_entry_skipped_witness :
  upload_item posix (upload_directory posix 2) LOCAL_DIST REMOTE_DIR "latest"
              (start site_special)
  = (start site_special, Return tt).
Proof.
  apply (special_entry_skipped posix); vm_compute; reflexivity.
Defined.

(** The whole run over that build: the link is neither transferred nor
    created remotely, the file next to it is. *)
Example special_entry_run :
  snd (main posix 3 (start site_special)) = Return tt /\
  lookup (rsegs REMOTE_DIR)
         (remote (world (fst (main posix 3 (start site_special)))))
  = Some (Dir [("index.html", File "<html>")]).
Proof. vm_compute. split; reflexivity. Qed.

(** ** The cleanup phase and its failures *)

(** The outer handler of the cleanup turns every [Exception] of the loop
    into a warning line. *)
Lemma cleanup_recovers {W} (env : Env W) fuel s s1 e :
  cleanup_body env fuel s = (s1, Raise e) -> is_Exception e = true ->
  cleanup env fuel s = (warned e s1, Return tt).
Proof.
  intros H He. unfold cleanup, try_except. rewrite H, He. reflexivity.
Qed.

Lemma cleanup_listing_fails {W} (env : Env W) fuel s w1 e :
  sftp_listdir env REMOTE_DIR (world s) = (w1, Err e) ->
  cleanup_body env fuel s
  = (called (c_listdir REMOTE_DIR) (Some e) w1 s, Raise e).
Proof.
  intros H. unfold cleanup_body, bind, listdir, invoke. rewrite H.
  reflexivity.
Qed.

Lemma invoke_ok {W A} c (op : W -> W * reply A) s w' a :
  op (world s) = (w', Ok a) ->
  invoke c op s = (called c None w' s, Return a).
Proof. intros H. unfold invoke. now rewrite H. Qed.

Lemma invoke_err {W A} c (op : W -> W * reply A) s w' e :
  op (world s) = (w', Err e) ->
  invoke c op s = (called c (Some e) w' s, Raise e).
Proof. intros H. unfold invoke. now rewrite H. Qed.

Lemma try_cong {W A} (body body' : M W A) catches handler s s' :
  body s = body' s' ->
  try_except body catches handler s = try_except body' catches handler s'.
Proof. intros H. unfold try_except. now rewrite H. Qed.

(** C4.  When the connection stands and the listing of the web root fails
    with an [Exception], the cleanup makes no other call, a warning line is
    printed, and the run is from there on the upload, the final listing and
    the closing, guarded by the handler of [main]; so it returns normally
    whenever these do. *)
Theorem listing_failure_recovered {W} (env : Env W) fuel w w1 w2 w3 e :
  ssh_connect env AutoAddPolicy HOST PORT USERNAME PASSWORD 30 w
  = (w1, Ok tt) ->
  ssh_open_sftp env w1 = (w2, Ok tt) ->
  sftp_listdir env REMOTE_DIR w2 = (w3, Err e) ->
  is_Exception e = true ->
  let s3 :=
    mkState w3
      [(c_connect AutoAddPolicy HOST PORT USERNAME PASSWORD 30, None);
       (c_open_sftp, None);
       (c_listdir REMOTE_DIR, Some e)]
      ["Connecting to " ++ HOST ++ "...";
       "Connected!";
       nl ++ "Cleaning " ++ REMOTE_DIR ++ "...";
       "  Warning: " ++ exn_text e] in
  cleanup env fuel
    (mkState w2
       [(c_connect AutoAddPolicy HOST PORT USERNAME PASSWORD 30, None);
        (c_open_sftp, None)]
       ["Connecting to " ++ HOST ++ "..."; "Connected!";
        nl ++ "Cleaning " ++ REMOTE_DIR ++ "..."])
  = (s3, Return tt) /\
  main env fuel (start w)
  = try_except (upload_phase env fuel ;; list_and_close env) is_Exception
      (fun e' => print ("Error: " ++ exn_text e') ;; raise e') s3 /\
  forall s',
    (upload_phase env fuel ;; list_and_close env) s3 = (s', Return tt) ->
    main env fuel (start w) = (s', Return tt).
Proof.
  intros Hconn Hopen Hlist He s3.
  assert (Hclean :
    cleanup env fuel
      (mkState w2
         [(c_connect AutoAddPolicy HOST PORT USERNAME PASSWORD 30, None);
          (c_open_sftp, None)]
         ["Connecting to " ++ HOST ++ "..."; "Connected!";
          nl ++ "Cleaning " ++ REMOTE_DIR ++ "..."])
    = (s3, Return tt)).
  { rewrite (cleanup_recovers env fuel _ _ e
               (cleanup_listing_fails env fuel (mkState w2 _ _) w3 e Hlist)
               He).
    reflexivity. }
  assert (Hmain :
    main env fuel (start w)
    = try_except (upload_phase env fuel ;; list_and_close env) is_Exception
        (fun e' => print ("Error: " ++ exn_text e') ;; raise e') s3).
  { unfold main.
    rewrite (bind_return _ _ _
               (printed ("Connecting to " ++ HOST ++ "...") (start w)) tt
               eq_refl).
    apply try_cong. rewrite session_unfold.
    erewrite bind_return; [|apply invoke_ok; exact Hconn].
    erewrite bind_return; [|reflexivity].
    erewrite bind_return; [|apply invoke_ok; exact Hopen].
    erewrite bind_return; [|reflexivity].
    erewrite bind_return; [|exact Hclean]. reflexivity. }
  split; [exact Hclean|]. split; [exact Hmain|].
  intros s' Hrest. rewrite Hmain. unfold try_except. now rewrite Hrest.
Qed.

Lemma listing_failure_recovered_witness :
  main posix 3 (start scenario_B)
  = (fst (main posix 3 (start scenario_B)), Return tt).
Proof.
  refine (proj2 (proj2 (listing_failure_recovered posix 3
            scenario_B scenario_B scenario_B scenario_B enoent _ _ _ _)) _ _);
    vm_compute; reflexivity.
Defined.

(** Scenario B as a run: the web root is missing, the listing fails, the
    warning is printed, the upload creates the root and fills it. *)
Example scenario_B_run :
  snd (main posix 3 (start scenario_B)) = Return tt /\
  In "  Warning: [Errno 2] No such file"
     (out (fst (main posix 3 (start scenario_B)))) /\
  lookup (rsegs REMOTE_DIR)
         (remote (world (fst (main posix 3 (start scenario_B)))))
  = Some (Dir [("index.html", File "<html>")]).
Proof. vm_compute. repeat split. tauto. Qed.

(** C5, as stated, fails: in this run [rmdir] is refused inside the
    directory handling of the cleanup, the refusal is caught by the handler
    of the cleanup like a listing failure, and the run goes on to upload
    and returns normally; [old.html], which came after the refused
    directory, is left in place. *)
Lemma rmdir_failure_is_recovered :
  In (c_rmdir (REMOTE_DIR ++ "/cache"), Some eacces)
     (calls (fst (main posix 3 (start site_locked_dir)))) /\
  In "  Warning: [Errno 13] Permission denied"
     (out (fst (main posix 3 (start site_locked_dir)))) /\
  snd (main posix 3 (start site_locked_dir)) = Return tt /\
  lookup (rsegs REMOTE_DIR)
         (remote (world (fst (main posix 3 (start site_locked_dir)))))
  = Some (Dir [("cache", Dir []); ("old.html", File "old");
               ("index.html", File "<html>")]).
Proof. vm_compute. repeat split; tauto. Qed.

Lemma main_raises {W} (env : Env W) fuel w s1 e :
  session env fuel AutoAddPolicy
          (printed ("Connecting to " ++ HOST ++ "...") (start w))
  = (s1, Raise e) ->
  main env fuel (start w) = (reported e s1, Raise e).
Proof.
  intros H. unfold main.
  rewrite (bind_return _ _ _
             (printed ("Connecting to " ++ HOST ++ "...") (start w)) tt
             eq_refl).
  unfold try_except. rewrite H. unfold reported.
  destruct (is_Exception e); reflexivity.
Qed.

(** C5, amended.  The handler of the cleanup recovers every [Exception]
    its loop raises, whichever call it comes from, with a warning line.
    Outside the cleanup every failing call is the last call of its phase
    and the phase raises its exception, the one exception being the
    existence probe of the upload answered [FileNotFoundError]; and what
    the connection, the upload, the final listing or the closing raise
    leaves [main], printed as an error line when it is an [Exception]. *)
Theorem failures_recovered_or_fatal {W} (env : Env W) fuel :
  (forall s s1 e,
      cleanup_body env fuel s = (s1, Raise e) -> is_Exception e = true ->
      cleanup env fuel s = (warned e s1, Return tt)) /\
  fatal_on any_failure (connect_phase env AutoAddPolicy) /\
  fatal_on not_absence_probe (upload_phase env fuel) /\
  fatal_on any_failure (list_and_close env) /\
  (forall w s1 e,
      connect_phase env AutoAddPolicy
        (printed ("Connecting to " ++ HOST ++ "...") (start w))
      = (s1, Raise e) ->
      main env fuel (start w) = (reported e s1, Raise e)) /\
  (forall w s1 s2 s3 e,
      connect_phase env AutoAddPolicy
        (printed ("Connecting to " ++ HOST ++ "...") (start w))
      = (s1, Return tt) ->
      cleanup env fuel (printed (nl ++ "Cleaning " ++ REMOTE_DIR ++ "...") s1)
      = (s2, Return tt) ->
      (upload_phase env fuel ;; list_and_close env) s2 = (s3, Raise e) ->
      main env fuel (start w) = (reported e s3, Raise e)).
Proof.
  split; [intros s s1 e; apply cleanup_recovers|].
  split; [apply connect_phase_fatal|].
  split; [apply upload_phase_fatal|].
  split; [apply list_and_close_fatal|].
  split.
  - intros w s1 e H. apply main_raises. unfold session.
    now rewrite (bind_raise _ _ _ _ _ H).
  - intros w s1 s2 s3 e Hc Hcl Hrest. apply main_raises. unfold session.
    rewrite (bind_return _ _ _ _ _ Hc).
    erewrite bind_return; [|reflexivity].
    rewrite (bind_return _ _ _ _ _ Hcl). exact Hrest.
Qed.

Lemma failures_recovered_or_fatal_witness :
  cleanup posix 3 (start site_locked_dir)
  = (warned eacces (fst (cleanup_body posix 3 (start site_locked_dir))),
     Return tt).
Proof.
  apply (proj1 (failures_recovered_or_fatal posix 3)); vm_compute;
    reflexivity.
Defined.

(** ** Directory handling *)

Section DirectoryHandling.
Context {W : Type} (env : Env W).

Lemma rmdir_child_inv recurse path f s s' r :
  rmdir_child env recurse path f s = (s', r) ->
  exists w1 rep,
    sftp_remove env (path ++ "/" ++ f) (world s) = (w1, rep) /\
    match rep with
    | Ok _ => s' = called (c_remove (path ++ "/" ++ f)) None w1 s /\
              r = Return tt
    | Err e => recurse (path ++ "/" ++ f)
                 (called (c_remove (path ++ "/" ++ f)) (Some e) w1 s)
               = (s', r)
    end.
Proof.
  unfold rmdir_child. intros H.
  apply try_inv in H as [(s1 & e & H1 & _ & H2)|(H1 & Hc)].
  - apply invoke_inv in H1 as (w1 & rep & Hop & -> & Hr).
    exists w1, rep. split; [exact Hop|]. destruct rep as [a|e'].
    + discriminate.
    + inversion Hr; subst. exact H2.
  - apply invoke_inv in H1 as (w1 & rep & Hop & -> & ->).
    exists w1, rep. split; [exact Hop|]. destruct rep as [[]|e'].
    + now split.
    + specialize (Hc e' eq_refl). discriminate.
Qed.




End DirectoryHandling.




(** The calls of that handling: the directory [css] of scenario A holds a
    plain file and a hidden one. *)
Example css_handling :
  map fst (calls (fst (clean_item posix 3 "css" (start scenario_A))))
  = [c_remove (REMOTE_DIR ++ "/css");
     c_listdir (REMOTE_DIR ++ "/css");
     c_remove (REMOTE_DIR ++ "/css/a.css");
     c_remove (REMOTE_DIR ++ "/css/.keep");
     c_rmdir (REMOTE_DIR ++ "/css")].
Proof. vm_compute. reflexivity. Qed.

(** ** Paths *)

Lemma split_on_not_nil sep s : split_on sep s <> [].
Proof.
  destruct s as [|c s]; cbn; [discriminate|].
  destruct (Ascii.eqb c sep); [discriminate|].
  destruct (split_on sep s); discriminate.
Qed.

Lemma split_on_join sep a b :
  split_on sep (a ++ String sep b) = (split_on sep a ++ split_on sep b)%list.
Proof.
  induction a as [|c a IH]; cbn.
  - now rewrite Ascii.eqb_refl.
  - destruct (Ascii.eqb c sep); [now rewrite IH|].
    rewrite IH. destruct (split_on sep a) as [|seg rest] eqn:E; [|reflexivity].
    now apply split_on_not_nil in E.
Qed.

Lemma split_on_name sep n : has_char sep n = false -> split_on sep n = [n].
Proof.
  induction n as [|c n IH]; cbn; [reflexivity|]. intros H.
  apply orb_false_iff in H as [Hc Hn]. rewrite Hc, (IH Hn). reflexivity.
Qed.

Lemma segments_join sep a b :
  segments sep (a ++ String sep b) = (segments sep a ++ segments sep b)%list.
Proof. unfold segments. now rewrite split_on_join, filter_app. Qed.

Lemma segments_name sep n :
  has_char sep n = false -> n <> "" -> segments sep n = [n].
Proof.
  intros H Hn. unfold segments. rewrite (split_on_name _ _ H). cbn.
  destruct (String.eqb_spec n ""); [contradiction|reflexivity].
Qed.

Lemma valid_name_inv n :
  valid_name n = true ->
  n <> "" /\ has_char "/" n = false /\ has_char "\" n = false.
Proof.
  unfold valid_name. intros H.
  apply andb_true_iff in H as [H H3]. apply andb_true_iff in H as [H1 H2].
  apply negb_true_iff in H1, H2, H3. repeat split; try assumption.
  intros ->. discriminate.
Qed.

(** The remote path of an entry resolves to the path of its directory
    followed by its name. *)
Lemma rsegs_join path name :
  valid_name name = true ->
  rsegs (path ++ "/" ++ name) = (rsegs path ++ [name])%list.
Proof.
  intros H. apply valid_name_inv in H as (Hn & Hs & _).
  unfold rsegs. change ("/" ++ name) with (String "/" name).
  now rewrite segments_join, (segments_name _ _ Hs Hn).
Qed.

Lemma rsegs_join_any path name :
  rsegs (path ++ "/" ++ name) = (rsegs path ++ rsegs name)%list.
Proof.
  unfold rsegs. change ("/" ++ name) with (String "/" name).
  apply segments_join.
Qed.

Lemma lsegs_join path name :
  valid_name name = true ->
  lsegs (os_path_join posix path name) = (lsegs path ++ [name])%list.
Proof.
  intros H. apply valid_name_inv in H as (Hn & _ & Hs).
  unfold lsegs. cbn [os_path_join posix].
  change ("\" ++ name) with (String "\" name).
  now rewrite segments_join, (segments_name _ _ Hs Hn).
Qed.

Lemma strip_app p r : strip p (p ++ r) = Some r.
Proof. induction p as [|a p IH]; cbn; [reflexivity|]. now rewrite String.eqb_refl. Qed.

Lemma strip_inv p : forall q r, strip p q = Some r -> q = (p ++ r)%list.
Proof.
  induction p as [|a p IH]; intros q r H; cbn in *.
  - now inversion H.
  - destruct q as [|b q]; [discriminate|].
    destruct (String.eqb_spec a b); [|discriminate]. subst.
    now rewrite (IH _ _ H).
Qed.

Lemma strip_app_l p1 p2 q :
  strip (p1 ++ p2) q =
  match strip p1 q with Some r => strip p2 r | None => None end.
Proof.
  revert q. induction p1 as [|a p1 IH]; intros q; cbn; [reflexivity|].
  destruct q as [|b q]; [reflexivity|].
  destruct (String.eqb a b); [apply IH|reflexivity].
Qed.

(** ** Entries of a directory *)

Lemma find_del_same n es : find n (del_entry n es) = None.
Proof.
  induction es as [|[k v] es IH]; cbn; [reflexivity|].
  destruct (String.eqb_spec k n); [exact IH|]. cbn.
  destruct (String.eqb_spec k n); [contradiction|exact IH].
Qed.

Lemma find_del_other n m es : n <> m -> find m (del_entry n es) = find m es.
Proof.
  intros Hnm. induction es as [|[k v] es IH]; cbn; [reflexivity|].
  destruct (String.eqb_spec k n) as [->|Hk].
  - destruct (String.eqb_spec n m); [contradiction|exact IH].
  - cbn. now rewrite IH.
Qed.

Lemma find_put_same n v es : find n (put_entry n v es) = Some v.
Proof.
  induction es as [|[k x] es IH]; cbn.
  - now rewrite String.eqb_refl.
  - destruct (String.eqb_spec k n) as [->|Hk]; cbn.
    + now rewrite String.eqb_refl.
    + destruct (String.eqb_spec k n); [contradiction|exact IH].
Qed.

Lemma find_put_other n m v es :
  n <> m -> find m (put_entry n v es) = find m es.
Proof.
  intros Hnm. induction es as [|[k x] es IH]; cbn.
  - destruct (String.eqb_spec n m); [contradiction|reflexivity].
  - destruct (String.eqb_spec k n) as [->|Hk]; cbn.
    + destruct (String.eqb_spec n m); [contradiction|reflexivity].
    + now rewrite IH.
Qed.

Lemma find_set_same n r es : find n (set_entry n r es) = r.
Proof. destruct r; cbn; [apply find_put_same|apply find_del_same]. Qed.

Lemma find_set_other n m r es :
  n <> m -> find m (set_entry n r es) = find m es.
Proof.
  intros H. destruct r; cbn; [now apply find_put_other|now apply find_del_other].
Qed.

Lemma find_in n es c : find n es = Some c -> In n (map fst es).
Proof.
  induction es as [|[k v] es IH]; cbn; [discriminate|].
  destruct (String.eqb_spec k n); [now left|]. intros H. right. now apply IH.
Qed.

Lemma find_not_in n es : find n es = None -> ~ In n (map fst es).
Proof.
  induction es as [|[k v] es IH]; cbn; [tauto|].
  destruct (String.eqb_spec k n); [discriminate|]. intros H [E|I]; [contradiction|].
  now apply IH.
Qed.

(** ** Looking up and altering *)

Lemma lookup_app p q t :
  lookup (p ++ q) t =
  match lookup p t with Some t' => lookup q t' | None => None end.
Proof.
  revert t. induction p as [|n p IH]; intros t; cbn; [reflexivity|].
  destruct t as [| |es]; try reflexivity.
  destruct (find n es); [apply IH|reflexivity].
Qed.

Lemma lookup_single n es : lookup [n] (Dir es) = find n es.
Proof. cbn. now destruct (find n es). Qed.

Lemma alter_deeper n m p f es :
  alter (n :: m :: p) f (Dir es) =
  match find n es with
  | Some c =>
      match alter (m :: p) f c with
      | Some c' => Some (Dir (put_entry n c' es))
      | None => None
      end
  | None => None
  end.
Proof. reflexivity. Qed.

Lemma alter_inv p f t t' :
  alter p f t = Some t' ->
  exists n p' es, p = n :: p' /\ t = Dir es /\
    match p' with
    | [] => exists r, f (find n es) = Some r /\ t' = Dir (set_entry n r es)
    | _ :: _ => exists c c', find n es = Some c /\ alter p' f c = Some c' /\
                             t' = Dir (put_entry n c' es)
    end.
Proof.
  destruct p as [|n p']; [discriminate|]. intros H.
  destruct t as [| |es]; try (destruct p'; cbn in H; discriminate).
  exists n, p', es. split; [reflexivity|]. split; [reflexivity|].
  destruct p' as [|m p''].
  - cbn in H. destruct (f (find n es)) as [r|]; [|discriminate].
    inversion H; subst. now exists r.
  - rewrite alter_deeper in H.
    destruct (find n es) as [c|]; [|discriminate].
    destruct (alter (m :: p'') f c) as [c'|] eqn:E; [|discriminate].
    inversion H; subst. now exists c, c'.
Qed.

(** What an alteration leaves at and below its path. *)
Lemma alter_lookup_under p f :
  forall t t', alter p f t = Some t' ->
  exists r, f (lookup p t) = Some r /\
    forall q, lookup (p ++ q) t' =
              match r with Some v => lookup q v | None => None end.
Proof.
  induction p as [|n p IH]; intros t t' H; [discriminate|].
  apply alter_inv in H as (n0 & p' & es & E & -> & H).
  inversion E; subst n0 p'; clear E. destruct p as [|m p].
  - destruct H as (r & Hf & ->). exists r. rewrite lookup_single.
    split; [exact Hf|]. intros q. cbn [app lookup].
    rewrite find_set_same. now destruct r.
  - destruct H as (c & c' & Hc & Ha & ->).
    apply IH in Ha as (r & Hf & Hq). exists r. split.
    + cbn [lookup]. rewrite Hc. exact Hf.
    + intros q. cbn [app lookup]. rewrite find_put_same. apply (Hq q).
Qed.

(** What it leaves where the path is no prefix: the same kinds. *)
Lemma alter_kind_off p f :
  forall t t' q, alter p f t = Some t' -> strip p q = None ->
                 kind_at q t' = kind_at q t.
Proof.
  induction p as [|n p IH]; intros t t' q H Hs; [discriminate|].
  apply alter_inv in H as (n0 & p' & es & E & -> & H).
  inversion E; subst n0 p'; clear E.
  destruct q as [|m q].
  { destruct p; [destruct H as (r & _ & ->)|destruct H as (c & c' & _ & _ & ->)];
      reflexivity. }
  cbn in Hs. unfold kind_at. cbn [lookup].
  destruct (String.eqb_spec n m) as [->|Hnm].
  - destruct p as [|k p]; [discriminate|].
    destruct H as (c & c' & Hc & Ha & ->).
    rewrite find_put_same, Hc. apply (IH c c' q Ha Hs).
  - destruct p as [|k p].
    + destruct H as (r & _ & ->). now rewrite find_set_other.
    + destruct H as (c & c' & _ & _ & ->). now rewrite find_put_other.
Qed.

(** Where the paths part ways, the very same nodes. *)
Lemma alter_lookup_apart p f :
  forall t t' q, alter p f t = Some t' ->
                 strip p q = None -> strip q p = None ->
                 lookup q t' = lookup q t.
Proof.
  induction p as [|n p IH]; intros t t' q H Hs Hs'; [discriminate|].
  apply alter_inv in H as (n0 & p' & es & E & -> & H).
  inversion E; subst n0 p'; clear E.
  destruct q as [|m q]; [discriminate|].
  cbn in Hs, Hs'. cbn [lookup].
  destruct (String.eqb_spec n m) as [->|Hnm].
  - rewrite String.eqb_refl in Hs'. destruct p as [|k p]; [discriminate|].
    destruct H as (c & c' & Hc & Ha & ->).
    rewrite find_put_same, Hc. apply (IH c c' q Ha Hs Hs').
  - destruct p as [|k p].
    + destruct H as (r & _ & ->). now rewrite find_set_other.
    + destruct H as (c & c' & _ & _ & ->). now rewrite find_put_other.
Qed.

Lemma alter_kind p f t t' :
  alter p f t = Some t' ->
  exists r, f (lookup p t) = Some r /\
    forall q, kind_at q t' =
              match strip p q with
              | Some q' => match r with
                           | Some v => kind_at q' v
                           | None => None
                           end
              | None => kind_at q t
              end.
Proof.
  intros H. destruct (alter_lookup_under _ _ _ _ H) as (r & Hf & Hq).
  exists r. split; [exact Hf|]. intros q.
  destruct (strip p q) as [q'|] eqn:Hs.
  - apply strip_inv in Hs. subst q. unfold kind_at. rewrite Hq.
    now destruct r.
  - now apply (alter_kind_off p f t t' q).
Qed.

(** An alteration goes through when the parent is a directory and [f]
    agrees. *)
Lemma alter_total pp n f :
  forall t es r,
    lookup pp t = Some (Dir es) -> f (find n es) = Some r ->
    exists t', alter (pp ++ [n]) f t = Some t'.
Proof.
  induction pp as [|m pp IH]; intros t es r Hl Hf.
  - inversion Hl; subst. cbn. rewrite Hf. eauto.
  - cbn in Hl. destruct t as [| |es0]; try discriminate.
    destruct (find m es0) as [c|] eqn:Hc; [|discriminate].
    destruct (IH c es r Hl Hf) as (c' & Hc').
    exists (Dir (put_entry m c' es0)).
    change ((m :: pp) ++ [n])%list with (m :: (pp ++ [n]))%list.
    destruct (pp ++ [n])%list as [|k rest] eqn:E.
    + now destruct pp.
    + rewrite alter_deeper, Hc, Hc'. reflexivity.
Qed.

(** ** Relations every step keeps *)

Section Preservation.
Context {W : Type} (Rel : W -> W -> Prop).
Hypothesis Rel_refl : forall w, Rel w w.
Hypothesis Rel_trans : forall w1 w2 w3, Rel w1 w2 -> Rel w2 w3 -> Rel w1 w3.

Lemma preserves_ret {A} (a : A) : preserves Rel (@ret W A a).
Proof. intros s s' r H. inversion H; subst. apply Rel_refl. Qed.

Lemma preserves_diverge {A} : preserves Rel (@diverge W A).
Proof. intros s s' r H. inversion H; subst. apply Rel_refl. Qed.

Lemma preserves_print line : preserves Rel (@print W line).
Proof. intros s s' r H. inversion H; subst. apply Rel_refl. Qed.

Lemma preserves_query {A} (f : W -> A) : preserves Rel (query f).
Proof. intros s s' r H. inversion H; subst. apply Rel_refl. Qed.

Lemma preserves_invoke {A} c (op : W -> W * reply A) :
  (forall w w' rep, op w = (w', rep) -> Rel w w') ->
  preserves Rel (invoke c op).
Proof.
  intros Hop s s' r H. apply invoke_inv in H as (w' & rep & H & -> & _).
  cbn. now apply Hop in H.
Qed.

Lemma preserves_bind {A B} (m : M W A) (k : A -> M W B) :
  preserves Rel m -> (forall a, preserves Rel (k a)) ->
  preserves Rel (bind m k).
Proof.
  intros Hm Hk s s' r H.
  apply bind_inv in H as [(s1 & a & H1 & H2)|[(e & H1 & _)|(H1 & _)]].
  - eapply Rel_trans; [exact (Hm _ _ _ H1)|exact (Hk _ _ _ _ H2)].
  - exact (Hm _ _ _ H1).
  - exact (Hm _ _ _ H1).
Qed.

Lemma preserves_try {A} (body : M W A) catches handler :
  preserves Rel body -> (forall e, preserves Rel (handler e)) ->
  preserves Rel (try_except body catches handler).
Proof.
  intros Hb Hh s s' r H.
  apply try_inv in H as [(s1 & e & H1 & _ & H2)|(H1 & _)].
  - eapply Rel_trans; [exact (Hb _ _ _ H1)|exact (Hh _ _ _ _ H2)].
  - exact (Hb _ _ _ H1).
Qed.

Lemma preserves_for_each {A} (items : list A) (body : A -> M W unit) :
  (forall item, In item items -> preserves Rel (body item)) ->
  preserves Rel (for_each items body).
Proof.
  induction items as [|item rest IH]; intros Hb; cbn.
  - apply preserves_ret.
  - apply preserves_bind; [apply Hb; now left|intros _].
    apply IH. intros i Hi. apply Hb. now right.
Qed.

End Preservation.

(** ** Changes of the remote tree stay below their path *)

Lemma steady_refl w : steady w w.
Proof. now repeat split. Qed.

Lemma steady_trans w1 w2 w3 : steady w1 w2 -> steady w2 w3 -> steady w1 w3.
Proof.
  intros (A1 & A2 & A3 & A4) (B1 & B2 & B3 & B4).
  repeat split; congruence.
Qed.

Lemma within_refl p w : within p w w.
Proof. split; [apply steady_refl|]. now split. Qed.

Lemma within_trans p w1 w2 w3 :
  within p w1 w2 -> within p w2 w3 -> within p w1 w3.
Proof.
  intros (S1 & A1 & K1) (S2 & A2 & K2). split; [eapply steady_trans; eassumption|].
  split; intros q Hq.
  - now rewrite (A2 q Hq), (A1 q Hq).
  - now rewrite (K2 q Hq), (K1 q Hq).
Qed.

Lemma strip_longer q : forall p r x,
  strip q (p ++ r) = Some x -> strip q p = None ->
  exists y, strip p q = Some y.
Proof.
  induction q as [|a q IH]; intros p r x H Hn; [discriminate|].
  destruct p as [|b p]; [now eexists|]. cbn in *.
  destruct (String.eqb_spec a b) as [->|Hab]; [|discriminate].
  rewrite String.eqb_refl. eapply IH; eassumption.
Qed.

Lemma apart_app p r q : apart p q -> apart (p ++ r) q.
Proof.
  intros [H1 H2]. split.
  - now rewrite strip_app_l, H1.
  - destruct (strip q (p ++ r)) as [x|] eqn:E; [|reflexivity].
    destruct (strip_longer _ _ _ _ E H2) as [y Hy]. congruence.
Qed.

Lemma within_app p r w w' : within (p ++ r) w w' -> within p w w'.
Proof.
  intros (S & A & K). split; [exact S|]. split; intros q Hq.
  - apply A. now apply apart_app.
  - apply K. now rewrite strip_app_l, Hq.
Qed.

Lemma remote_change_inv path f w w' rep :
  remote_change path f w = (w', rep) ->
  (rep = Ok tt /\ denied w (rsegs path) = false /\
   exists t', alter (rsegs path) f (remote w) = Some t' /\
              w' = set_remote w t') \/
  (w' = w /\ exists e, rep = Err e).
Proof.
  unfold remote_change. destruct (denied w (rsegs path)).
  - intros H. inversion H; subst. right. eauto.
  - destruct (alter (rsegs path) f (remote w)) as [t'|] eqn:E; intros H;
      inversion H; subst.
    + left. eauto.
    + right. eauto.
Qed.

Lemma remote_change_within path f w w' rep :
  remote_change path f w = (w', rep) -> within (rsegs path) w w'.
Proof.
  intros H.
  apply remote_change_inv in H as [(_ & _ & t' & Ha & ->)|(-> & _)];
    [|apply within_refl].
  split; [now repeat split|]. cbn. split; intros q Hq.
  - destruct Hq as [H1 H2]. eapply alter_lookup_apart; eassumption.
  - eapply alter_kind_off; eassumption.
Qed.

Lemma posix_listdir_same path w w' rep :
  posix_listdir path w = (w', rep) -> w' = w.
Proof. unfold posix_listdir. intros H. now inversion H. Qed.

Lemma posix_stat_same path w w' rep :
  posix_stat path w = (w', rep) -> w' = w.
Proof.
  unfold posix_stat. destruct (lookup _ _); intros H; now inversion H.
Qed.

Lemma rmdir_recursive_within fuel :
  forall path,
    preserves (within (rsegs path)) (rmdir_recursive posix fuel path).
Proof.
  induction fuel as [|fuel IH]; intros path; cbn.
  - apply preserves_diverge. apply within_refl.
  - apply preserves_bind; [apply within_trans| |intros fs].
    { apply preserves_invoke. intros w w' rep H.
      apply posix_listdir_same in H as ->. apply within_refl. }
    apply preserves_bind; [apply within_trans| |intros _].
    + apply preserves_for_each; [apply within_refl|apply within_trans|].
      intros f _. unfold rmdir_child.
      apply preserves_try; [apply within_trans| |intros _].
      * apply preserves_invoke. intros w w' rep H.
        apply remote_change_within in H. rewrite rsegs_join_any in H.
        now apply within_app in H.
      * intros s s' r H. apply IH in H. rewrite rsegs_join_any in H.
        now apply within_app in H.
    + apply preserves_invoke. intros w w' rep H.
      now apply remote_change_within in H.
Qed.

Lemma clean_item_within fuel item :
  preserves (within (rsegs (REMOTE_DIR ++ "/" ++ item)))
            (clean_item posix fuel item).
Proof.
  unfold clean_item. destruct (negb (startswith item ".")).
  - apply preserves_try; [apply within_trans| |intros _].
    + apply preserves_bind; [apply within_trans| |intros _].
      * apply preserves_invoke. intros w w' rep H.
        now apply remote_change_within in H.
      * apply preserves_print. apply within_refl.
    + apply preserves_bind; [apply within_trans| |intros _].
      * apply rmdir_recursive_within.
      * apply preserves_print. apply within_refl.
  - apply preserves_ret. apply within_refl.
Qed.

(** ** Well-formed trees *)

Lemma well_formed_dir es :
  well_formed (Dir es) = true ->
  names_distinct (map fst es) = true /\
  (forall n, In n (map fst es) -> valid_name n = true) /\
  (forall n c, find n es = Some c -> well_formed c = true).
Proof.
  cbn [well_formed]. intros H. apply andb_true_iff in H as [Hd Ha].
  split; [exact Hd|]. rewrite forallb_forall in Ha. split.
  - intros n Hn. apply in_map_iff in Hn as (x & <- & Hin).
    apply Ha in Hin. now apply andb_true_iff in Hin as [Hv _].
  - intros n c Hf. clear Hd. induction es as [|[k v] es IH]; [discriminate|].
    cbn in Hf. destruct (String.eqb_spec k n) as [->|Hk].
    + inversion Hf; subst. specialize (Ha (n, c) (or_introl eq_refl)).
      now apply andb_true_iff in Ha as [_ Hc].
    + apply IH; [|exact Hf]. intros x Hx. apply Ha. now right.
Qed.

Lemma well_formed_lookup p :
  forall t t', well_formed t = true -> lookup p t = Some t' ->
               well_formed t' = true.
Proof.
  induction p as [|n p IH]; intros t t' Hw Hl; cbn in Hl.
  - now inversion Hl; subst.
  - destruct t as [| |es]; try discriminate.
    destruct (find n es) as [c|] eqn:Hc; [|discriminate].
    apply (IH c t'); [|exact Hl].
    now apply (proj2 (proj2 (well_formed_dir es Hw)) n c).
Qed.

Lemma posix_listdir_ok path w w' names :
  posix_listdir path w = (w', Ok names) ->
  w' = w /\ exists es, lookup (rsegs path) (remote w) = Some (Dir es) /\
                       names = map fst es.
Proof.
  unfold posix_listdir, names_of. intros H. inversion H; subst; clear H.
  split; [reflexivity|].
  destruct (lookup (rsegs path) (remote w')) as [[| |es]|]; try discriminate.
  exists es. split; [reflexivity|]. now inversion H2.
Qed.

(** ** What the cleanup leaves *)

Lemma posix_remove_gone path w w' :
  posix_remove path w = (w', Ok tt) ->
  lookup (rsegs path) (remote w') = None.
Proof.
  intros H.
  apply remote_change_inv in H as [(_ & _ & t' & Ha & ->)|(_ & e & He)];
    [|discriminate].
  apply alter_lookup_under in Ha as (r & Hf & Hq). cbn.
  specialize (Hq []). rewrite app_nil_r in Hq. rewrite Hq.
  destruct (lookup (rsegs path) (remote w)) as [[| |es]|]; inversion Hf;
    reflexivity.
Qed.

Lemma posix_rmdir_gone path w w' :
  posix_rmdir path w = (w', Ok tt) ->
  lookup (rsegs path) (remote w') = None.
Proof.
  intros H.
  apply remote_change_inv in H as [(_ & _ & t' & Ha & ->)|(_ & e & He)];
    [|discriminate].
  apply alter_lookup_under in Ha as (r & Hf & Hq). cbn.
  specialize (Hq []). rewrite app_nil_r in Hq. rewrite Hq.
  destruct (lookup (rsegs path) (remote w)) as [[| |[|x es]]|]; inversion Hf;
    reflexivity.
Qed.

Lemma rmdir_recursive_gone fuel path s s' :
  rmdir_recursive posix fuel path s = (s', Return tt) ->
  lookup (rsegs path) (remote (world s')) = None.
Proof.
  destruct fuel as [|fuel]; [discriminate|]. cbn [rmdir_recursive]. intros H.
  apply bind_inv in H as
      [(s1 & fs & _ & H)|[(e & _ & He)|(_ & He)]]; try discriminate.
  apply bind_inv in H as
      [(s2 & [] & _ & H)|[(e & _ & He)|(_ & He)]]; try discriminate.
  apply invoke_inv in H as (w3 & rep & Hop & -> & Hr).
  destruct rep as [[]|e]; [|discriminate]. cbn.
  now apply posix_rmdir_gone in Hop.
Qed.

Lemma clean_item_gone fuel item s s' :
  startswith item "." = false ->
  clean_item posix fuel item s = (s', Return tt) ->
  lookup (rsegs (REMOTE_DIR ++ "/" ++ item)) (remote (world s')) = None.
Proof.
  intros Hvis H. unfold clean_item in H. rewrite Hvis in H. cbn [negb] in H.
  apply try_inv in H as [(s1 & e & _ & _ & H2)|(H1 & _)].
  - apply bind_inv in H2 as
        [(s2 & [] & H1 & H2)|[(e' & _ & He)|(_ & He)]]; try discriminate.
    inversion H2; subst s'. cbn. eapply rmdir_recursive_gone; eassumption.
  - apply bind_inv in H1 as
        [(s2 & [] & H1 & H2)|[(e' & _ & He)|(_ & He)]]; try discriminate.
    inversion H2; subst s'. cbn.
    apply invoke_inv in H1 as (w1 & rep & Hop & -> & Hr).
    destruct rep as [[]|e]; [|discriminate]. cbn.
    now apply posix_remove_gone in Hop.
Qed.

Lemma apart_siblings base n m q :
  n <> m -> apart (base ++ [n]) (base ++ m :: q).
Proof.
  intros Hnm. split; rewrite strip_app_l, strip_app; cbn.
  - now destruct (String.eqb_spec n m).
  - destruct (String.eqb_spec m n); [congruence|reflexivity].
Qed.

Lemma hidden_not_visible n m :
  startswith n "." = true -> startswith m "." = false -> m <> n.
Proof. intros Hn Hm ->. congruence. Qed.

(** The loop of the cleanup over [items]: what is hidden or not among the
    items keeps its node, what is visible among them is gone. *)
Lemma clean_loop fuel items :
  Forall (fun n => valid_name n = true) items ->
  forall s s',
    for_each items (clean_item posix fuel) s = (s', Return tt) ->
    steady (world s) (world s') /\
    (forall n q, startswith n "." = true \/ ~ In n items ->
       lookup (rsegs REMOTE_DIR ++ n :: q) (remote (world s'))
       = lookup (rsegs REMOTE_DIR ++ n :: q) (remote (world s))) /\
    (forall n, In n items -> startswith n "." = false ->
       lookup (rsegs REMOTE_DIR ++ [n]) (remote (world s')) = None).
Proof.
  induction 1 as [|item rest Hv Hrest IH]; intros s s' H.
  - inversion H; subst. split; [apply steady_refl|]. split; [reflexivity|].
    intros n [].
  - cbn [for_each] in H.
    apply bind_inv in H as
        [(s1 & [] & H1 & H2)|[(e & _ & He)|(_ & He)]]; try discriminate.
    destruct (IH _ _ H2) as (St2 & Keep2 & Gone2).
    pose proof (clean_item_within fuel item _ _ _ H1) as (St1 & Keep1 & _).
    rewrite (rsegs_join _ _ Hv) in Keep1.
    split; [eapply steady_trans; eassumption|]. split.
    + intros n q Hn. rewrite Keep2.
      2:{ destruct Hn as [Hn|Hn]; [now left|right].
          intros Hin. apply Hn. now right. }
      destruct (startswith item ".") eqn:Hitem.
      * unfold clean_item in H1. rewrite Hitem in H1.
        now inversion H1; subst.
      * apply Keep1. apply apart_siblings.
        destruct Hn as [Hn|Hn]; [now apply hidden_not_visible|].
        intros ->. apply Hn. now left.
    + intros n Hin Hvis.
      destruct (in_dec string_dec n rest) as [Hr|Hr]; [now apply Gone2|].
      destruct Hin as [->|Hin]; [|contradiction].
      rewrite (Keep2 n [] (or_intror Hr)).
      rewrite <- (rsegs_join _ _ Hv). now apply (clean_item_gone fuel n s).
Qed.

(** The listing of the cleanup and what follows it. *)
Lemma cleanup_body_run {W} (env : Env W) fuel s s' r :
  cleanup_body env fuel s = (s', r) ->
  (exists w1 names,
      sftp_listdir env REMOTE_DIR (world s) = (w1, Ok names) /\
      for_each names (clean_item env fuel)
        (called (c_listdir REMOTE_DIR) None w1 s) = (s', r)) \/
  (exists w1 e,
      sftp_listdir env REMOTE_DIR (world s) = (w1, Err e) /\
      s' = called (c_listdir REMOTE_DIR) (Some e) w1 s /\ r = Raise e).
Proof.
  unfold cleanup_body. intros H.
  apply bind_inv in H as
      [(s1 & names & H1 & H2)|[(e & H1 & ->)|(H1 & ->)]];
    apply invoke_inv in H1 as (w1 & rep & Hop & Hs & Hr);
    destruct rep as [names'|e']; try discriminate.
  - inversion Hr; subst. left. eauto.
  - inversion Hr; subst. right. eauto.
Qed.

Lemma listing_names_valid p t es :
  well_formed t = true -> lookup p t = Some (Dir es) ->
  Forall (fun n => valid_name n = true) (map fst es).
Proof.
  intros Hw Hl. apply Forall_forall. intros n Hn.
  pose proof (well_formed_lookup _ _ _ Hw Hl) as Hd.
  now apply (proj1 (proj2 (well_formed_dir es Hd))).
Qed.

(** What a cleanup loop that comes to its end leaves below the web root. *)
Lemma cleanup_body_spec fuel s s' :
  well_formed (remote (world s)) = true ->
  cleanup_body posix fuel s = (s', Return tt) ->
  exists es,
    lookup (rsegs REMOTE_DIR) (remote (world s)) = Some (Dir es) /\
    steady (world s) (world s') /\
    (forall n q, startswith n "." = true \/ ~ In n (map fst es) ->
       lookup (rsegs REMOTE_DIR ++ n :: q) (remote (world s'))
       = lookup (rsegs REMOTE_DIR ++ n :: q) (remote (world s))) /\
    (forall n, In n (map fst es) -> startswith n "." = false ->
       lookup (rsegs REMOTE_DIR ++ [n]) (remote (world s')) = None).
Proof.
  intros Hw H.
  apply cleanup_body_run in H as
      [(w1 & names & Hop & H2)|(w1 & e & _ & _ & He)]; [|discriminate].
  apply posix_listdir_ok in Hop as (-> & es & Hl & ->).
  exists es. split; [exact Hl|].
  exact (clean_loop fuel (map fst es) (listing_names_valid _ _ _ Hw Hl)
           _ _ H2).
Qed.

Lemma lookup_child base n t c :
  lookup (base ++ [n]) t = Some c ->
  exists es, lookup base t = Some (Dir es) /\ find n es = Some c.
Proof.
  rewrite lookup_app. destruct (lookup base t) as [[| |es]|]; try discriminate.
  rewrite lookup_single. intros H. now exists es.
Qed.

(** C1.  On a well-formed remote tree, after a cleanup loop that came to
    its end, every entry the web root held before is gone when its name
    does not begin with a dot, and is the very same node, with all it
    holds, when it does. *)
Theorem cleanup_removes_visible_keeps_hidden fuel s s' name entry :
  well_formed (remote (world s)) = true ->
  cleanup_body posix fuel s = (s', Return tt) ->
  lookup (rsegs REMOTE_DIR ++ [name]) (remote (world s)) = Some entry ->
  lookup (rsegs REMOTE_DIR ++ [name]) (remote (world s'))
  = if startswith name "." then Some entry else None.
Proof.
  intros Hw Hrun Hentry.
  destruct (cleanup_body_spec fuel s s' Hw Hrun)
    as (es & Hl & _ & Keep & Gone).
  destruct (startswith name ".") eqn:Hname.
  - rewrite (Keep name [] (or_introl Hname)). exact Hentry.
  - apply Gone; [|exact Hname].
    apply lookup_child in Hentry as (es' & Hl' & Hf).
    rewrite Hl in Hl'. inversion Hl'; subst es'.
    eapply find_in; eassumption.
Qed.

Lemma cleanup_removes_visible_keeps_hidden_witness :
  lookup (rsegs REMOTE_DIR ++ [".htaccess"])
         (remote (world (fst (cleanup_body posix 3 (start scenario_A)))))
  = if startswith ".htaccess" "." then Some (File "deny") else None.
Proof.
  apply (cleanup_removes_visible_keeps_hidden 3 (start scenario_A));
    vm_compute; reflexivity.
Defined.

(** The same cleanup as a whole: the file and the directory are gone, the
    hidden file stays. *)
Example scenario_A_cleanup :
  lookup (rsegs REMOTE_DIR)
         (remote (world (fst (cleanup_body posix 3 (start scenario_A)))))
  = Some (Dir [(".htaccess", File "deny")]).
Proof. vm_compute. reflexivity. Qed.

(** C10.  The dot filter is applied to the names of the web root only: of
    an entry of the web root whose name does not begin with a dot, nothing
    that was nested in it is left, whatever the nested names begin
    with. *)
Theorem cleanup_removes_nested_hidden fuel s s' name inner entry :
  well_formed (remote (world s)) = true ->
  cleanup_body posix fuel s = (s', Return tt) ->
  startswith name "." = false ->
  lookup (rsegs REMOTE_DIR ++ name :: inner) (remote (world s)) = Some entry ->
  lookup (rsegs REMOTE_DIR ++ name :: inner) (remote (world s')) = None.
Proof.
  intros Hw Hrun Hname Hentry.
  destruct (cleanup_body_spec fuel s s' Hw Hrun)
    as (es & Hl & _ & _ & Gone).
  change (name :: inner) with ([name] ++ inner)%list in *.
  rewrite app_assoc in *. rewrite lookup_app in *.
  destruct (lookup (rsegs REMOTE_DIR ++ [name]) (remote (world s)))
    as [c|] eqn:Hc; [|discriminate].
  rewrite Gone; [reflexivity| |exact Hname].
  apply lookup_child in Hc as (es' & Hl' & Hf).
  rewrite Hl in Hl'. inversion Hl'; subst es'.
  eapply find_in; eassumption.
Qed.

Lemma cleanup_removes_nested_hidden_witness :
  lookup (rsegs REMOTE_DIR ++ "css" :: [".keep"])
         (remote (world (fst (cleanup_body posix 3 (start scenario_A)))))
  = None.
Proof.
  apply (cleanup_removes_nested_hidden 3 (start scenario_A)
           (fst (cleanup_body posix 3 (start scenario_A)))
           "css" [".keep"] (File ""));
    vm_compute; reflexivity.
Defined.

(** ** The steps of an upload *)

Section UploadSteps.
Context {W : Type} (env : Env W).

Lemma upload_directory_unfold fuel local_dir remote_dir s :
  upload_directory env (S fuel) local_dir remote_dir s
  = (ensure_remote_dir env remote_dir ;;
     items <- invoke (c_os_listdir local_dir) (os_listdir env local_dir) ;;
     for_each items
       (upload_item env (upload_directory env fuel) local_dir remote_dir)) s.
Proof. reflexivity. Qed.

(** The probe and what it leads to. *)
Lemma ensure_remote_dir_run remote_dir s s' r :
  ensure_remote_dir env remote_dir s = (s', r) ->
  exists w1 rep,
    sftp_stat env remote_dir (world s) = (w1, rep) /\
    match rep with
    | Ok _ => s' = called (c_stat remote_dir) None w1 s /\ r = Return tt
    | Err e =>
        if is_FileNotFoundError e then
          exists w2 rep2,
            sftp_mkdir env remote_dir w1 = (w2, rep2) /\
            s' = called (c_mkdir remote_dir) (failure rep2) w2
                   (printed ("Creating directory: " ++ remote_dir)
                      (called (c_stat remote_dir) (Some e) w1 s)) /\
            r = match rep2 with Ok _ => Return tt | Err e2 => Raise e2 end
        else s' = called (c_stat remote_dir) (Some e) w1 s /\ r = Raise e
    end.
Proof.
  unfold ensure_remote_dir. intros H.
  apply try_inv in H as [(s1 & e & H1 & Hc & H2)|(H1 & Hc)].
  - apply invoke_inv in H1 as (w1 & rep & Hop & -> & Hr).
    exists w1, rep. split; [exact Hop|].
    destruct rep as [[]|e']; [discriminate|]. inversion Hr; subst e'.
    rewrite Hc.
    apply bind_inv in H2 as
        [(s2 & [] & H2 & H3)|[(e2 & H2 & _)|(H2 & _)]]; try discriminate.
    inversion H2; subst s2.
    apply invoke_inv in H3 as (w2 & rep2 & Hop2 & -> & ->).
    exists w2, rep2. split; [exact Hop2|]. split; [reflexivity|].
    now destruct rep2 as [[]|].
  - apply invoke_inv in H1 as (w1 & rep & Hop & -> & ->).
    exists w1, rep. split; [exact Hop|]. destruct rep as [[]|e].
    + now split.
    + rewrite (Hc e eq_refl). now split.
Qed.

(** The three ways of an entry of the local directory. *)
Lemma upload_item_run recurse local_dir remote_dir item s s' r :
  upload_item env recurse local_dir remote_dir item s = (s', r) ->
  let local_path := os_path_join env local_dir item in
  let remote_path := remote_dir ++ "/" ++ item in
  if os_path_isfile env local_path (world s) then
    exists w1 rep,
      sftp_put env local_path remote_path (world s) = (w1, rep) /\
      s' = called (c_put local_path remote_path) (failure rep) w1
             (printed ("Uploading: " ++ item ++ " -> " ++ remote_path) s) /\
      r = match rep with Ok _ => Return tt | Err e => Raise e end
  else if os_path_isdir env local_path (world s) then
    recurse local_path remote_path s = (s', r)
  else s' = s /\ r = Return tt.
Proof.
  unfold upload_item, bind at 1, query at 1. cbn zeta.
  destruct (os_path_isfile env (os_path_join env local_dir item) (world s)).
  - intros H.
    apply bind_inv in H as
        [(s2 & [] & H2 & H3)|[(e2 & H2 & _)|(H2 & _)]]; try discriminate.
    inversion H2; subst s2.
    apply invoke_inv in H3 as (w2 & rep2 & Hop2 & -> & ->).
    exists w2, rep2. split; [exact Hop2|]. split; [reflexivity|].
    now destruct rep2 as [[]|].
  - unfold bind at 1, query at 1.
    destruct (os_path_isdir env (os_path_join env local_dir item) (world s)).
    + tauto.
    + intros H. inversion H; subst. now split.
Qed.

Lemma upload_directory_run fuel local_dir remote_dir s s' :
  upload_directory env fuel local_dir remote_dir s = (s', Return tt) ->
  exists fuel' s1 w2 items,
    fuel = S fuel' /\
    ensure_remote_dir env remote_dir s = (s1, Return tt) /\
    os_listdir env local_dir (world s1) = (w2, Ok items) /\
    for_each items
      (upload_item env (upload_directory env fuel') local_dir remote_dir)
      (called (c_os_listdir local_dir) None w2 s1) = (s', Return tt).
Proof.
  destruct fuel as [|fuel']; [discriminate|].
  rewrite upload_directory_unfold. intros H.
  apply bind_inv in H as
      [(s1 & [] & H1 & H2)|[(e & _ & He)|(_ & He)]]; try discriminate.
  apply bind_inv in H2 as
      [(s2 & items & H2 & H3)|[(e & _ & He)|(_ & He)]]; try discriminate.
  apply invoke_inv in H2 as (w2 & rep & Hop & -> & Hr).
  destruct rep as [items'|e]; [|discriminate]. inversion Hr; subst items'.
  exists fuel', s1, w2, items. now repeat split.
Qed.

Lemma for_each_cons {A} (item : A) rest (body : A -> M W unit) s s' :
  for_each (item :: rest) body s = (s', Return tt) ->
  exists s1, body item s = (s1, Return tt) /\
             for_each rest body s1 = (s', Return tt).
Proof.
  cbn [for_each]. intros H.
  apply bind_inv in H as
      [(s1 & [] & H1 & H2)|[(e & _ & He)|(_ & He)]]; try discriminate.
  now exists s1.
Qed.

End UploadSteps.

(** ** The operations of the model, seen through kinds *)

Lemma kind_at_app p q t :
  kind_at (p ++ q) t =
  match lookup p t with Some t' => kind_at q t' | None => None end.
Proof. unfold kind_at. rewrite lookup_app. now destruct (lookup p t). Qed.

Lemma kind_below_nondir p t n q :
  kind_at p t <> Some KDir -> kind_at (p ++ n :: q) t = None.
Proof.
  intros H. rewrite kind_at_app. unfold kind_at in H.
  destruct (lookup p t) as [[| |es]|]; try reflexivity.
  now contradiction H.
Qed.

Lemma kind_above p n q t k :
  kind_at (p ++ n :: q) t = Some k -> kind_at p t = Some KDir.
Proof.
  intros H. destruct (kind_at p t) as [[| |]|] eqn:E; try reflexivity;
    rewrite kind_below_nondir in H; try discriminate; rewrite E; discriminate.
Qed.

Lemma posix_stat_run path w w' rep :
  posix_stat path w = (w', rep) ->
  w' = w /\
  match rep with
  | Ok _ => kind_at (rsegs path) (remote w) <> None
  | Err e => kind_at (rsegs path) (remote w) = None /\
             is_FileNotFoundError e = true
  end.
Proof.
  unfold posix_stat, kind_at.
  destruct (lookup (rsegs path) (remote w)); intros H; inversion H; subst;
    split; try reflexivity; cbn; [discriminate|now split].
Qed.

Lemma posix_mkdir_ok path w w' :
  posix_mkdir path w = (w', Ok tt) ->
  steady w w' /\
  kind_at (rsegs path) (remote w) = None /\
  forall q, kind_at q (remote w') =
            match strip (rsegs path) q with
            | Some [] => Some KDir
            | _ => kind_at q (remote w)
            end.
Proof.
  intros H.
  apply remote_change_inv in H as [(_ & _ & t' & Ha & ->)|(_ & e & He)];
    [|discriminate].
  split; [now repeat split|]. cbn [remote set_remote].
  apply alter_kind in Ha as (r & Hf & Hq).
  destruct (lookup (rsegs path) (remote w)) as [n|] eqn:Hl; [discriminate|].
  inversion Hf; subst r. split; [unfold kind_at; now rewrite Hl|].
  intros q. rewrite Hq. destruct (strip (rsegs path) q) as [[|n q']|] eqn:Hs;
    try reflexivity.
  apply strip_inv in Hs. subst q. rewrite kind_at_app, Hl.
  unfold kind_at. reflexivity.
Qed.

Lemma posix_put_ok localpath remotepath w w' :
  posix_put localpath remotepath w = (w', Ok tt) ->
  exists data,
    lookup (lsegs localpath) (local w) = Some (File data) /\
    steady w w' /\
    kind_at (rsegs remotepath) (remote w) <> Some KDir /\
    forall q, kind_at q (remote w') =
              match strip (rsegs remotepath) q with
              | Some [] => Some (KFile data)
              | _ => kind_at q (remote w)
              end.
Proof.
  unfold posix_put.
  destruct (lookup (lsegs localpath) (local w)) as [[data| |es]|];
    try discriminate.
  intros H. exists data. split; [reflexivity|].
  apply remote_change_inv in H as [(_ & _ & t' & Ha & ->)|(_ & e & He)];
    [|discriminate].
  split; [now repeat split|]. cbn [remote set_remote].
  apply alter_kind in Ha as (r & Hf & Hq).
  assert (Hk : kind_at (rsegs remotepath) (remote w) <> Some KDir).
  { unfold kind_at.
    destruct (lookup (rsegs remotepath) (remote w)) as [[| |es]|];
      try discriminate. }
  split; [exact Hk|]. intros q. rewrite Hq.
  assert (Hr : r = Some (File data)).
  { destruct (lookup (rsegs remotepath) (remote w)) as [[| |es]|];
      now inversion Hf. }
  subst r.
  destruct (strip (rsegs remotepath) q) as [[|n q']|] eqn:Hs;
    try reflexivity.
  apply strip_inv in Hs. subst q.
  now rewrite (kind_below_nondir _ _ n q' Hk).
Qed.

Lemma posix_os_listdir_ok path w w' names :
  posix_os_listdir path w = (w', Ok names) ->
  w' = w /\ exists es, lookup (lsegs path) (local w) = Some (Dir es) /\
                       names = map fst es.
Proof.
  unfold posix_os_listdir, names_of. intros H. inversion H; subst; clear H.
  split; [reflexivity|].
  destruct (lookup (lsegs path) (local w')) as [[| |es]|]; try discriminate.
  exists es. split; [reflexivity|]. now inversion H2.
Qed.

(** ** What an upload leaves *)

Lemma ensure_remote_dir_spec remote_dir s s1 :
  ensure_remote_dir posix remote_dir s = (s1, Return tt) ->
  steady (world s) (world s1) /\
  forall q, kind_at q (remote (world s1)) =
            match strip (rsegs remote_dir) q with
            | Some [] => match kind_at q (remote (world s)) with
                         | None => Some KDir
                         | k => k
                         end
            | _ => kind_at q (remote (world s))
            end.
Proof.
  intros H. apply ensure_remote_dir_run in H as (w1 & rep & Hop & H).
  apply posix_stat_run in Hop as (-> & Hrep). destruct rep as [[]|e].
  - destruct H as [-> _]. cbn [world called]. split; [apply steady_refl|].
    intros q. destruct (strip (rsegs remote_dir) q) as [[|n q']|] eqn:Hs;
      try reflexivity.
    apply strip_inv in Hs. rewrite app_nil_r in Hs. subst q.
    now destruct (kind_at (rsegs remote_dir) (remote (world s))).
  - destruct Hrep as [Hnone Hfnf]. rewrite Hfnf in H.
    destruct H as (w2 & rep2 & Hop2 & -> & Hr).
    destruct rep2 as [[]|e2]; [|discriminate]. cbn [world called].
    apply posix_mkdir_ok in Hop2 as (St & _ & Hq). split; [exact St|].
    intros q. rewrite Hq.
    destruct (strip (rsegs remote_dir) q) as [[|n q']|] eqn:Hs;
      try reflexivity.
    apply strip_inv in Hs. rewrite app_nil_r in Hs. subst q.
    now rewrite Hnone.
Qed.

Lemma posix_isfile_join local_dir item w les :
  valid_name item = true ->
  lookup (lsegs local_dir) (local w) = Some (Dir les) ->
  lookup (lsegs (os_path_join posix local_dir item)) (local w) = find item les.
Proof.
  intros Hv Hl. rewrite (lsegs_join _ _ Hv), lookup_app, Hl.
  apply lookup_single.
Qed.

Lemma strip_snoc rp item q :
  strip (rp ++ [item]) q =
  match strip rp q with
  | Some (i :: rel) => if String.eqb item i then Some rel else None
  | _ => None
  end.
Proof.
  rewrite strip_app_l. destruct (strip rp q) as [[|i rel]|]; try reflexivity.
Qed.

(** One entry of the local directory. *)
Lemma upload_item_spec fuel local_dir remote_dir les item s s1 :
  upload_meets_spec fuel ->
  well_formed (local (world s)) = true ->
  lookup (lsegs local_dir) (local (world s)) = Some (Dir les) ->
  valid_name item = true ->
  upload_item posix (upload_directory posix fuel) local_dir remote_dir item s
  = (s1, Return tt) ->
  steady (world s) (world s1) /\
  forall q, kind_at q (remote (world s1)) =
            match strip (rsegs remote_dir ++ [item]) q with
            | Some rel =>
                merged (kind_at q (remote (world s)))
                       (match find item les with
                        | Some c => lookup rel c
                        | None => None
                        end)
            | None => kind_at q (remote (world s))
            end.
Proof.
  intros Hrec Hw Hl Hv H. apply upload_item_run in H. cbn zeta in H.
  cbn [os_path_isfile os_path_isdir sftp_put posix] in H.
  unfold posix_isfile, posix_isdir in H.
  rewrite (posix_isfile_join _ _ _ _ Hv Hl) in H.
  destruct (find item les) as [[data| |ces]|] eqn:Hf; cbn [is_file is_dir] in H.
  - destruct H as (w1 & rep & Hop & -> & Hr).
    destruct rep as [[]|e]; [|discriminate]. cbn [world called printed] in *.
    apply posix_put_ok in Hop as (data' & Hl' & St & Hk & Hq).
    rewrite (posix_isfile_join _ _ _ _ Hv Hl), Hf in Hl'.
    inversion Hl'; subst data'. split; [exact St|]. intros q. rewrite Hq.
    rewrite (rsegs_join _ _ Hv).
    destruct (strip (rsegs remote_dir ++ [item]) q) as [[|n q']|];
      reflexivity.
  - destruct H as [-> _]. split; [apply steady_refl|]. intros q.
    destruct (strip (rsegs remote_dir ++ [item]) q) as [[|n q']|];
      reflexivity.
  - apply Hrec in H as (ces' & Hl' & St & Hq); [|exact Hw].
    rewrite (posix_isfile_join _ _ _ _ Hv Hl), Hf in Hl'.
    inversion Hl'; subst ces'. split; [exact St|]. intros q. rewrite Hq.
    unfold uploaded. now rewrite (rsegs_join _ _ Hv).
  - destruct H as [-> _]. split; [apply steady_refl|]. intros q.
    now destruct (strip (rsegs remote_dir ++ [item]) q).
Qed.

Lemma names_distinct_NoDup names : names_distinct names = true -> NoDup names.
Proof.
  induction names as [|n rest IH]; cbn; [constructor|]. intros H.
  apply andb_true_iff in H as [Hn Hrest]. constructor; [|now apply IH].
  intros Hin. apply negb_true_iff in Hn.
  assert (existsb (String.eqb n) rest = true); [|congruence].
  apply existsb_exists. exists n. split; [exact Hin|apply String.eqb_refl].
Qed.

Lemma find_absent n es : ~ In n (map fst es) -> find n es = None.
Proof.
  intros H. destruct (find n es) as [c|] eqn:E; [|reflexivity].
  now apply find_in in E.
Qed.

(** The loop over the entries of the local directory. *)
Lemma upload_loop_spec fuel local_dir remote_dir les :
  upload_meets_spec fuel ->
  forall items, NoDup items -> Forall (fun n => valid_name n = true) items ->
  forall s s',
    well_formed (local (world s)) = true ->
    lookup (lsegs local_dir) (local (world s)) = Some (Dir les) ->
    for_each items
      (upload_item posix (upload_directory posix fuel) local_dir remote_dir) s
    = (s', Return tt) ->
    steady (world s) (world s') /\
    forall q, kind_at q (remote (world s')) =
              match strip (rsegs remote_dir) q with
              | Some (i :: rel) =>
                  if in_dec string_dec i items
                  then merged (kind_at q (remote (world s)))
                              (lookup (i :: rel) (Dir les))
                  else kind_at q (remote (world s))
              | _ => kind_at q (remote (world s))
              end.
Proof.
  intros Hrec items Hnd Hvalid.
  induction Hvalid as [|item rest Hv Hrest IH]; intros s s' Hw Hl H.
  - inversion H; subst. split; [apply steady_refl|]. intros q.
    now destruct (strip (rsegs remote_dir) q) as [[|i rel]|].
  - inversion Hnd as [|x l Hnotin Hnd']; subst.
    apply for_each_cons in H as (s1 & H1 & H2).
    destruct (upload_item_spec _ _ _ _ _ _ _ Hrec Hw Hl Hv H1) as [St1 Hq1].
    destruct St1 as (L1 & L2 & L3 & L4).
    rewrite <- L1 in Hw, Hl.
    destruct (IH Hnd' _ _ Hw Hl H2) as [St2 Hq2].
    split.
    { eapply steady_trans; [|exact St2]. now repeat split. }
    intros q. rewrite Hq2, !Hq1, strip_snoc.
    destruct (strip (rsegs remote_dir) q) as [[|i rel]|] eqn:Hs;
      try reflexivity.
    destruct (String.eqb_spec item i) as [->|Hne].
    + destruct (in_dec string_dec i rest) as [Hin|Hin]; [contradiction|].
      destruct (in_dec string_dec i (i :: rest)) as [_|Hout].
      * reflexivity.
      * contradiction Hout. now left.
    + destruct (in_dec string_dec i rest) as [Hin|Hin];
        destruct (in_dec string_dec i (item :: rest)) as [Hin'|Hin'];
        try reflexivity.
      * contradiction Hin'. now right.
      * destruct Hin' as [E|Hin']; [contradiction|contradiction].
Qed.

(** Every upload that returns meets the specification. *)
Lemma upload_spec fuel : upload_meets_spec fuel.
Proof.
  induction fuel as [|fuel IH]; intros local_dir remote_dir s s' Hw H;
    apply upload_directory_run in H
      as (fuel' & s1 & w2 & items & Hfuel & Hens & Hlist & Hloop);
    [discriminate|].
  inversion Hfuel; subst fuel'; clear Hfuel.
  apply ensure_remote_dir_spec in Hens as [St1 Hq1].
  cbn [os_listdir posix] in Hlist.
  apply posix_os_listdir_ok in Hlist as (-> & les & Hl & ->).
  pose proof St1 as (L1 & _).
  exists les. split; [now rewrite <- L1|].
  assert (Hw1 : well_formed (local (world s1)) = true) by now rewrite L1.
  apply (upload_loop_spec _ _ _ les IH) in Hloop as [St2 Hq2];
    [| |exact (listing_names_valid _ _ _ Hw1 Hl)|exact Hw1|exact Hl].
  2:{ apply names_distinct_NoDup.
      exact (proj1 (well_formed_dir les (well_formed_lookup _ _ _ Hw1 Hl))). }
  split; [eapply steady_trans; eassumption|].
  intros q. rewrite Hq2. cbn [world called]. rewrite !Hq1. unfold uploaded.
  destruct (strip (rsegs remote_dir) q) as [[|i rel]|] eqn:Hs.
  - cbn [lookup merged].
    now destruct (kind_at q (remote (world s))).
  - destruct (in_dec string_dec i (map fst les)) as [Hin|Hin];
      [reflexivity|].
    cbn [lookup]. now rewrite (find_absent _ _ Hin).
  - reflexivity.
Qed.

(** The first calls of an upload that returns. *)
Lemma upload_directory_starts {W} (env : Env W)
      fuel local_dir remote_dir s s' :
  upload_directory env fuel local_dir remote_dir s = (s', Return tt) ->
  exists w1 rep rest,
    sftp_stat env remote_dir (world s) = (w1, rep) /\
    match rep with
    | Ok _ =>
        calls s' = (calls s ++ (c_stat remote_dir, None)
                            :: (c_os_listdir local_dir, None) :: rest)%list
    | Err e =>
        is_FileNotFoundError e = true /\
        calls s' = (calls s ++ (c_stat remote_dir, Some e)
                            :: (c_mkdir remote_dir, None)
                            :: (c_os_listdir local_dir, None) :: rest)%list
    end.
Proof.
  intros H. apply upload_directory_run in H
    as (fuel' & s1 & w2 & items & -> & Hens & Hlist & Hloop).
  assert (Hemit : emits is_sftp_call
            (for_each items
               (upload_item env (upload_directory env fuel')
                            local_dir remote_dir))).
  { apply emits_for_each. intros item. unfold upload_item.
    apply emits_bind; [apply emits_query|intros [|]].
    - apply emits_bind; [apply emits_print|intros _; now apply emits_invoke].
    - apply emits_bind; [apply emits_query|intros [|]];
        [apply upload_directory_emits|apply emits_ret]. }
  apply Hemit in Hloop as (rest & E & _). cbn [calls called] in E.
  apply ensure_remote_dir_run in Hens as (w1 & rep & Hop & Hrep).
  exists w1, rep, rest. split; [exact Hop|]. destruct rep as [[]|e].
  - destruct Hrep as [-> _]. cbn [calls called] in E.
    now rewrite E, <- !app_assoc.
  - destruct (is_FileNotFoundError e); [|destruct Hrep; discriminate].
    destruct Hrep as (w3 & rep2 & _ & -> & Hr). split; [reflexivity|].
    destruct rep2 as [[]|e2]; [|discriminate].
    cbn [calls called printed failure] in E.
    now rewrite E, <- !app_assoc.
Qed.

Lemma kind_at_file q t data :
  kind_at q t = Some (KFile data) -> lookup q t = Some (File data).
Proof.
  unfold kind_at. destruct (lookup q t) as [[d| |es]|]; cbn; intros H;
    inversion H; reflexivity.
Qed.

(** C3, as stated, fails: the build holds the empty directory
    [.well-known] and the server a file of that name; the probe finds the
    name taken, nothing is created, the upload returns, and the remote name
    still is the file. *)
Lemma empty_directory_not_mirrored :
  snd (upload_directory posix 3 LOCAL_DIST REMOTE_DIR
         (start site_file_in_the_way)) = Return tt /\
  lookup (lsegs LOCAL_DIST ++ [".well-known"]) (local site_file_in_the_way)
  = Some (Dir []) /\
  lookup (rsegs REMOTE_DIR ++ [".well-known"])
         (remote (world (fst (upload_directory posix 3 LOCAL_DIST REMOTE_DIR
                                (start site_file_in_the_way)))))
  = Some (File "placeholder") /\
  snd (main posix 3 (start site_file_in_the_way)) = Return tt /\
  lookup (rsegs REMOTE_DIR ++ [".well-known"])
         (remote (world (fst (main posix 3 (start site_file_in_the_way)))))
  = Some (File "placeholder").
Proof. vm_compute. repeat split. Qed.

(** C3, amended.  An upload that returns has probed the remote directory
    first and created it exactly when the probe found nothing; every file
    of the local tree then has a remote file of the same bytes at the
    matching path, whatever file was there before; and every directory of
    the local tree has a remote entry at the matching path, which is a
    directory unless something that is no directory stood there before
    the upload, and that is then left as it was. *)
Theorem upload_mirrors_local_tree fuel local_dir remote_dir s s' :
  well_formed (local (world s)) = true ->
  upload_directory posix fuel local_dir remote_dir s = (s', Return tt) ->
  match kind_at (rsegs remote_dir) (remote (world s)) with
  | Some _ =>
      exists rest,
        calls s' = (calls s ++ (c_stat remote_dir, None)
                            :: (c_os_listdir local_dir, None) :: rest)%list
  | None =>
      exists rest,
        calls s' = (calls s ++ (c_stat remote_dir, Some enoent)
                            :: (c_mkdir remote_dir, None)
                            :: (c_os_listdir local_dir, None) :: rest)%list
  end /\
  (forall rel data,
      lookup (lsegs local_dir ++ rel) (local (world s)) = Some (File data) ->
      lookup (rsegs remote_dir ++ rel) (remote (world s'))
      = Some (File data)) /\
  (forall rel es,
      lookup (lsegs local_dir ++ rel) (local (world s)) = Some (Dir es) ->
      kind_at (rsegs remote_dir ++ rel) (remote (world s')) = Some KDir \/
      exists k,
        k <> KDir /\
        kind_at (rsegs remote_dir ++ rel) (remote (world s)) = Some k /\
        kind_at (rsegs remote_dir ++ rel) (remote (world s')) = Some k).
Proof.
  intros Hw H. split.
  { apply upload_directory_starts in H as (w1 & rep & rest & Hop & Hrep).
    cbn [sftp_stat posix] in Hop. unfold posix_stat, kind_at in *.
    destruct (lookup (rsegs remote_dir) (remote (world s))) as [n|];
      inversion Hop; subst; cbn [option_map].
    - now exists rest.
    - destruct Hrep as [_ Hrep]. now exists rest. }
  destruct (upload_spec fuel _ _ _ _ Hw H) as (les & Hl & _ & Hq).
  split.
  - intros rel data Hrel. rewrite lookup_app, Hl in Hrel.
    apply kind_at_file. rewrite Hq. unfold uploaded.
    now rewrite strip_app, Hrel.
  - intros rel es Hrel. rewrite lookup_app, Hl in Hrel.
    rewrite Hq. unfold uploaded. rewrite strip_app, Hrel. cbn [merged].
    destruct (kind_at (rsegs remote_dir ++ rel) (remote (world s)))
      as [[data| |]|]; try (now left).
    + right. exists (KFile data). now repeat split.
    + right. exists KSpecial. now repeat split.
Qed.

Lemma upload_mirrors_local_tree_witness :
  lookup (rsegs REMOTE_DIR ++ ["assets"; "app.js"])
         (remote (world (fst (upload_directory posix 3 LOCAL_DIST REMOTE_DIR
                                (start scenario_A)))))
  = Some (File "js").
Proof.
  apply (proj1 (proj2 (upload_mirrors_local_tree 3 LOCAL_DIST REMOTE_DIR
           (start scenario_A)
           (fst (upload_directory posix 3 LOCAL_DIST REMOTE_DIR
                   (start scenario_A)))
           ltac:(vm_compute; reflexivity) ltac:(vm_compute; reflexivity))));
    vm_compute; reflexivity.
Defined.

(** ** More fuel changes no run that ended *)

Section Fuel.
Context {W : Type} (env : Env W).

Lemma refines_refl {A} (m : M W A) : refines m m.
Proof. intros s s' r H _. exact H. Qed.

Lemma refines_bind {A B} (m m' : M W A) (k k' : A -> M W B) :
  refines m m' -> (forall a, refines (k a) (k' a)) ->
  refines (bind m k) (bind m' k').
Proof.
  intros Hm Hk s s' r H Hr.
  apply bind_inv in H as [(s1 & a & H1 & H2)|[(e & H1 & ->)|(H1 & ->)]].
  - assert (H1' := Hm _ _ _ H1 ltac:(discriminate)).
    rewrite (bind_return _ _ _ _ _ H1'). now apply Hk.
  - assert (H1' := Hm _ _ _ H1 ltac:(discriminate)).
    now rewrite (bind_raise _ _ _ _ _ H1').
  - now contradiction Hr.
Qed.

Lemma refines_try {A} (body body' : M W A) catches handler handler' :
  refines body body' -> (forall e, refines (handler e) (handler' e)) ->
  refines (try_except body catches handler)
          (try_except body' catches handler').
Proof.
  intros Hb Hh s s' r H Hr.
  apply try_inv in H as [(s1 & e & H1 & Hc & H2)|(H1 & Hc)].
  - assert (H1' := Hb _ _ _ H1 ltac:(discriminate)).
    unfold try_except. rewrite H1', Hc. now apply Hh.
  - assert (H1' := Hb _ _ _ H1 Hr). unfold try_except. rewrite H1'.
    destruct r as [a|e|]; try reflexivity. now rewrite (Hc e eq_refl).
Qed.

Lemma refines_for_each {A} (items : list A) (body body' : A -> M W unit) :
  (forall item, refines (body item) (body' item)) ->
  refines (for_each items body) (for_each items body').
Proof.
  intros Hb. induction items as [|item rest IH]; cbn [for_each].
  - apply refines_refl.
  - apply refines_bind; [apply Hb|intros _; exact IH].
Qed.

Lemma rmdir_recursive_mono fuel :
  forall fuel' path, fuel <= fuel' ->
    refines (rmdir_recursive env fuel path) (rmdir_recursive env fuel' path).
Proof.
  induction fuel as [|fuel IH]; intros fuel' path Hle.
  - intros s s' r H Hr. inversion H; subst. now contradiction Hr.
  - destruct fuel' as [|fuel']; [lia|]. cbn [rmdir_recursive].
    apply refines_bind; [apply refines_refl|intros fs].
    apply refines_bind; [|intros _; apply refines_refl].
    apply refines_for_each. intros f. unfold rmdir_child.
    apply refines_try; [apply refines_refl|intros _]. apply IH. lia.
Qed.

Lemma upload_directory_mono fuel :
  forall fuel' local_dir remote_dir, fuel <= fuel' ->
    refines (upload_directory env fuel local_dir remote_dir)
            (upload_directory env fuel' local_dir remote_dir).
Proof.
  induction fuel as [|fuel IH]; intros fuel' local_dir remote_dir Hle.
  - intros s s' r H Hr. inversion H; subst. now contradiction Hr.
  - destruct fuel' as [|fuel']; [lia|]. cbn [upload_directory].
    apply refines_bind; [apply refines_refl|intros _].
    apply refines_bind; [apply refines_refl|intros items].
    apply refines_for_each. intros item. unfold upload_item.
    apply refines_bind; [apply refines_refl|intros [|]];
      [apply refines_refl|].
    apply refines_bind; [apply refines_refl|intros [|]];
      [|apply refines_refl].
    apply IH. lia.
Qed.

Lemma clean_item_mono fuel fuel' item :
  fuel <= fuel' ->
  refines (clean_item env fuel item) (clean_item env fuel' item).
Proof.
  intros Hle. unfold clean_item. destruct (negb (startswith item "."));
    [|apply refines_refl].
  apply refines_try; [apply refines_refl|intros _].
  apply refines_bind; [now apply rmdir_recursive_mono|intros _].
  apply refines_refl.
Qed.

Lemma cleanup_body_mono fuel fuel' :
  fuel <= fuel' ->
  refines (cleanup_body env fuel) (cleanup_body env fuel').
Proof.
  intros Hle. unfold cleanup_body.
  apply refines_bind; [apply refines_refl|intros items].
  apply refines_for_each. intros item. now apply clean_item_mono.
Qed.

Lemma main_mono fuel fuel' :
  fuel <= fuel' -> refines (main env fuel) (main env fuel').
Proof.
  intros Hle. unfold main.
  apply refines_bind; [apply refines_refl|intros _].
  apply refines_try; [|intros e; apply refines_refl].
  unfold session.
  apply refines_bind; [apply refines_refl|intros _].
  apply refines_bind; [apply refines_refl|intros _].
  apply refines_bind.
  { unfold cleanup. apply refines_try; [|intros e; apply refines_refl].
    now apply cleanup_body_mono. }
  intros _. apply refines_bind; [|intros _; apply refines_refl].
  unfold upload_phase.
  apply refines_bind; [apply refines_refl|intros _].
  now apply upload_directory_mono.
Qed.

End Fuel.

(** ** Well-formedness is kept *)

Lemma existsb_eqb_in n names :
  existsb (String.eqb n) names = true <-> In n names.
Proof.
  rewrite existsb_exists. split.
  - intros (x & Hin & Heq). apply String.eqb_eq in Heq. now subst.
  - intros Hin. exists n. split; [exact Hin|apply String.eqb_refl].
Qed.

Lemma NoDup_names_distinct names : NoDup names -> names_distinct names = true.
Proof.
  induction 1 as [|n rest Hn Hrest IH]; cbn; [reflexivity|].
  rewrite IH, andb_true_r. apply negb_true_iff.
  destruct (existsb (String.eqb n) rest) eqn:E; [|reflexivity].
  now apply existsb_eqb_in in E.
Qed.

Lemma well_formed_iff es :
  well_formed (Dir es) = true <->
  NoDup (map fst es) /\
  forall n c, In (n, c) es -> valid_name n = true /\ well_formed c = true.
Proof.
  cbn [well_formed]. rewrite andb_true_iff, forallb_forall. split.
  - intros [Hd Ha]. split; [now apply names_distinct_NoDup|].
    intros n c Hin. apply Ha in Hin. now apply andb_true_iff in Hin.
  - intros [Hd Ha]. split; [now apply NoDup_names_distinct|].
    intros [n c] Hin. apply andb_true_iff. now apply Ha.
Qed.

Lemma in_put_entry k c n v es :
  In (k, c) (put_entry n v es) -> (k = n /\ c = v) \/ In (k, c) es.
Proof.
  induction es as [|[k0 v0] es IH]; cbn.
  - intros [E|[]]. inversion E. now left.
  - destruct (String.eqb_spec k0 n) as [->|Hk]; cbn.
    + intros [E|Hin]; [inversion E; now left|right; now right].
    + intros [E|Hin]; [right; now left|].
      destruct (IH Hin) as [?|?]; [now left|right; now right].
Qed.

Lemma in_del_entry k c n es : In (k, c) (del_entry n es) -> In (k, c) es.
Proof.
  induction es as [|[k0 v0] es IH]; cbn; [tauto|].
  destruct (String.eqb k0 n); cbn; intuition.
Qed.

Lemma names_put_entry k n v es :
  In k (map fst (put_entry n v es)) <-> In k (map fst es) \/ k = n.
Proof.
  induction es as [|[k0 v0] es IH]; cbn.
  - intuition.
  - destruct (String.eqb_spec k0 n) as [->|Hk]; cbn.
    + intuition.
    + rewrite IH. intuition.
Qed.

Lemma names_del_entry k n es :
  In k (map fst (del_entry n es)) -> In k (map fst es).
Proof.
  induction es as [|[k0 v0] es IH]; cbn; [tauto|].
  destruct (String.eqb k0 n); cbn; intuition.
Qed.

Lemma NoDup_put_entry n v es :
  NoDup (map fst es) -> NoDup (map fst (put_entry n v es)).
Proof.
  induction es as [|[k0 v0] es IH]; cbn; intros H.
  - constructor; [tauto|constructor].
  - inversion H as [|x l Hx Hl]; subst.
    destruct (String.eqb_spec k0 n) as [->|Hk]; cbn.
    + now constructor.
    + constructor; [|now apply IH]. rewrite names_put_entry.
      intros [Hin|E]; [contradiction|congruence].
Qed.

Lemma NoDup_del_entry n es :
  NoDup (map fst es) -> NoDup (map fst (del_entry n es)).
Proof.
  induction es as [|[k0 v0] es IH]; cbn; intros H; [constructor|].
  inversion H as [|x l Hx Hl]; subst.
  destruct (String.eqb k0 n); cbn; [now apply IH|].
  constructor; [|now apply IH]. intros Hin. apply Hx.
  eapply names_del_entry; eassumption.
Qed.

Lemma well_formed_put n v es :
  well_formed (Dir es) = true -> valid_name n = true ->
  well_formed v = true -> well_formed (Dir (put_entry n v es)) = true.
Proof.
  rewrite !well_formed_iff. intros [Hd Ha] Hn Hv. split.
  - now apply NoDup_put_entry.
  - intros k c Hin. apply in_put_entry in Hin as [[-> ->]|Hin];
      [now split|now apply Ha].
Qed.

Lemma well_formed_del n es :
  well_formed (Dir es) = true -> well_formed (Dir (del_entry n es)) = true.
Proof.
  rewrite !well_formed_iff. intros [Hd Ha]. split.
  - now apply NoDup_del_entry.
  - intros k c Hin. apply in_del_entry in Hin. now apply Ha.
Qed.

(** An alteration keeps the tree well-formed when what it puts in is
    well-formed and goes under a file name. *)
Lemma alter_well_formed p f :
  forall t t',
    well_formed t = true -> alter p f t = Some t' ->
    (forall o v, f o = Some (Some v) ->
                 well_formed v = true /\ valid_name (last p "") = true) ->
    well_formed t' = true.
Proof.
  induction p as [|n p IH]; intros t t' Hw Ha Hf; [discriminate|].
  apply alter_inv in Ha as (n0 & p' & es & E & -> & H).
  inversion E; subst n0 p'; clear E. destruct p as [|m p].
  - destruct H as (r & Hr & ->). destruct r as [v|]; cbn [set_entry].
    + destruct (Hf _ _ Hr) as [Hv Hn]. now apply well_formed_put.
    + now apply well_formed_del.
  - destruct H as (c & c' & Hc & Ha & ->).
    destruct (well_formed_dir es Hw) as (_ & Hnames & Hsub).
    apply well_formed_put; [exact Hw| |].
    + apply Hnames. eapply find_in; eassumption.
    + apply (IH c c'); [now apply (Hsub n)|exact Ha|exact Hf].
Qed.

Lemma remote_change_well_formed path f w w' rep :
  remote_change path f w = (w', rep) ->
  (forall o v, f o = Some (Some v) ->
               well_formed v = true /\
               valid_name (last (rsegs path) "") = true) ->
  well_formed (remote w) = true -> well_formed (remote w') = true.
Proof.
  intros H Hf Hw.
  apply remote_change_inv in H as [(_ & _ & t' & Ha & ->)|(-> & _)];
    [|exact Hw].
  cbn [remote set_remote]. eapply alter_well_formed; eassumption.
Qed.

Lemma posix_remove_well_formed path w w' rep :
  posix_remove path w = (w', rep) ->
  well_formed (remote w) = true -> well_formed (remote w') = true.
Proof.
  intros H. eapply remote_change_well_formed; [exact H|].
  intros [[| |es]|] v Hv; discriminate.
Qed.

Lemma posix_rmdir_well_formed path w w' rep :
  posix_rmdir path w = (w', rep) ->
  well_formed (remote w) = true -> well_formed (remote w') = true.
Proof.
  intros H. eapply remote_change_well_formed; [exact H|].
  intros [[| |[|e es]]|] v Hv; discriminate.
Qed.

Lemma posix_mkdir_well_formed path w w' rep :
  posix_mkdir path w = (w', rep) ->
  valid_name (last (rsegs path) "") = true ->
  well_formed (remote w) = true -> well_formed (remote w') = true.
Proof.
  intros H Hn. eapply remote_change_well_formed; [exact H|].
  intros [n|] v Hv; inversion Hv; subst. now split.
Qed.

Lemma posix_put_well_formed localpath remotepath w w' rep :
  posix_put localpath remotepath w = (w', rep) ->
  valid_name (last (rsegs remotepath) "") = true ->
  well_formed (remote w) = true -> well_formed (remote w') = true.
Proof.
  unfold posix_put. intros H Hn.
  destruct (lookup (lsegs localpath) (local w)) as [[data| |es]|];
    try (inversion H; subst; tauto).
  eapply remote_change_well_formed; [exact H|].
  intros [[| |es]|] v Hv; inversion Hv; subst; now split.
Qed.

Lemma keeps_well_formed_refl w : keeps_well_formed w w.
Proof. intros H. exact H. Qed.

Lemma keeps_well_formed_trans w1 w2 w3 :
  keeps_well_formed w1 w2 -> keeps_well_formed w2 w3 ->
  keeps_well_formed w1 w3.
Proof. unfold keeps_well_formed. auto. Qed.

Lemma rmdir_recursive_keeps_well_formed fuel :
  forall path,
    preserves keeps_well_formed (rmdir_recursive posix fuel path).
Proof.
  induction fuel as [|fuel IH]; intros path; cbn [rmdir_recursive].
  - apply preserves_diverge. apply keeps_well_formed_refl.
  - apply preserves_bind; [apply keeps_well_formed_trans| |intros fs].
    { apply preserves_invoke. intros w w' rep H.
      apply posix_listdir_same in H as ->. apply keeps_well_formed_refl. }
    apply preserves_bind; [apply keeps_well_formed_trans| |intros _].
    + apply preserves_for_each;
        [apply keeps_well_formed_refl|apply keeps_well_formed_trans|].
      intros f _. unfold rmdir_child.
      apply preserves_try; [apply keeps_well_formed_trans| |intros _].
      * apply preserves_invoke. intros w w' rep H.
        exact (posix_remove_well_formed _ _ _ _ H).
      * apply IH.
    + apply preserves_invoke. intros w w' rep H.
      exact (posix_rmdir_well_formed _ _ _ _ H).
Qed.

Lemma clean_item_keeps_well_formed fuel item :
  preserves keeps_well_formed (clean_item posix fuel item).
Proof.
  unfold clean_item. destruct (negb (startswith item ".")).
  - apply preserves_try; [apply keeps_well_formed_trans| |intros _].
    + apply preserves_bind; [apply keeps_well_formed_trans| |intros _].
      * apply preserves_invoke. intros w w' rep H.
        exact (posix_remove_well_formed _ _ _ _ H).
      * apply preserves_print. apply keeps_well_formed_refl.
    + apply preserves_bind; [apply keeps_well_formed_trans| |intros _].
      * apply rmdir_recursive_keeps_well_formed.
      * apply preserves_print. apply keeps_well_formed_refl.
  - apply preserves_ret. apply keeps_well_formed_refl.
Qed.

Lemma last_snoc (p : list string) n : last (p ++ [n])%list "" = n.
Proof. apply last_last. Qed.

Lemma upload_loop_well_formed fuel local_dir remote_dir les :
  (forall L R s s',
      well_formed (local (world s)) = true ->
      well_formed (remote (world s)) = true ->
      valid_name (last (rsegs R) "") = true ->
      upload_directory posix fuel L R s = (s', Return tt) ->
      well_formed (remote (world s')) = true) ->
  forall items, Forall (fun n => valid_name n = true) items ->
  forall s s',
    well_formed (local (world s)) = true ->
    lookup (lsegs local_dir) (local (world s)) = Some (Dir les) ->
    well_formed (remote (world s)) = true ->
    for_each items
      (upload_item posix (upload_directory posix fuel) local_dir remote_dir) s
    = (s', Return tt) ->
    well_formed (remote (world s')) = true.
Proof.
  intros Hrec items Hvalid.
  induction Hvalid as [|item rest Hv Hrest IH]; intros s s' Hw Hl Hr H.
  - now inversion H; subst.
  - apply for_each_cons in H as (s1 & H1 & H2).
    destruct (upload_item_spec _ _ _ _ _ _ _ (upload_spec fuel) Hw Hl Hv H1)
      as [(L1 & _) _].
    apply (IH s1 s'); [now rewrite L1|now rewrite L1| |exact H2].
    clear H2 IH. apply upload_item_run in H1. cbn zeta in H1.
    cbn [os_path_isfile os_path_isdir sftp_put posix] in H1.
    destruct (posix_isfile _ (world s)).
    + destruct H1 as (w1 & rep & Hop & -> & _). cbn [world called].
      apply (posix_put_well_formed _ _ _ _ _ Hop); [|exact Hr].
      now rewrite (rsegs_join _ _ Hv), last_snoc.
    + destruct (posix_isdir _ (world s)).
      * apply (Hrec _ _ _ _ Hw Hr) in H1; [exact H1|].
        now rewrite (rsegs_join _ _ Hv), last_snoc.
      * now destruct H1 as [-> _].
Qed.

(** An upload keeps the remote tree well-formed. *)
Lemma upload_keeps_well_formed fuel :
  forall local_dir remote_dir s s',
    well_formed (local (world s)) = true ->
    well_formed (remote (world s)) = true ->
    valid_name (last (rsegs remote_dir) "") = true ->
    upload_directory posix fuel local_dir remote_dir s = (s', Return tt) ->
    well_formed (remote (world s')) = true.
Proof.
  induction fuel as [|fuel IH]; intros local_dir remote_dir s s' Hw Hr Hn H;
    apply upload_directory_run in H
      as (fuel' & s1 & w2 & items & Hfuel & Hens & Hlist & Hloop);
    [discriminate|].
  inversion Hfuel; subst fuel'; clear Hfuel.
  pose proof (ensure_remote_dir_spec _ _ _ Hens) as [(L1 & _) _].
  cbn [os_listdir posix] in Hlist.
  apply posix_os_listdir_ok in Hlist as (-> & les & Hl & ->).
  assert (Hw1 : well_formed (local (world s1)) = true) by now rewrite L1.
  apply (upload_loop_well_formed _ _ _ les IH) in Hloop;
    [exact Hloop|exact (listing_names_valid _ _ _ Hw1 Hl)|exact Hw1|exact Hl|].
  cbn [world called].
  apply ensure_remote_dir_run in Hens as (w1 & rep & Hop & Hrep).
  cbn [sftp_stat sftp_mkdir posix] in *.
  apply posix_stat_run in Hop as (-> & Hk). destruct rep as [[]|e].
  - now destruct Hrep as [-> _].
  - destruct Hk as [_ Hfnf]. rewrite Hfnf in Hrep.
    destruct Hrep as (w3 & rep2 & Hop2 & -> & _). cbn [world called].
    exact (posix_mkdir_well_formed _ _ _ _ Hop2 Hn Hr).
Qed.

(** ** The cleanup comes to its end *)

Lemma depth_find n es c : find n es = Some c -> depth c < depth (Dir es).
Proof.
  cbn [depth]. induction es as [|[k v] es IH]; cbn; [discriminate|].
  destruct (String.eqb k n).
  - intros H. inversion H; subst. lia.
  - intros H. apply IH in H. lia.
Qed.

Lemma depth_lookup p : forall t t', lookup p t = Some t' -> depth t' <= depth t.
Proof.
  induction p as [|n p IH]; intros t t' H; cbn in H.
  - inversion H; subst. lia.
  - destruct t as [| |es]; try discriminate.
    destruct (find n es) as [c|] eqn:Hc; [|discriminate].
    apply IH in H. apply depth_find in Hc. lia.
Qed.

Lemma denied_nowhere w p : readonly w = [] -> denied w p = false.
Proof. unfold denied. intros ->. reflexivity. Qed.

Lemma alter_refused p f t : f (lookup p t) = None -> alter p f t = None.
Proof.
  intros H. destruct (alter p f t) as [t'|] eqn:E; [|reflexivity].
  apply alter_lookup_under in E as (r & Hr & _). congruence.
Qed.

Lemma alter_goes pp n f t c r :
  lookup (pp ++ [n]) t = Some c -> f (Some c) = Some r ->
  exists t', alter (pp ++ [n]) f t = Some t'.
Proof.
  intros Hl Hf. apply lookup_child in Hl as (es & Hpp & Hfind).
  apply (alter_total pp n f t es r Hpp). now rewrite Hfind.
Qed.

Lemma posix_remove_goes path pp n w c :
  readonly w = [] -> rsegs path = (pp ++ [n])%list ->
  lookup (rsegs path) (remote w) = Some c -> is_dir c = false ->
  exists w', posix_remove path w = (w', Ok tt) /\ steady w w'.
Proof.
  intros Hro Hp Hl Hc. unfold posix_remove, remote_change.
  rewrite (denied_nowhere _ _ Hro). rewrite Hp in *.
  destruct (alter_goes pp n
              (fun o => match o with
                        | Some (Dir _) | None => None
                        | Some _ => Some None
                        end) (remote w) c None Hl) as [t' Ht'].
  { destruct c; [reflexivity|reflexivity|discriminate]. }
  rewrite Ht'. eexists. split; [reflexivity|now repeat split].
Qed.

Lemma posix_remove_refuses_dir path w es :
  lookup (rsegs path) (remote w) = Some (Dir es) ->
  exists e, posix_remove path w = (w, Err e).
Proof.
  intros Hl. unfold posix_remove, remote_change.
  destruct (denied w (rsegs path)); [now eexists|].
  rewrite alter_refused; [now eexists|]. now rewrite Hl.
Qed.

Lemma posix_rmdir_goes path pp n w :
  readonly w = [] -> rsegs path = (pp ++ [n])%list ->
  lookup (rsegs path) (remote w) = Some (Dir []) ->
  exists w', posix_rmdir path w = (w', Ok tt) /\ steady w w'.
Proof.
  intros Hro Hp Hl. unfold posix_rmdir, remote_change.
  rewrite (denied_nowhere _ _ Hro). rewrite Hp in *.
  destruct (alter_goes pp n
              (fun o => match o with
                        | Some (Dir []) => Some None
                        | _ => None
                        end) (remote w) (Dir []) None Hl eq_refl)
    as [t' Ht'].
  rewrite Ht'. eexists. split; [reflexivity|now repeat split].
Qed.

Lemma strip_self p : strip p p = Some [].
Proof. rewrite <- (app_nil_r p) at 2. apply strip_app. Qed.

Lemma rmdir_child_within fuel path f :
  preserves (within (rsegs (path ++ "/" ++ f)))
            (rmdir_child posix (rmdir_recursive posix fuel) path f).
Proof.
  unfold rmdir_child.
  apply preserves_try; [apply within_trans| |intros _].
  - apply preserves_invoke. intros w w' rep H.
    now apply remote_change_within in H.
  - apply rmdir_recursive_within.
Qed.

Lemma rmdir_child_gone fuel path f s s' :
  rmdir_child posix (rmdir_recursive posix fuel) path f s = (s', Return tt) ->
  lookup (rsegs (path ++ "/" ++ f)) (remote (world s')) = None.
Proof.
  intros H. apply rmdir_child_inv in H as (w1 & rep & Hop & Hrep).
  destruct rep as [[]|e].
  - destruct Hrep as [-> _]. cbn [world called].
    now apply posix_remove_gone in Hop.
  - now apply rmdir_recursive_gone in Hrep.
Qed.

(** The loop over the children of a directory: the children among [items]
    are gone, their siblings and the directory itself are as before. *)
Lemma children_loop fuel path items :
  Forall (fun n => valid_name n = true) items ->
  forall s s',
    for_each items (rmdir_child posix (rmdir_recursive posix fuel) path) s
    = (s', Return tt) ->
    steady (world s) (world s') /\
    (forall n q, ~ In n items ->
       lookup (rsegs path ++ n :: q) (remote (world s'))
       = lookup (rsegs path ++ n :: q) (remote (world s))) /\
    (forall n, In n items ->
       lookup (rsegs path ++ [n]) (remote (world s')) = None) /\
    kind_at (rsegs path) (remote (world s'))
    = kind_at (rsegs path) (remote (world s)).
Proof.
  induction 1 as [|item rest Hv Hrest IH]; intros s s' H.
  - inversion H; subst. split; [apply steady_refl|]. repeat split.
    intros n [].
  - apply for_each_cons in H as (s1 & H1 & H2).
    destruct (IH _ _ H2) as (St2 & Keep2 & Gone2 & Kind2).
    pose proof (rmdir_child_within fuel path item _ _ _ H1)
      as (St1 & Keep1 & Kind1).
    rewrite (rsegs_join _ _ Hv) in Keep1, Kind1.
    split; [eapply steady_trans; eassumption|]. split; [|split].
    + intros n q Hn. rewrite Keep2; [|intros Hin; apply Hn; now right].
      apply Keep1. apply apart_siblings. intros ->. apply Hn. now left.
    + intros n Hin.
      destruct (in_dec string_dec n rest) as [Hr|Hr]; [now apply Gone2|].
      destruct Hin as [->|Hin]; [|contradiction].
      rewrite (Keep2 n [] Hr). rewrite <- (rsegs_join _ _ Hv).
      now apply (rmdir_child_gone fuel path n s).
    + rewrite Kind2. apply Kind1. now rewrite strip_snoc, strip_self.
Qed.

Lemma in_find n es : In n (map fst es) -> exists c, find n es = Some c.
Proof.
  intros H. destruct (find n es) as [c|] eqn:E; [now exists c|].
  now apply find_not_in in E.
Qed.

Lemma rmdir_child_total fuel path f s c :
  deletable fuel ->
  valid_name f = true -> readonly (world s) = [] ->
  lookup (rsegs path ++ [f]) (remote (world s)) = Some c ->
  well_formed c = true -> depth c <= fuel ->
  exists s',
    rmdir_child posix (rmdir_recursive posix fuel) path f s
    = (s', Return tt).
Proof.
  intros Hdel Hv Hro Hl Hw Hd. rewrite <- (rsegs_join _ _ Hv) in Hl.
  unfold rmdir_child, try_except, remove. destruct c as [data| |ces].
  - destruct (posix_remove_goes _ (rsegs path) f _ _ Hro
                (rsegs_join _ _ Hv) Hl eq_refl) as (w' & Hop & _).
    erewrite invoke_ok; [|exact Hop]. eauto.
  - destruct (posix_remove_goes _ (rsegs path) f _ _ Hro
                (rsegs_join _ _ Hv) Hl eq_refl) as (w' & Hop & _).
    erewrite invoke_ok; [|exact Hop]. eauto.
  - destruct (posix_remove_refuses_dir _ _ _ Hl) as [e Hop].
    erewrite invoke_err; [|exact Hop]. cbn [any_exn].
    apply (Hdel _ (rsegs path) f ces); try assumption.
    apply rsegs_join. exact Hv.
Qed.

Lemma children_total fuel path :
  deletable fuel ->
  forall items, NoDup items -> Forall (fun n => valid_name n = true) items ->
  forall s,
    readonly (world s) = [] ->
    (forall f, In f items ->
       exists c, lookup (rsegs path ++ [f]) (remote (world s)) = Some c /\
                 well_formed c = true /\ depth c <= fuel) ->
    exists s',
      for_each items (rmdir_child posix (rmdir_recursive posix fuel) path) s
      = (s', Return tt).
Proof.
  intros Hdel items Hnd Hvalid.
  induction Hvalid as [|f rest Hv Hrest IH]; intros s Hro Hc.
  - eexists. reflexivity.
  - inversion Hnd as [|x l Hnotin Hnd']; subst.
    destruct (Hc f (or_introl eq_refl)) as (c & Hl & Hw & Hd).
    destruct (rmdir_child_total fuel path f s c Hdel Hv Hro Hl Hw Hd)
      as [s1 H1].
    pose proof (rmdir_child_within fuel path f _ _ _ H1)
      as ((_ & _ & _ & Hro1) & Keep1 & _).
    rewrite (rsegs_join _ _ Hv) in Keep1.
    destruct (IH Hnd' s1) as [s' H2].
    + now rewrite Hro1.
    + intros g Hg. destruct (Hc g (or_intror Hg)) as (cg & Hlg & Hwg & Hdg).
      exists cg. split; [|now split]. rewrite <- Hlg. apply Keep1.
      apply apart_siblings. intros ->. contradiction.
    + exists s'. cbn [for_each]. now rewrite (bind_return _ _ _ _ _ H1).
Qed.

Lemma empty_when_no_child p t es :
  lookup p t = Some (Dir es) ->
  (forall f, lookup (p ++ [f]) t = None) -> es = [].
Proof.
  intros Hl Hnone. destruct es as [|[k v] es]; [reflexivity|].
  specialize (Hnone k). rewrite lookup_app, Hl, lookup_single in Hnone.
  cbn in Hnone. now rewrite String.eqb_refl in Hnone.
Qed.

Lemma kind_at_dir q t :
  kind_at q t = Some KDir -> exists es, lookup q t = Some (Dir es).
Proof.
  unfold kind_at. destruct (lookup q t) as [[d| |es]|]; cbn; intros H;
    inversion H. now exists es.
Qed.

(** [rmdir_recursive] comes to its end. *)
Lemma rmdir_recursive_total fuel : deletable fuel.
Proof.
  induction fuel as [|fuel IH]; intros path pp n es s Hp Hl Hw Hd Hro.
  - cbn [depth] in Hd. lia.
  - destruct (well_formed_dir es Hw) as (Hdist & Hnames & Hsub).
    destruct (children_total fuel path IH (map fst es)
                (names_distinct_NoDup _ Hdist)
                (proj2 (Forall_forall _ _) Hnames)
                (called (c_listdir path) None (world s) s) Hro)
      as [s2 H2].
    { intros f Hf. apply in_find in Hf as [c Hc]. exists c. cbn [world called].
      rewrite lookup_app, Hl, lookup_single. split; [exact Hc|].
      split; [now apply (Hsub f)|]. apply depth_find in Hc. lia. }
    pose proof (children_loop fuel path (map fst es)
                  (proj2 (Forall_forall _ _) Hnames) _ _ H2)
      as ((_ & _ & _ & Hro2) & Keep & Gone & Kind).
    cbn [world called] in *.
    assert (Hk : kind_at (rsegs path) (remote (world s2)) = Some KDir).
    { rewrite Kind. unfold kind_at. now rewrite Hl. }
    apply kind_at_dir in Hk as [es2 Hl2].
    assert (es2 = []) as ->.
    { apply (empty_when_no_child _ _ _ Hl2). intros f.
      destruct (in_dec string_dec f (map fst es)) as [Hin|Hin].
      - now apply Gone.
      - rewrite (Keep f [] Hin), lookup_app, Hl, lookup_single.
        now apply find_absent. }
    destruct (posix_rmdir_goes path pp n (world s2)) as (w3 & Hop & _);
      [congruence|exact Hp|exact Hl2|].
    eexists. cbn [rmdir_recursive].
    erewrite bind_return.
    2:{ apply invoke_ok. cbn [sftp_listdir posix].
        unfold posix_listdir, names_of. rewrite Hl. reflexivity. }
    rewrite (bind_return _ _ _ _ _ H2). unfold rmdir.
    erewrite invoke_ok; [reflexivity|exact Hop].
Qed.

Lemma clean_item_total fuel item s c :
  valid_name item = true -> readonly (world s) = [] ->
  lookup (rsegs REMOTE_DIR ++ [item]) (remote (world s)) = Some c ->
  well_formed c = true -> depth c <= fuel ->
  exists s', clean_item posix fuel item s = (s', Return tt).
Proof.
  intros Hv Hro Hl Hw Hd. unfold clean_item.
  destruct (negb (startswith item ".")); [|eexists; reflexivity].
  rewrite <- (rsegs_join _ _ Hv) in Hl.
  unfold try_except, remove. destruct c as [data| |ces].
  - destruct (posix_remove_goes _ (rsegs REMOTE_DIR) item _ _ Hro
                (rsegs_join _ _ Hv) Hl eq_refl) as (w' & Hop & _).
    erewrite bind_return; [|apply invoke_ok; exact Hop]. eexists. reflexivity.
  - destruct (posix_remove_goes _ (rsegs REMOTE_DIR) item _ _ Hro
                (rsegs_join _ _ Hv) Hl eq_refl) as (w' & Hop & _).
    erewrite bind_return; [|apply invoke_ok; exact Hop]. eexists. reflexivity.
  - destruct (posix_remove_refuses_dir _ _ _ Hl) as [e Hop].
    erewrite bind_raise; [|apply invoke_err; exact Hop]. cbn [any_exn].
    destruct (rmdir_recursive_total fuel (REMOTE_DIR ++ "/" ++ item)
                (rsegs REMOTE_DIR) item ces
                (called (c_remove (REMOTE_DIR ++ "/" ++ item)) (Some e)
                        (world s) s)
                (rsegs_join _ _ Hv) Hl Hw Hd Hro) as [s1 H1].
    erewrite bind_return; [|exact H1]. eexists. reflexivity.
Qed.

Lemma clean_loop_total fuel :
  forall items, NoDup items -> Forall (fun n => valid_name n = true) items ->
  forall s,
    readonly (world s) = [] ->
    (forall f, In f items ->
       exists c, lookup (rsegs REMOTE_DIR ++ [f]) (remote (world s)) = Some c /\
                 well_formed c = true /\ depth c <= fuel) ->
    exists s', for_each items (clean_item posix fuel) s = (s', Return tt).
Proof.
  intros items Hnd Hvalid.
  induction Hvalid as [|f rest Hv Hrest IH]; intros s Hro Hc.
  - eexists. reflexivity.
  - inversion Hnd as [|x l Hnotin Hnd']; subst.
    destruct (Hc f (or_introl eq_refl)) as (c & Hl & Hw & Hd).
    destruct (clean_item_total fuel f s c Hv Hro Hl Hw Hd) as [s1 H1].
    pose proof (clean_item_within fuel f _ _ _ H1)
      as ((_ & _ & _ & Hro1) & Keep1 & _).
    rewrite (rsegs_join _ _ Hv) in Keep1.
    destruct (IH Hnd' s1) as [s' H2].
    + now rewrite Hro1.
    + intros g Hg. destruct (Hc g (or_intror Hg)) as (cg & Hlg & Hwg & Hdg).
      exists cg. split; [|now split]. rewrite <- Hlg. apply Keep1.
      apply apart_siblings. intros ->. contradiction.
    + exists s'. cbn [for_each]. now rewrite (bind_return _ _ _ _ _ H1).
Qed.

Lemma cleanup_body_intro {W} (env : Env W) fuel s w1 names s' r :
  sftp_listdir env REMOTE_DIR (world s) = (w1, Ok names) ->
  for_each names (clean_item env fuel)
           (called (c_listdir REMOTE_DIR) None w1 s) = (s', r) ->
  cleanup_body env fuel s = (s', r).
Proof.
  intros Hop H. unfold cleanup_body, listdir.
  now rewrite (bind_return _ _ _ _ _ (invoke_ok _ _ _ _ _ Hop)).
Qed.

(** The cleanup loop comes to its end on a well-formed tree, on a server
    that refuses nothing, with fuel for the depth of the tree. *)
Lemma cleanup_body_total fuel s es :
  lookup (rsegs REMOTE_DIR) (remote (world s)) = Some (Dir es) ->
  well_formed (remote (world s)) = true ->
  readonly (world s) = [] ->
  depth (remote (world s)) <= fuel ->
  exists s', cleanup_body posix fuel s = (s', Return tt).
Proof.
  intros Hl Hw Hro Hd.
  pose proof (well_formed_lookup _ _ _ Hw Hl) as Hwd.
  destruct (well_formed_dir es Hwd) as (Hdist & Hnames & Hsub).
  pose proof (depth_lookup _ _ _ Hl) as Hdd.
  destruct (clean_loop_total fuel (map fst es)
              (names_distinct_NoDup _ Hdist)
              (proj2 (Forall_forall _ _) Hnames)
              (called (c_listdir REMOTE_DIR) None (world s) s) Hro)
    as [s' H'].
  { intros f Hf. apply in_find in Hf as [c Hc]. exists c. cbn [world called].
    rewrite lookup_app, Hl, lookup_single. split; [exact Hc|].
    split; [now apply (Hsub f)|]. apply depth_find in Hc. lia. }
  exists s'. apply (cleanup_body_intro posix fuel s (world s) (map fst es)).
  - cbn [sftp_listdir posix]. unfold posix_listdir, names_of.
    now rewrite Hl.
  - exact H'.
Qed.

Lemma same_outside_refl rp w : same_outside rp w w.
Proof. intros q _. reflexivity. Qed.

Lemma same_outside_trans rp w1 w2 w3 :
  same_outside rp w1 w2 -> same_outside rp w2 w3 -> same_outside rp w1 w3.
Proof. intros H1 H2 q Hq. now rewrite (H2 q Hq), (H1 q Hq). Qed.

Lemma clean_loop_outside fuel items :
  Forall (fun n => valid_name n = true) items ->
  preserves (same_outside (rsegs REMOTE_DIR))
            (for_each items (clean_item posix fuel)).
Proof.
  intros Hvalid.
  apply preserves_for_each;
    [apply same_outside_refl|apply same_outside_trans|].
  intros item Hin s s' r H. rewrite Forall_forall in Hvalid.
  pose proof (clean_item_within fuel item _ _ _ H) as (_ & _ & Kind).
  rewrite (rsegs_join _ _ (Hvalid _ Hin)) in Kind.
  intros q Hq. apply Kind. rewrite strip_snoc.
  now destruct Hq as [->| ->].
Qed.

(** What the remote tree shows after a cleanup loop that came to its
    end. *)
Lemma cleanup_body_kinds fuel s s' :
  well_formed (remote (world s)) = true ->
  cleanup_body posix fuel s = (s', Return tt) ->
  steady (world s) (world s') /\
  forall q, kind_at q (remote (world s'))
            = cleaned (rsegs REMOTE_DIR) (remote (world s)) q.
Proof.
  intros Hw H.
  destruct (cleanup_body_spec fuel s s' Hw H) as (es & Hl & St & Keep & Gone).
  split; [exact St|].
  apply cleanup_body_run in H as
      [(w1 & names & Hop & H2)|(w1 & e & _ & _ & He)]; [|discriminate].
  apply posix_listdir_ok in Hop as (-> & es' & Hl' & ->).
  rewrite Hl in Hl'. inversion Hl'; subst es'; clear Hl'.
  pose proof (clean_loop_outside fuel (map fst es)
                (listing_names_valid _ _ _ Hw Hl) _ _ _ H2) as Hout.
  cbn [world called] in Hout.
  intros q. unfold cleaned.
  destruct (strip (rsegs REMOTE_DIR) q) as [[|i rel]|] eqn:Hs.
  - apply Hout. now right.
  - apply strip_inv in Hs. subst q.
    destruct (startswith i ".") eqn:Hi.
    + unfold kind_at. now rewrite (Keep i rel (or_introl Hi)).
    + destruct (in_dec string_dec i (map fst es)) as [Hin|Hin].
      * change (i :: rel) with ([i] ++ rel)%list.
        rewrite app_assoc, kind_at_app. now rewrite (Gone i Hin Hi).
      * unfold kind_at. rewrite (Keep i rel (or_intror Hin)).
        rewrite lookup_app, Hl. cbn [lookup].
        now rewrite (find_absent _ _ Hin).
  - apply Hout. now left.
Qed.

(** ** The upload comes to its end *)

Section UploadGoes.
Context {W : Type} (env : Env W).

Lemma ensure_remote_dir_found remote_dir s w1 :
  sftp_stat env remote_dir (world s) = (w1, Ok tt) ->
  exists s', ensure_remote_dir env remote_dir s = (s', Return tt).
Proof.
  intros H. unfold ensure_remote_dir, try_except, stat.
  rewrite (invoke_ok _ _ _ _ _ H). eexists. reflexivity.
Qed.

Lemma ensure_remote_dir_created remote_dir s w1 e w2 :
  sftp_stat env remote_dir (world s) = (w1, Err e) ->
  is_FileNotFoundError e = true ->
  sftp_mkdir env remote_dir w1 = (w2, Ok tt) ->
  exists s', ensure_remote_dir env remote_dir s = (s', Return tt).
Proof.
  intros H He H2. unfold ensure_remote_dir, try_except, stat.
  rewrite (invoke_err _ _ _ _ _ H), He.
  unfold bind at 1, print at 1, mkdir.
  erewrite invoke_ok; [eexists; reflexivity|exact H2].
Qed.

Lemma upload_item_file recurse local_dir remote_dir item s w1 :
  os_path_isfile env (os_path_join env local_dir item) (world s) = true ->
  sftp_put env (os_path_join env local_dir item) (remote_dir ++ "/" ++ item)
           (world s) = (w1, Ok tt) ->
  exists s',
    upload_item env recurse local_dir remote_dir item s = (s', Return tt).
Proof.
  intros Hf Hop. unfold upload_item, bind at 1, query at 1. cbn zeta.
  rewrite Hf. unfold bind at 1, print at 1, put.
  erewrite invoke_ok; [eexists; reflexivity|exact Hop].
Qed.

Lemma upload_item_dir recurse local_dir remote_dir item s :
  os_path_isfile env (os_path_join env local_dir item) (world s) = false ->
  os_path_isdir env (os_path_join env local_dir item) (world s) = true ->
  upload_item env recurse local_dir remote_dir item s
  = recurse (os_path_join env local_dir item) (remote_dir ++ "/" ++ item) s.
Proof.
  intros Hf Hd. unfold upload_item, bind at 1, query at 1. cbn zeta.
  rewrite Hf. unfold bind at 1, query at 1. now rewrite Hd.
Qed.

Lemma upload_item_other recurse local_dir remote_dir item s :
  os_path_isfile env (os_path_join env local_dir item) (world s) = false ->
  os_path_isdir env (os_path_join env local_dir item) (world s) = false ->
  upload_item env recurse local_dir remote_dir item s = (s, Return tt).
Proof.
  intros Hf Hd. unfold upload_item, bind at 1, query at 1. cbn zeta.
  rewrite Hf. unfold bind at 1, query at 1. now rewrite Hd.
Qed.

Lemma upload_directory_intro fuel local_dir remote_dir s s1 w2 items s' r :
  ensure_remote_dir env remote_dir s = (s1, Return tt) ->
  os_listdir env local_dir (world s1) = (w2, Ok items) ->
  for_each items
    (upload_item env (upload_directory env fuel) local_dir remote_dir)
    (called (c_os_listdir local_dir) None w2 s1) = (s', r) ->
  upload_directory env (S fuel) local_dir remote_dir s = (s', r).
Proof.
  intros H1 H2 H3. rewrite upload_directory_unfold.
  rewrite (bind_return _ _ _ _ _ H1).
  now rewrite (bind_return _ _ _ _ _ (invoke_ok _ _ _ _ _ H2)).
Qed.

End UploadGoes.

Lemma posix_mkdir_goes path pp n w :
  readonly w = [] -> rsegs path = (pp ++ [n])%list ->
  kind_at pp (remote w) = Some KDir ->
  kind_at (rsegs path) (remote w) = None ->
  exists w', posix_mkdir path w = (w', Ok tt).
Proof.
  intros Hro Hp Hpp Hnone. unfold posix_mkdir, remote_change.
  rewrite (denied_nowhere _ _ Hro). rewrite Hp in *.
  apply kind_at_dir in Hpp as [es Hes].
  destruct (alter_total pp n
              (fun o => match o with
                        | None => Some (Some (Dir []))
                        | Some _ => None
                        end) (remote w) es (Some (Dir [])) Hes) as [t' Ht'].
  { rewrite kind_at_app, Hes in Hnone. unfold kind_at in Hnone.
    rewrite lookup_single in Hnone.
    destruct (find n es); [discriminate|reflexivity]. }
  rewrite Ht'. eexists. reflexivity.
Qed.

Lemma posix_put_goes localpath remotepath pp n w data :
  readonly w = [] -> rsegs remotepath = (pp ++ [n])%list ->
  lookup (lsegs localpath) (local w) = Some (File data) ->
  kind_at pp (remote w) = Some KDir ->
  kind_at (rsegs remotepath) (remote w) <> Some KDir ->
  exists w', posix_put localpath remotepath w = (w', Ok tt).
Proof.
  intros Hro Hp Hl Hpp Hk. unfold posix_put. rewrite Hl.
  unfold remote_change.
  rewrite (denied_nowhere _ _ Hro). rewrite Hp in *.
  apply kind_at_dir in Hpp as [es Hes].
  destruct (alter_total pp n
              (fun o => match o with
                        | Some (Dir _) => None
                        | _ => Some (Some (File data))
                        end) (remote w) es (Some (File data)) Hes)
    as [t' Ht'].
  { rewrite kind_at_app, Hes in Hk. unfold kind_at in Hk.
    rewrite lookup_single in Hk.
    destruct (find n es) as [[d| |ces]|]; try reflexivity.
    now contradiction Hk. }
  rewrite Ht'. eexists. reflexivity.
Qed.

Lemma posix_local_kind local_dir item w les :
  valid_name item = true ->
  lookup (lsegs local_dir) (local w) = Some (Dir les) ->
  os_path_isfile posix (os_path_join posix local_dir item) w
  = match find item les with Some n => is_file n | None => false end /\
  os_path_isdir posix (os_path_join posix local_dir item) w
  = match find item les with Some n => is_dir n | None => false end.
Proof.
  intros Hv Hl. cbn [os_path_isfile os_path_isdir posix].
  unfold posix_isfile, posix_isdir.
  now rewrite (posix_isfile_join _ _ _ _ Hv Hl).
Qed.

Lemma fits_same src rp t t' :
  (forall rel, kind_at (rp ++ rel) t' = kind_at (rp ++ rel) t) ->
  fits src rp t -> fits src rp t'.
Proof.
  intros Hsame [F1 F2]. split.
  - intros rel data Hl. rewrite Hsame. now apply (F1 rel data).
  - intros rel c n Hl Hn. rewrite Hsame. now apply (F2 rel c n).
Qed.

Lemma fits_child les rp t i c :
  find i les = Some c -> fits (Dir les) rp t -> fits c (rp ++ [i]) t.
Proof.
  intros Hf [F1 F2]. split.
  - intros rel data Hl. rewrite <- app_assoc. apply (F1 (i :: rel) data).
    cbn [lookup]. now rewrite Hf.
  - intros rel c0 n Hl Hn. rewrite <- app_assoc.
    apply (F2 (i :: rel) c0 n); [|exact Hn].
    cbn [lookup app]. now rewrite Hf.
Qed.

(** The loop over the entries of the local directory comes to its end. *)
Lemma upload_loop_total fuel local_dir remote_dir les :
  uploadable fuel ->
  forall items, NoDup items -> Forall (fun n => valid_name n = true) items ->
  forall s,
    well_formed (local (world s)) = true ->
    readonly (world s) = [] ->
    lookup (lsegs local_dir) (local (world s)) = Some (Dir les) ->
    (forall i c, In i items -> find i les = Some c ->
       depth c <= fuel /\
       fits c (rsegs remote_dir ++ [i]) (remote (world s)) /\
       (c <> Special ->
        kind_at (rsegs remote_dir) (remote (world s)) = Some KDir)) ->
    exists s',
      for_each items
        (upload_item posix (upload_directory posix fuel) local_dir remote_dir)
        s = (s', Return tt).
Proof.
  intros Hrec items Hnd Hvalid.
  induction Hvalid as [|i rest Hv Hrest IH]; intros s Hw Hro Hl Hc.
  - eexists. reflexivity.
  - inversion Hnd as [|x l Hnotin Hnd']; subst.
    destruct (posix_local_kind local_dir i (world s) les Hv Hl) as [Hif Hid].
    assert (H1 : exists s1,
               upload_item posix (upload_directory posix fuel)
                           local_dir remote_dir i s = (s1, Return tt)).
    { destruct (find i les) as [[data| |ces]|] eqn:Hf; cbn [is_file is_dir] in *.
      - destruct (Hc i (File data) (or_introl eq_refl) Hf)
          as (_ & [F1 _] & Hk).
        destruct (posix_put_goes (os_path_join posix local_dir i)
                    (remote_dir ++ "/" ++ i) (rsegs remote_dir) i
                    (world s) data Hro (rsegs_join _ _ Hv)) as [w1 Hop].
        + now rewrite (posix_isfile_join _ _ _ _ Hv Hl).
        + apply Hk. discriminate.
        + rewrite (rsegs_join _ _ Hv).
          specialize (F1 [] data eq_refl). now rewrite app_nil_r in F1.
        + exact (upload_item_file posix _ _ _ _ _ _ Hif Hop).
      - exists s. now apply upload_item_other.
      - destruct (Hc i (Dir ces) (or_introl eq_refl) Hf)
          as (Hd & Hfit & Hk).
        rewrite (upload_item_dir posix _ _ _ _ _ Hif Hid).
        apply (Hrec _ _ ces); [exact Hw|exact Hro| |exact Hd| |].
        + now rewrite (posix_isfile_join _ _ _ _ Hv Hl).
        + right. exists (rsegs remote_dir), i.
          split; [apply (rsegs_join _ _ Hv)|]. apply Hk. discriminate.
        + now rewrite (rsegs_join _ _ Hv).
      - exists s. now apply upload_item_other. }
    destruct H1 as [s1 H1].
    destruct (upload_item_spec _ _ _ _ _ _ _ (upload_spec fuel) Hw Hl Hv H1)
      as [(L1 & L2 & L3 & L4) Hq].
    destruct (IH Hnd' s1) as [s' H2].
    + now rewrite L1.
    + now rewrite L4.
    + now rewrite L1.
    + intros j c Hj Hf.
      destruct (Hc j c (or_intror Hj) Hf) as (Hd & Hfit & Hk).
      assert (Hji : String.eqb i j = false).
      { apply String.eqb_neq. intros ->. contradiction. }
      split; [exact Hd|]. split.
      * apply (fits_same _ _ (remote (world s))); [|exact Hfit].
        intros rel. rewrite Hq, strip_snoc, <- app_assoc, strip_app.
        cbn [app]. now rewrite Hji.
      * intros Hn. rewrite Hq, strip_snoc, strip_self. now apply Hk.
    + exists s'. cbn [for_each]. now rewrite (bind_return _ _ _ _ _ H1).
Qed.

(** [upload_directory] comes to its end. *)
Lemma upload_total fuel : uploadable fuel.
Proof.
  induction fuel as [|fuel IH];
    intros local_dir remote_dir les s Hw Hro Hl Hd Hroot Hfit.
  - cbn [depth] in Hd. lia.
  - assert (Hens : exists s1,
               ensure_remote_dir posix remote_dir s = (s1, Return tt)).
    { destruct (kind_at (rsegs remote_dir) (remote (world s))) as [k|] eqn:Hk.
      - apply (ensure_remote_dir_found posix remote_dir s (world s)).
        cbn [sftp_stat posix]. unfold posix_stat. unfold kind_at in Hk.
        now destruct (lookup (rsegs remote_dir) (remote (world s))).
      - destruct Hroot as [Hroot|(pp & n & Hp & Hpp)]; [now contradiction Hroot|].
        destruct (posix_mkdir_goes remote_dir pp n (world s) Hro Hp Hpp Hk)
          as [w2 Hop].
        apply (ensure_remote_dir_created posix remote_dir s (world s)
                 enoent w2); [|reflexivity|exact Hop].
        cbn [sftp_stat posix]. unfold posix_stat. unfold kind_at in Hk.
        now destruct (lookup (rsegs remote_dir) (remote (world s))). }
    destruct Hens as [s1 Hens].
    destruct (ensure_remote_dir_spec _ _ _ Hens) as [(L1 & L2 & L3 & L4) Hq].
    assert (Hl1 : lookup (lsegs local_dir) (local (world s1)) = Some (Dir les))
      by now rewrite L1.
    assert (Hw1 : well_formed (local (world s1)) = true) by now rewrite L1.
    pose proof (well_formed_lookup _ _ _ Hw1 Hl1) as Hwd.
    destruct (well_formed_dir les Hwd) as (Hdist & Hnames & _).
    destruct (upload_loop_total fuel local_dir remote_dir les IH
                (map fst les) (names_distinct_NoDup _ Hdist)
                (proj2 (Forall_forall _ _) Hnames)
                (called (c_os_listdir local_dir) None (world s1) s1))
      as [s' H'].
    + exact Hw1.
    + cbn [world called]. now rewrite L4.
    + exact Hl1.
    + cbn [world called]. intros i c _ Hf. split.
      { apply depth_find in Hf. lia. }
      split.
      * apply (fits_same _ _ (remote (world s)));
          [|exact (fits_child _ _ _ _ _ Hf Hfit)].
        intros rel. rewrite Hq, <- app_assoc, strip_app. reflexivity.
      * intros Hn. rewrite Hq, strip_self.
        destruct Hfit as [_ F2].
        destruct (F2 [] i c) as [E|E]; [cbn [app lookup]; now rewrite Hf
                                       |exact Hn| |];
          rewrite app_nil_r in E; now rewrite E.
    + exists s'. apply (upload_directory_intro posix fuel _ _ s s1 (world s1)
                          (map fst les)); [exact Hens| |exact H'].
      cbn [os_listdir posix]. unfold posix_os_listdir, names_of.
      now rewrite Hl1.
Qed.

(** ** The steps of a run that returns *)

Section MainSteps.
Context {W : Type} (env : Env W).

Lemma prints_run {A} (items : list A) (line : A -> string) :
  forall s : state W,
  exists s', for_each items (fun item => print (line item)) s
             = (s', Return tt) /\ world s' = world s.
Proof.
  induction items as [|item rest IH]; intros s.
  - exists s. now split.
  - destruct (IH (printed (line item) s)) as (s' & H & Hw).
    exists s'. split; [|exact Hw]. cbn [for_each].
    erewrite bind_return; [exact H|reflexivity].
Qed.

Lemma list_and_close_returns s s' :
  list_and_close env s = (s', Return tt) ->
  exists w1 names w2 w3,
    sftp_listdir env REMOTE_DIR (world s) = (w1, Ok names) /\
    sftp_close env w1 = (w2, Ok tt) /\
    ssh_close env w2 = (w3, Ok tt) /\
    world s' = w3.
Proof.
  unfold list_and_close, listdir. intros H.
  apply bind_inv in H as
      [(s1 & [] & H1 & H)|[(e & _ & He)|(_ & He)]]; try discriminate.
  inversion H1; subst s1; clear H1.
  apply bind_inv in H as
      [(s2 & names & H2 & H)|[(e & _ & He)|(_ & He)]]; try discriminate.
  apply invoke_inv in H2 as (w1 & rep & Hop & -> & Hr).
  destruct rep as [names'|e]; [|discriminate]. inversion Hr; subst names'.
  apply bind_inv in H as
      [(s3 & [] & H3 & H)|[(e & _ & He)|(_ & He)]]; try discriminate.
  match type of H3 with
  | for_each _ _ ?st = _ =>
      destruct (prints_run names (fun item => "  " ++ item) st)
        as (s3' & E & Hw3)
  end.
  rewrite E in H3. inversion H3; subst s3'; clear H3 E.
  apply bind_inv in H as
      [(s4 & [] & H4 & H)|[(e & _ & He)|(_ & He)]]; try discriminate.
  apply invoke_inv in H4 as (w2 & rep2 & Hop2 & -> & Hr2).
  destruct rep2 as [[]|e]; [|discriminate].
  apply bind_inv in H as
      [(s5 & [] & H5 & H)|[(e & _ & He)|(_ & He)]]; try discriminate.
  apply invoke_inv in H5 as (w3 & rep3 & Hop3 & -> & Hr3).
  destruct rep3 as [[]|e]; [|discriminate].
  inversion H; subst s'; clear H.
  exists w1, names, w2, w3. rewrite Hw3 in Hop2. now repeat split.
Qed.

Lemma list_and_close_goes s w1 names w2 w3 :
  sftp_listdir env REMOTE_DIR (world s) = (w1, Ok names) ->
  sftp_close env w1 = (w2, Ok tt) ->
  ssh_close env w2 = (w3, Ok tt) ->
  exists s', list_and_close env s = (s', Return tt) /\ world s' = w3.
Proof.
  intros H1 H2 H3. unfold list_and_close, listdir.
  erewrite bind_return; [|reflexivity].
  erewrite bind_return; [|apply invoke_ok; exact H1].
  destruct (prints_run names (fun item => "  " ++ item)
              (called (c_listdir REMOTE_DIR) None w1
                      (printed (nl ++ "Uploaded files:") s)))
    as (s3 & E & Hw3).
  erewrite bind_return; [|exact E].
  erewrite bind_return; [|apply invoke_ok; rewrite Hw3; exact H2].
  erewrite bind_return; [|apply invoke_ok; exact H3].
  eexists. split; reflexivity.
Qed.

Lemma main_returns fuel s s' :
  main env fuel s = (s', Return tt) <->
  session env fuel AutoAddPolicy
          (printed ("Connecting to " ++ HOST ++ "...") s) = (s', Return tt).
Proof.
  unfold main. split; intros H.
  - apply bind_inv in H as
        [(s1 & [] & H1 & H)|[(e & _ & He)|(_ & He)]]; try discriminate.
    inversion H1; subst s1; clear H1. cbn beta zeta in H.
    apply try_inv in H as [(s2 & e & _ & _ & H)|(H & _)]; [|exact H].
    apply bind_inv in H as
        [(s3 & [] & _ & H)|[(e' & _ & He)|(_ & He)]]; discriminate.
  - rewrite (bind_return (print ("Connecting to " ++ HOST ++ "...")) _ s
               (printed ("Connecting to " ++ HOST ++ "...") s) tt eq_refl).
    cbn beta zeta. unfold try_except. now rewrite H.
Qed.

Lemma session_connected fuel policy s w1 w2 :
  ssh_connect env policy HOST PORT USERNAME PASSWORD 30 (world s)
  = (w1, Ok tt) ->
  ssh_open_sftp env w1 = (w2, Ok tt) ->
  session env fuel policy s =
  (cleanup env fuel ;; upload_phase env fuel ;; list_and_close env)
    (printed (nl ++ "Cleaning " ++ REMOTE_DIR ++ "...")
       (called c_open_sftp None w2
          (printed "Connected!"
             (called (c_connect policy HOST PORT USERNAME PASSWORD 30)
                     None w1 s)))).
Proof.
  intros H1 H2. rewrite session_unfold.
  erewrite bind_return; [|apply invoke_ok; exact H1].
  erewrite bind_return; [|reflexivity].
  erewrite bind_return; [|apply invoke_ok; exact H2].
  erewrite bind_return; [|reflexivity]. reflexivity.
Qed.

Lemma session_returns_connected fuel policy s s' :
  session env fuel policy s = (s', Return tt) ->
  exists w1 w2,
    ssh_connect env policy HOST PORT USERNAME PASSWORD 30 (world s)
    = (w1, Ok tt) /\
    ssh_open_sftp env w1 = (w2, Ok tt).
Proof.
  rewrite session_unfold. intros H.
  apply bind_inv in H as
      [(s1 & [] & H1 & H)|[(e & _ & He)|(_ & He)]]; try discriminate.
  apply invoke_inv in H1 as (w1 & rep & Hop & -> & Hr).
  destruct rep as [[]|e]; [|discriminate].
  apply bind_inv in H as
      [(s2 & [] & H2 & H)|[(e & _ & He)|(_ & He)]]; try discriminate.
  inversion H2; subst s2; clear H2.
  apply bind_inv in H as
      [(s3 & [] & H3 & H)|[(e & _ & He)|(_ & He)]]; try discriminate.
  apply invoke_inv in H3 as (w2 & rep2 & Hop2 & -> & Hr2).
  destruct rep2 as [[]|e]; [|discriminate].
  exists w1, w2. now split.
Qed.

Lemma phases_return fuel s s' :
  (cleanup env fuel ;; upload_phase env fuel ;; list_and_close env) s
  = (s', Return tt) <->
  exists s3 s4,
    cleanup env fuel s = (s3, Return tt) /\
    upload_directory env fuel LOCAL_DIST REMOTE_DIR
      (printed (nl ++ "Uploading " ++ LOCAL_DIST ++ " -> " ++ REMOTE_DIR) s3)
    = (s4, Return tt) /\
    list_and_close env s4 = (s', Return tt).
Proof.
  split.
  - intros H.
    apply bind_inv in H as
        [(s3 & [] & H3 & H)|[(e & _ & He)|(_ & He)]]; try discriminate.
    apply bind_inv in H as
        [(s4 & [] & H4 & H)|[(e & _ & He)|(_ & He)]]; try discriminate.
    unfold upload_phase in H4.
    apply bind_inv in H4 as
        [(s5 & [] & H5 & H4)|[(e & _ & He)|(_ & He)]]; try discriminate.
    inversion H5; subst s5; clear H5.
    exists s3, s4. now repeat split.
  - intros (s3 & s4 & H3 & H4 & H5).
    erewrite bind_return; [|exact H3].
    erewrite bind_return; [exact H5|].
    unfold upload_phase. erewrite bind_return; [exact H4|reflexivity].
Qed.

(** A run returns exactly when the connection and the channel come to
    stand and the three phases return one after the other. *)
Lemma main_steps fuel s s' :
  main env fuel s = (s', Return tt) <->
  exists w1 w2 s3 s4,
    ssh_connect env AutoAddPolicy HOST PORT USERNAME PASSWORD 30 (world s)
    = (w1, Ok tt) /\
    ssh_open_sftp env w1 = (w2, Ok tt) /\
    cleanup env fuel (connected AutoAddPolicy w1 w2 s) = (s3, Return tt) /\
    upload_directory env fuel LOCAL_DIST REMOTE_DIR
      (printed (nl ++ "Uploading " ++ LOCAL_DIST ++ " -> " ++ REMOTE_DIR) s3)
    = (s4, Return tt) /\
    list_and_close env s4 = (s', Return tt).
Proof.
  rewrite main_returns. split.
  - intros H.
    destruct (session_returns_connected _ _ _ _ H) as (w1 & w2 & H1 & H2).
    rewrite (session_connected _ _ _ _ _ H1 H2) in H.
    apply phases_return in H as (s3 & s4 & H3 & H4 & H5).
    exists w1, w2, s3, s4. now repeat split.
  - intros (w1 & w2 & s3 & s4 & H1 & H2 & H3 & H4 & H5).
    rewrite (session_connected _ _ _ w1 w2); [|exact H1|exact H2].
    apply phases_return. exists s3, s4. now repeat split.
Qed.

Lemma cleanup_returns fuel s s' :
  cleanup env fuel s = (s', Return tt) ->
  cleanup_body env fuel s = (s', Return tt) \/
  exists s1 e, cleanup_body env fuel s = (s1, Raise e) /\ s' = warned e s1.
Proof.
  unfold cleanup. intros H.
  apply try_inv in H as [(s1 & e & H1 & _ & H2)|(H & _)]; [right|now left].
  exists s1, e. split; [exact H1|]. now inversion H2.
Qed.

Lemma cleanup_body_returned fuel s s' :
  cleanup_body env fuel s = (s', Return tt) ->
  cleanup env fuel s = (s', Return tt).
Proof. intros H. unfold cleanup, try_except. now rewrite H. Qed.

End MainSteps.

(** ** Running twice *)

Lemma merged_again k l : merged (merged k l) l = merged k l.
Proof. destruct l as [[d| |es]|]; destruct k; reflexivity. Qed.

(** After an upload and a cleanup, the tree leaves room for the same
    upload. *)
Lemma fits_rerun les rp x t1 y :
  (forall q, kind_at q t1 = uploaded (Dir les) rp x q) ->
  (forall q, kind_at q y = cleaned rp t1 q) ->
  fits (Dir les) rp y.
Proof.
  intros H1 Hy. split.
  - intros rel data Hl. rewrite Hy. unfold cleaned. rewrite strip_app.
    destruct rel as [|i rel]; [discriminate|].
    destruct (startswith i "."); [|discriminate].
    rewrite H1. unfold uploaded. rewrite strip_app, Hl. discriminate.
  - intros rel c n Hl Hn.
    assert (Hk : kind_at (rp ++ rel) t1 = Some KDir).
    { assert (Hsome : exists k, kind_at ((rp ++ rel) ++ [c]) t1 = Some k).
      { rewrite <- app_assoc, H1. unfold uploaded. rewrite strip_app, Hl.
        destruct n as [d| |es]; [eexists; reflexivity|now contradiction Hn|].
        cbn [merged]. destruct (kind_at _ x); eexists; reflexivity. }
      destruct Hsome as [k Hk]. exact (kind_above _ _ _ _ _ Hk). }
    rewrite Hy. unfold cleaned. rewrite strip_app.
    destruct rel as [|i rel']; [now right|].
    destruct (startswith i "."); [now right|now left].
Qed.

(** Upload, cleanup and upload again show what the first upload showed,
    when the first upload started from a place with no visible entry. *)
Lemma rerun_same les rp x t1 y t2 :
  (forall q, kind_at q t1 = uploaded (Dir les) rp x q) ->
  (forall q, kind_at q y = cleaned rp t1 q) ->
  (forall q, kind_at q t2 = uploaded (Dir les) rp y q) ->
  (forall i rel, startswith i "." = false ->
     kind_at (rp ++ i :: rel) x = None) ->
  same_tree t2 t1.
Proof.
  intros H1 Hy H2 Hx q. rewrite H2. unfold uploaded at 1. rewrite Hy.
  unfold cleaned. destruct (strip rp q) as [[|i rel]|] eqn:Hs.
  - rewrite H1. unfold uploaded. rewrite Hs. apply merged_again.
  - destruct (startswith i ".") eqn:Hi.
    + rewrite H1. unfold uploaded. rewrite Hs. apply merged_again.
    + rewrite H1. unfold uploaded. rewrite Hs. apply strip_inv in Hs.
      subst q. now rewrite (Hx i rel Hi).
  - reflexivity.
Qed.

Lemma posix_connect_run host port username password timeout w w1 :
  posix_connect AutoAddPolicy host port username password timeout w
  = (w1, Ok tt) <->
  w1 = w /\ link_error w = None.
Proof.
  unfold posix_connect. destruct (link_error w); split; intros H.
  - discriminate.
  - destruct H; discriminate.
  - now inversion H.
  - now destruct H as [-> _].
Qed.

Lemma cleanup_body_keeps_well_formed fuel :
  preserves keeps_well_formed (cleanup_body posix fuel).
Proof.
  unfold cleanup_body.
  apply preserves_bind; [apply keeps_well_formed_trans| |intros items].
  - apply preserves_invoke. intros w w' rep H.
    apply posix_listdir_same in H as ->. apply keeps_well_formed_refl.
  - apply preserves_for_each;
      [apply keeps_well_formed_refl|apply keeps_well_formed_trans|].
    intros item _. apply clean_item_keeps_well_formed.
Qed.

(** On a server that refuses nothing, a cleanup that returns, with or
    without a warning, leaves no visible entry below the web root. *)
Lemma cleanup_clears fuel s s' :
  well_formed (remote (world s)) = true -> readonly (world s) = [] ->
  cleanup posix fuel s = (s', Return tt) ->
  steady (world s) (world s') /\
  well_formed (remote (world s')) = true /\
  forall i rel, startswith i "." = false ->
    kind_at (rsegs REMOTE_DIR ++ i :: rel) (remote (world s')) = None.
Proof.
  intros Hw Hro H.
  apply cleanup_returns in H as [H|(s1 & e & H & ->)].
  - destruct (cleanup_body_kinds fuel s s' Hw H) as [St Hq].
    split; [exact St|].
    split; [exact (cleanup_body_keeps_well_formed fuel _ _ _ H Hw)|].
    intros i rel Hi. rewrite Hq. unfold cleaned. now rewrite strip_app, Hi.
  - assert (Hnd : forall es,
               lookup (rsegs REMOTE_DIR) (remote (world s)) <> Some (Dir es)).
    { intros es Hl.
      destruct (cleanup_body_total
                  (Nat.max fuel (depth (remote (world s)))) s es Hl Hw Hro
                  (Nat.le_max_r _ _)) as [s2 H2].
      pose proof (cleanup_body_mono posix fuel
                    (Nat.max fuel (depth (remote (world s))))
                    (Nat.le_max_l _ _) s s1 (Raise e) H
                    ltac:(discriminate)) as H3.
      rewrite H2 in H3. discriminate. }
    apply cleanup_body_run in H as
        [(w1 & names & Hop & _)|(w1 & e' & Hop & -> & _)].
    + apply posix_listdir_ok in Hop as (_ & es & Hl & _).
      now contradiction (Hnd es).
    + apply posix_listdir_same in Hop as ->.
      cbn [world warned printed called].
      split; [apply steady_refl|]. split; [exact Hw|].
      intros i rel _. apply kind_below_nondir. intros Hk.
      apply kind_at_dir in Hk as [es Hes]. now apply (Hnd es).
Qed.

Lemma web_root_name : valid_name (last (rsegs REMOTE_DIR) "") = true.
Proof. vm_compute. reflexivity. Qed.

(** C8.  On a server that refuses nothing, with both trees well-formed:
    when a run of [main] returns, a second run, started from the site the
    first one left with the local tree as it was, returns too, and the
    remote tree then shows at every path what it showed after the first
    run, the same kind of entry and, for a file, the same bytes.  This
    holds at every recursion bound from some bound on, and none of them
    changes what the first run leaves. *)
Theorem run_twice_same_tree fuel w s1 :
  well_formed (remote w) = true ->
  well_formed (local w) = true ->
  readonly w = [] ->
  main posix fuel (start w) = (s1, Return tt) ->
  exists n, forall fuel', n <= fuel' ->
    main posix fuel' (start w) = (s1, Return tt) /\
    local (world s1) = local w /\
    exists s2,
      main posix fuel' (start (world s1)) = (s2, Return tt) /\
      same_tree (remote (world s2)) (remote (world s1)).
Proof.
  intros Hwr Hwl Hro H.
  exists (Nat.max fuel (Nat.max (depth (remote (world s1)))
                                (depth (local w)))).
  intros fuel' Hn. split.
  { apply (main_mono posix fuel fuel'); [lia|exact H|discriminate]. }
  apply main_steps in H as (w1 & w2 & s3 & s4 & Hc & Ho & Hcl & Hup & Hlc).
  apply posix_connect_run in Hc as [-> Hlink].
  inversion Ho; subst w2; clear Ho.
  cbn [world start] in Hcl, Hlink.
  destruct (cleanup_clears fuel (connected AutoAddPolicy w w (start w)) s3
              Hwr Hro Hcl)
    as ((L1 & L2 & L3 & L4) & Hw3 & Hclear).
  cbn [world connected printed called start] in L1, L2, L3, L4.
  assert (Hwl3 : well_formed (local (world s3)) = true) by now rewrite L1.
  destruct (upload_spec fuel LOCAL_DIST REMOTE_DIR
              (printed (nl ++ "Uploading " ++ LOCAL_DIST ++ " -> "
                           ++ REMOTE_DIR) s3) s4 Hwl3 Hup)
    as (les & Hles & (M1 & M2 & M3 & M4) & Hq1).
  pose proof (upload_keeps_well_formed fuel LOCAL_DIST REMOTE_DIR
                (printed (nl ++ "Uploading " ++ LOCAL_DIST ++ " -> "
                             ++ REMOTE_DIR) s3) s4 Hwl3 Hw3
                web_root_name Hup) as Hw4.
  cbn [world printed] in Hles, M1, M2, M3, M4, Hq1.
  apply list_and_close_returns in Hlc
    as (w1' & names & w2' & w3' & Hls & Hc1 & Hc2 & Hws1).
  apply posix_listdir_ok in Hls as (-> & es4 & Hes4 & ->).
  assert (Hws : world s1 = world s4)
    by (inversion Hc1; inversion Hc2; congruence).
  clear Hc1 Hc2 Hws1. rewrite Hws in *.
  assert (Hlocal : local (world s4) = local w) by now rewrite M1.
  assert (Hro4 : readonly (world s4) = []) by now rewrite M4, L4.
  assert (Hlink4 : link_error (world s4) = None) by now rewrite M2, L2.
  split; [exact Hlocal|].
  destruct (cleanup_body_total fuel'
              (connected AutoAddPolicy (world s4) (world s4)
                         (start (world s4))) es4 Hes4 Hw4 Hro4)
    as [sb Hb].
  { cbn [world connected printed called start]. lia. }
  destruct (cleanup_body_kinds fuel'
              (connected AutoAddPolicy (world s4) (world s4)
                         (start (world s4))) sb Hw4 Hb)
    as [(N1 & N2 & N3 & N4) Hqy].
  pose proof (cleanup_body_keeps_well_formed fuel' _ _ _ Hb Hw4) as Hwb.
  cbn [world connected printed called start] in N1, N4, Hqy.
  assert (Hlesb : lookup (lsegs LOCAL_DIST) (local (world sb))
                  = Some (Dir les)).
  { now rewrite N1, Hlocal, <- L1. }
  assert (Hwlb : well_formed (local (world sb)) = true).
  { now rewrite N1, Hlocal. }
  destruct (upload_total fuel' LOCAL_DIST REMOTE_DIR les
              (printed (nl ++ "Uploading " ++ LOCAL_DIST ++ " -> "
                           ++ REMOTE_DIR) sb) Hwlb)
    as [sc Hsc].
  { cbn [world printed]. now rewrite N4. }
  { exact Hlesb. }
  { apply depth_lookup in Hlesb. rewrite N1, Hlocal in Hlesb. lia. }
  { left. cbn [world printed]. rewrite Hqy. unfold cleaned.
    rewrite strip_self. unfold kind_at. now rewrite Hes4. }
  { cbn [world printed]. exact (fits_rerun _ _ _ _ _ Hq1 Hqy). }
  destruct (upload_spec fuel' LOCAL_DIST REMOTE_DIR
              (printed (nl ++ "Uploading " ++ LOCAL_DIST ++ " -> "
                           ++ REMOTE_DIR) sb) sc Hwlb Hsc)
    as (les' & Hles' & _ & Hq2).
  cbn [world printed] in Hles', Hq2.
  rewrite Hlesb in Hles'. inversion Hles'; subst les'; clear Hles'.
  assert (Hroot : exists es,
             lookup (rsegs REMOTE_DIR) (remote (world sc)) = Some (Dir es)).
  { apply kind_at_dir. rewrite Hq2. unfold uploaded.
    rewrite strip_self, Hqy. unfold cleaned. rewrite strip_self.
    unfold kind_at. now rewrite Hes4. }
  destruct Hroot as [esc Hesc].
  destruct (list_and_close_goes posix sc (world sc) (map fst esc)
              (world sc) (world sc)) as (s2 & Hlc2 & Hws2);
    [|reflexivity|reflexivity|].
  { cbn [sftp_listdir posix]. unfold posix_listdir, names_of.
    now rewrite Hesc. }
  exists s2. split.
  - apply main_steps. exists (world s4), (world s4), sb, sc.
    split; [now apply posix_connect_run|]. split; [reflexivity|].
    split; [now apply cleanup_body_returned|]. now split.
  - rewrite Hws2.
    exact (rerun_same _ _ _ _ _ _ Hq1 Hqy Hq2 Hclear).
Qed.

Lemma run_twice_same_tree_witness :
  exists n, forall fuel', n <= fuel' ->
    main posix fuel' (start scenario_A)
    = (fst (main posix 3 (start scenario_A)), Return tt) /\
    local (world (fst (main posix 3 (start scenario_A))))
    = local scenario_A /\
    exists s2,
      main posix fuel'
           (start (world (fst (main posix 3 (start scenario_A)))))
      = (s2, Return tt) /\
      same_tree (remote (world s2))
                (remote (world (fst (main posix 3 (start scenario_A))))).
Proof.
  apply (run_twice_same_tree 3 scenario_A
           (fst (main posix 3 (start scenario_A))));
    vm_compute; reflexivity.
Defined.

(** The second run on scenario A, computed: it returns and the web root
    holds what it held after the first run. *)
Example scenario_A_twice :
  let s1 := fst (main posix 3 (start scenario_A)) in
  let s2 := fst (main posix 3 (start (world s1))) in
  snd (main posix 3 (start (world s1))) = Return tt /\
  lookup (rsegs REMOTE_DIR) (remote (world s1))
  = Some (Dir [(".htaccess", File "deny");
               ("index.html", File "<html>");
               ("assets", Dir [("app.js", File "js")])]) /\
  remote (world s2) = remote (world s1).
Proof. vm_compute. repeat split. Qed.

(** The model keeps the order in which a directory lists its entries, and
    a second run can change that order, which [same_tree] leaves aside:
    the visible file is taken away and put back last, the hidden one is
    overwritten where it stands. *)
Example second_run_listing_order :
  let s1 := fst (main posix 3 (start site_dot_build)) in
  let s2 := fst (main posix 3 (start (world s1))) in
  snd (main posix 3 (start (world s1))) = Return tt /\
  lookup (rsegs REMOTE_DIR) (remote (world s1))
  = Some (Dir [("app.js", File "js"); (".env", File "KEY=1")]) /\
  lookup (rsegs REMOTE_DIR) (remote (world s2))
  = Some (Dir [(".env", File "KEY=1"); ("app.js", File "js")]).
Proof. vm_compute. repeat split. Qed.

(** ** The paths the calls name *)

Lemma prefix_nil b : String.prefix "" b = true.
Proof. now destruct b. Qed.

Lemma prefix_refl a : String.prefix a a = true.
Proof.
  induction a as [|x a IH]; [reflexivity|]. cbn.
  now destruct (ascii_dec x x).
Qed.

Lemma prefix_app a b : String.prefix a (a ++ b) = true.
Proof.
  induction a as [|x a IH]; [apply prefix_nil|]. cbn.
  now destruct (ascii_dec x x).
Qed.

Lemma prefix_trans a :
  forall b c, String.prefix a b = true -> String.prefix b c = true ->
              String.prefix a c = true.
Proof.
  induction a as [|x a IH]; intros b c Hab Hbc; [apply prefix_nil|].
  destruct b as [|y b]; [discriminate|]. destruct c as [|z c]; [discriminate|].
  cbn in *. destruct (ascii_dec x y) as [->|]; [|discriminate].
  destruct (ascii_dec y z) as [->|]; [|discriminate]. now apply (IH b c).
Qed.

Lemma prefix_app_app a b c : String.prefix (a ++ b) (a ++ b ++ c) = true.
Proof.
  induction a as [|x a IH]; [cbn; apply prefix_app|]. cbn.
  now destruct (ascii_dec x x).
Qed.

Lemma cleanup_call_below_weaken base base' c :
  String.prefix base base' = true ->
  cleanup_call_below base' c = true -> cleanup_call_below base c = true.
Proof.
  intros Hb. destruct c; cbn [cleanup_call_below]; try discriminate;
    now apply prefix_trans.
Qed.

Lemma upload_call_below_weaken base base' c :
  String.prefix base base' = true ->
  upload_call_below base' c = true -> upload_call_below base c = true.
Proof.
  intros Hb. destruct c; cbn [upload_call_below]; try discriminate;
    try reflexivity; now apply prefix_trans.
Qed.

Section CallPaths.
Context {W : Type} (env : Env W).

Lemma rmdir_recursive_below fuel :
  forall path, emits (cleanup_call_below path) (rmdir_recursive env fuel path).
Proof.
  induction fuel as [|fuel IH]; intros path; cbn [rmdir_recursive].
  - apply emits_diverge.
  - apply emits_bind; [apply emits_invoke; apply prefix_refl|intros fs].
    apply emits_bind; [|intros _; apply emits_invoke; apply prefix_refl].
    apply emits_for_each. intros f. unfold rmdir_child.
    apply emits_try; [apply emits_invoke; apply prefix_app|intros _].
    eapply emits_weaken; [|apply IH]. intros c.
    apply cleanup_call_below_weaken. apply prefix_app.
Qed.

Lemma clean_item_below fuel item :
  emits (cleanup_call_below (REMOTE_DIR ++ "/")) (clean_item env fuel item).
Proof.
  unfold clean_item. destruct (negb (startswith item "."));
    [|apply emits_ret].
  apply emits_try.
  - apply emits_bind; [|intros _; apply emits_print].
    apply emits_invoke. apply prefix_app_app.
  - intros _. apply emits_bind; [|intros _; apply emits_print].
    eapply emits_weaken; [|apply rmdir_recursive_below]. intros c.
    apply cleanup_call_below_weaken. apply prefix_app_app.
Qed.

Lemma cleanup_body_below fuel s s' r :
  cleanup_body env fuel s = (s', r) ->
  exists x evs,
    calls s' = (calls s ++ (c_listdir REMOTE_DIR, x) :: evs)%list /\
    Forall (fun ev : event =>
              cleanup_call_below (REMOTE_DIR ++ "/") (fst ev) = true) evs.
Proof.
  intros H. apply cleanup_body_run in H as
      [(w1 & names & _ & H)|(w1 & e & _ & -> & _)].
  - pose proof (emits_for_each (cleanup_call_below (REMOTE_DIR ++ "/"))
                  names (clean_item env fuel)
                  (fun item => clean_item_below fuel item)) as Hemit.
    apply Hemit in H as (evs & E & F). exists None, evs.
    split; [|exact F]. cbn [calls called] in E.
    now rewrite E, <- app_assoc.
  - exists (Some e), []. split; [reflexivity|constructor].
Qed.

Lemma upload_directory_below fuel :
  forall local_dir remote_dir,
    emits (upload_call_below remote_dir)
          (upload_directory env fuel local_dir remote_dir).
Proof.
  induction fuel as [|fuel IH]; intros local_dir remote_dir;
    cbn [upload_directory].
  - apply emits_diverge.
  - apply emits_bind.
    { unfold ensure_remote_dir.
      apply emits_try; [apply emits_invoke; apply prefix_refl|].
      intros _. apply emits_bind; [apply emits_print|intros _].
      apply emits_invoke. apply prefix_refl. }
    intros _. apply emits_bind; [now apply emits_invoke|intros items].
    apply emits_for_each. intros item. unfold upload_item.
    apply emits_bind; [apply emits_query|intros [|]].
    + apply emits_bind; [apply emits_print|intros _].
      apply emits_invoke. apply prefix_app.
    + apply emits_bind; [apply emits_query|intros [|]]; [|apply emits_ret].
      eapply emits_weaken; [|apply IH]. intros c.
      apply upload_call_below_weaken. apply prefix_app.
Qed.

End CallPaths.

(** X1.  Whatever its outcome, an upload to [remote_dir] lists local
    directories and probes, creates and writes remote paths that start
    with [remote_dir], and makes no other call: it never lists the remote
    side, deletes, connects or closes. *)
Theorem upload_calls_stay_below {W} (env : Env W)
        fuel local_dir remote_dir s s' r :
  upload_directory env fuel local_dir remote_dir s = (s', r) ->
  exists evs,
    calls s' = (calls s ++ evs)%list /\
    Forall (fun ev : event => upload_call_below remote_dir (fst ev) = true)
           evs.
Proof. apply upload_directory_below. Qed.

Lemma upload_calls_stay_below_witness :
  exists evs,
    calls (fst (upload_directory posix 3 LOCAL_DIST REMOTE_DIR
                  (start scenario_A))) = (calls (start scenario_A) ++ evs)%list /\
    Forall (fun ev : event => upload_call_below REMOTE_DIR (fst ev) = true)
           evs.
Proof.
  apply (upload_calls_stay_below posix 3 LOCAL_DIST REMOTE_DIR
           (start scenario_A) _
           (snd (upload_directory posix 3 LOCAL_DIST REMOTE_DIR
                   (start scenario_A)))).
  vm_compute. reflexivity.
Defined.

(** X2.  Whatever its outcome, the cleanup first lists the web root and
    after that only lists, deletes and removes paths that start with the
    web root's path and a slash: the web root itself is never deleted,
    and nothing is created or written. *)
Theorem cleanup_calls_stay_below {W} (env : Env W) fuel s s' r :
  cleanup env fuel s = (s', r) ->
  exists x evs,
    calls s' = (calls s ++ (c_listdir REMOTE_DIR, x) :: evs)%list /\
    Forall (fun ev : event =>
              cleanup_call_below (REMOTE_DIR ++ "/") (fst ev) = true) evs.
Proof.
  unfold cleanup. intros H.
  apply try_inv in H as [(s1 & e & H1 & _ & H2)|(H1 & _)].
  - apply cleanup_body_below in H1 as (x & evs & E & F).
    exists x, evs. split; [|exact F]. now inversion H2; subst.
  - now apply cleanup_body_below in H1.
Qed.

Lemma cleanup_calls_stay_below_witness :
  exists x evs,
    calls (fst (cleanup posix 3 (start scenario_A)))
    = (calls (start scenario_A) ++ (c_listdir REMOTE_DIR, x) :: evs)%list /\
    Forall (fun ev : event =>
              cleanup_call_below (REMOTE_DIR ++ "/") (fst ev) = true) evs.
Proof.
  apply (cleanup_calls_stay_below posix 3 (start scenario_A) _
           (snd (cleanup posix 3 (start scenario_A)))).
  vm_compute. reflexivity.
Defined.

(** ** The end of a run *)

Section RunEnds.
Context {W : Type} (env : Env W).

Lemma prints_state {A} (items : list A) (line : A -> string) :
  forall s : state W,
    for_each items (fun item => print (line item)) s
    = (mkState (world s) (calls s) (out s ++ map line items)%list,
       Return tt).
Proof.
  induction items as [|item rest IH]; intros s.
  - cbn. rewrite app_nil_r. now destruct s.
  - cbn [for_each map]. erewrite bind_return; [|reflexivity].
    rewrite IH. cbn [world calls out]. now rewrite <- app_assoc.
Qed.

(** The last phase, when it returns. *)
Lemma list_and_close_trace s s' :
  list_and_close env s = (s', Return tt) ->
  exists w1 names w2 w3,
    sftp_listdir env REMOTE_DIR (world s) = (w1, Ok names) /\
    sftp_close env w1 = (w2, Ok tt) /\
    ssh_close env w2 = (w3, Ok tt) /\
    world s' = w3 /\
    calls s' = (calls s ++ [(c_listdir REMOTE_DIR, None);
                            (c_sftp_close, None);
                            (c_ssh_close, None)])%list /\
    out s' = (out s ++ (nl ++ "Uploaded files:")%string
                    :: map (fun item => ("  " ++ item)%string) names
                    ++ [(nl ++ "Done! Frontend deployed to https://factchain-traker.online")%string])%list.
Proof.
  unfold list_and_close, listdir. intros H.
  apply bind_inv in H as
      [(s1 & [] & H1 & H)|[(e & _ & He)|(_ & He)]]; try discriminate.
  inversion H1; subst s1; clear H1.
  apply bind_inv in H as
      [(s2 & names & H2 & H)|[(e & _ & He)|(_ & He)]]; try discriminate.
  apply invoke_inv in H2 as (w1 & rep & Hop & -> & Hr).
  destruct rep as [names'|e]; [|discriminate]. inversion Hr; subst names'.
  apply bind_inv in H as
      [(s3 & [] & H3 & H)|[(e & _ & He)|(_ & He)]]; try discriminate.
  rewrite prints_state in H3. inversion H3; subst s3; clear H3.
  apply bind_inv in H as
      [(s4 & [] & H4 & H)|[(e & _ & He)|(_ & He)]]; try discriminate.
  apply invoke_inv in H4 as (w2 & rep2 & Hop2 & -> & Hr2).
  destruct rep2 as [[]|e]; [|discriminate].
  apply bind_inv in H as
      [(s5 & [] & H5 & H)|[(e & _ & He)|(_ & He)]]; try discriminate.
  apply invoke_inv in H5 as (w3 & rep3 & Hop3 & -> & Hr3).
  destruct rep3 as [[]|e]; [|discriminate].
  inversion H; subst s'; clear H.
  exists w1, names, w2, w3. cbn [world calls out called failure] in *.
  repeat split; try assumption.
  - now rewrite <- !app_assoc.
  - rewrite <- !app_assoc. reflexivity.
Qed.

Lemma emits_keep {A} (Q : call -> bool) (m : M W A) s s' r :
  emits Q m -> m s = (s', r) ->
  Forall (fun ev : event => Q (fst ev) = true) (calls s) ->
  Forall (fun ev : event => Q (fst ev) = true) (calls s').
Proof.
  intros Hm H F. apply Hm in H as (evs & -> & F'). now apply Forall_app.
Qed.

Lemma connect_phase_not_close policy :
  emits not_close (connect_phase env policy).
Proof.
  unfold connect_phase.
  apply emits_bind; [now apply emits_invoke|intros _].
  apply emits_bind; [apply emits_print|intros _; now apply emits_invoke].
Qed.

Lemma cleanup_not_close fuel : emits not_close (cleanup env fuel).
Proof.
  eapply emits_weaken; [|apply cleanup_emits]. now intros [].
Qed.

Lemma upload_phase_not_close fuel : emits not_close (upload_phase env fuel).
Proof.
  unfold upload_phase. apply emits_bind; [apply emits_print|intros _].
  eapply emits_weaken; [|apply upload_directory_below]. now intros [].
Qed.

(** A session that raises made no close call, unless a close call is what
    raised. *)
Lemma session_raise_closes fuel policy s s' e :
  session env fuel policy s = (s', Raise e) ->
  Forall (fun ev : event => not_close (fst ev) = true) (calls s) ->
  Forall (fun ev : event => not_close (fst ev) = true) (calls s') \/
  exists pre c, is_close c = true /\
                calls s' = (pre ++ [(c, Some e)])%list.
Proof.
  unfold session. intros H F.
  apply bind_inv in H as
      [(s1 & [] & H1 & H)|[(e1 & H1 & _)|(_ & He)]]; [| |discriminate].
  2:{ left. exact (emits_keep _ _ _ _ _ (connect_phase_not_close _) H1 F). }
  pose proof (emits_keep _ _ _ _ _ (connect_phase_not_close _) H1 F) as F1.
  apply bind_inv in H as
      [(s2 & [] & H2 & H)|[(e1 & H2 & _)|(_ & He)]]; try discriminate.
  inversion H2; subst s2; clear H2.
  apply bind_inv in H as
      [(s3 & [] & H3 & H)|[(e1 & H3 & _)|(_ & He)]]; [| |discriminate].
  2:{ left. exact (emits_keep _ _ _ _ _ (cleanup_not_close _) H3 F1). }
  pose proof (emits_keep _ _ _ _ _ (cleanup_not_close _) H3 F1) as F3.
  apply bind_inv in H as
      [(s4 & [] & H4 & H)|[(e1 & H4 & _)|(_ & He)]]; [| |discriminate].
  2:{ left. exact (emits_keep _ _ _ _ _ (upload_phase_not_close _) H4 F3). }
  pose proof (emits_keep _ _ _ _ _ (upload_phase_not_close _) H4 F3) as F4.
  unfold list_and_close, listdir in H.
  apply bind_inv in H as
      [(s5 & [] & H5 & H)|[(e1 & H5 & _)|(_ & He)]]; try discriminate.
  inversion H5; subst s5; clear H5.
  apply bind_inv in H as
      [(s6 & names & H6 & H)|[(e1 & H6 & _)|(_ & He)]]; [| |discriminate].
  2:{ left. apply invoke_inv in H6 as (w1 & rep & _ & -> & _).
      cbn [calls called printed]. apply Forall_app. split; [exact F4|].
      now constructor. }
  apply invoke_inv in H6 as (w1 & rep & _ & -> & _).
  apply bind_inv in H as
      [(s7 & [] & H7 & H)|[(e1 & H7 & _)|(_ & He)]];
    try discriminate; rewrite prints_state in H7; [|discriminate].
  inversion H7; subst s7; clear H7.
  apply bind_inv in H as
      [(s8 & [] & H8 & H)|[(e1 & H8 & He)|(_ & He)]]; [| |discriminate].
  2:{ right. apply invoke_inv in H8 as (w2 & rep2 & _ & -> & Hr).
      destruct rep2 as [[]|e2]; [discriminate|].
      inversion Hr; subst e2. inversion He; subst e1.
      eexists. exists c_sftp_close. split; reflexivity. }
  apply invoke_inv in H8 as (w2 & rep2 & _ & -> & _).
  apply bind_inv in H as
      [(s9 & [] & H9 & H)|[(e1 & H9 & He)|(_ & He)]]; [| |discriminate].
  2:{ right. apply invoke_inv in H9 as (w3 & rep3 & _ & -> & Hr).
      destruct rep3 as [[]|e3]; [discriminate|].
      inversion Hr; subst e3. inversion He; subst e1.
      eexists. exists c_ssh_close. split; reflexivity. }
  discriminate.
Qed.

Lemma hidden_loop fuel names s :
  forallb (fun n => startswith n ".") names = true ->
  for_each names (clean_item env fuel) s = (s, Return tt).
Proof.
  induction names as [|n rest IH]; intros H; [reflexivity|].
  cbn [forallb] in H. apply andb_true_iff in H as [Hn Hrest].
  cbn [for_each]. unfold bind at 1. unfold clean_item at 1. rewrite Hn.
  cbn [negb ret]. now apply IH.
Qed.

End RunEnds.

(** X3.  A run that returns ends with the listing of the web root and
    the two closes, the file-transfer channel before the connection, and
    has printed, last of all, the heading of the listing, one line for
    each name the listing answered, in its order, and the closing line.
    The listing is the one the server answers in the world the upload
    left, and the closes act on the worlds that follow it. *)
Theorem success_lists_then_closes {W} (env : Env W) fuel w s' :
  main env fuel (start w) = (s', Return tt) ->
  exists w1 w2 s3 s4 w5 names w6 w7,
    ssh_connect env AutoAddPolicy HOST PORT USERNAME PASSWORD 30 w
    = (w1, Ok tt) /\
    ssh_open_sftp env w1 = (w2, Ok tt) /\
    cleanup env fuel (connected AutoAddPolicy w1 w2 (start w))
    = (s3, Return tt) /\
    upload_directory env fuel LOCAL_DIST REMOTE_DIR
      (printed (nl ++ "Uploading " ++ LOCAL_DIST ++ " -> " ++ REMOTE_DIR) s3)
    = (s4, Return tt) /\
    sftp_listdir env REMOTE_DIR (world s4) = (w5, Ok names) /\
    sftp_close env w5 = (w6, Ok tt) /\
    ssh_close env w6 = (w7, Ok tt) /\
    world s' = w7 /\
    calls s' = (calls s4 ++ [(c_listdir REMOTE_DIR, None);
                             (c_sftp_close, None);
                             (c_ssh_close, None)])%list /\
    out s' = (out s4 ++ (nl ++ "Uploaded files:")%string
                     :: map (fun item => ("  " ++ item)%string) names
                     ++ [(nl ++ "Done! Frontend deployed to https://factchain-traker.online")%string])%list.
Proof.
  intros H.
  apply main_steps in H as (w1 & w2 & s3 & s4 & Hc & Ho & Hcl & Hup & H).
  apply list_and_close_trace in H
    as (w5 & names & w6 & w7 & Hl & Hc1 & Hc2 & Hw & Hcalls & Hout).
  exists w1, w2, s3, s4, w5, names, w6, w7.
  split; [exact Hc|]. split; [exact Ho|]. split; [exact Hcl|].
  split; [exact Hup|]. split; [exact Hl|]. split; [exact Hc1|].
  split; [exact Hc2|]. split; [exact Hw|]. split; [exact Hcalls|exact Hout].
Qed.

Lemma success_lists_then_closes_witness :
  exists w1 w2 s3 s4 w5 names w6 w7,
    ssh_connect posix AutoAddPolicy HOST PORT USERNAME PASSWORD 30 scenario_A
    = (w1, Ok tt) /\
    ssh_open_sftp posix w1 = (w2, Ok tt) /\
    cleanup posix 3 (connected AutoAddPolicy w1 w2 (start scenario_A))
    = (s3, Return tt) /\
    upload_directory posix 3 LOCAL_DIST REMOTE_DIR
      (printed (nl ++ "Uploading " ++ LOCAL_DIST ++ " -> " ++ REMOTE_DIR) s3)
    = (s4, Return tt) /\
    sftp_listdir posix REMOTE_DIR (world s4) = (w5, Ok names) /\
    sftp_close posix w5 = (w6, Ok tt) /\
    ssh_close posix w6 = (w7, Ok tt) /\
    world (fst (main posix 3 (start scenario_A))) = w7 /\
    calls (fst (main posix 3 (start scenario_A)))
    = (calls s4 ++ [(c_listdir REMOTE_DIR, None);
                    (c_sftp_close, None);
                    (c_ssh_close, None)])%list /\
    out (fst (main posix 3 (start scenario_A)))
    = (out s4 ++ (nl ++ "Uploaded files:")%string
              :: map (fun item => ("  " ++ item)%string) names
              ++ [(nl ++ "Done! Frontend deployed to https://factchain-traker.online")%string])%list.
Proof.
  apply (success_lists_then_closes posix 3 scenario_A).
  vm_compute. reflexivity.
Defined.

(** X4.  When a run raises, neither the file-transfer channel nor the
    connection has been closed: the run made no close call at all, unless
    its last call was a close that failed with the very exception the
    run raises. *)
Theorem no_close_after_failure {W} (env : Env W) fuel w s' e :
  main env fuel (start w) = (s', Raise e) ->
  Forall (fun ev : event => not_close (fst ev) = true) (calls s') \/
  exists pre c, is_close c = true /\
                calls s' = (pre ++ [(c, Some e)])%list.
Proof.
  unfold main. intros H.
  apply bind_inv in H as
      [(s1 & [] & H1 & H)|[(e1 & H1 & _)|(_ & He)]]; try discriminate.
  inversion H1; subst s1; clear H1. cbn beta zeta in H.
  apply try_inv in H as [(s2 & e2 & H2 & _ & H3)|(H & _)].
  - cbv [bind print raise] in H3. inversion H3; subst. cbn [calls].
    apply (session_raise_closes env fuel AutoAddPolicy _ _ _ H2).
    constructor.
  - apply (session_raise_closes env fuel AutoAddPolicy _ _ _ H).
    constructor.
Qed.

Lemma no_close_after_failure_witness :
  Forall (fun ev : event => not_close (fst ev) = true)
         (calls (fst (main posix 3 (start site_blocked_put)))) \/
  exists pre c, is_close c = true /\
                calls (fst (main posix 3 (start site_blocked_put)))
                = (pre ++ [(c, Some efailure)])%list.
Proof.
  apply (no_close_after_failure posix 3 site_blocked_put).
  vm_compute. reflexivity.
Defined.

(** X5.  What the cleanup loop raises without its being an [Exception]
    (an interrupt from the keyboard during a listing or an [rmdir]) is
    neither turned into a warning nor reported: it leaves [main] from the
    very state the loop ended in, no line printed and no call made after
    it. *)
Theorem interrupt_leaves_unreported {W} (env : Env W) fuel w w1 w2 s1 e :
  ssh_connect env AutoAddPolicy HOST PORT USERNAME PASSWORD 30 w
  = (w1, Ok tt) ->
  ssh_open_sftp env w1 = (w2, Ok tt) ->
  cleanup_body env fuel (connected AutoAddPolicy w1 w2 (start w))
  = (s1, Raise e) ->
  is_Exception e = false ->
  main env fuel (start w) = (s1, Raise e).
Proof.
  intros Hc Ho Hb He.
  rewrite (main_raises env fuel w s1 e).
  - unfold reported. now rewrite He.
  - rewrite (session_connected env fuel AutoAddPolicy
               (printed ("Connecting to " ++ HOST ++ "...") (start w))
               w1 w2 Hc Ho).
    apply bind_raise. unfold cleanup, try_except.
    unfold connected in Hb. now rewrite Hb, He.
Qed.

Lemma interrupt_leaves_unreported_witness :
  main interrupted_listing 1 (start tt)
  = (fst (cleanup_body interrupted_listing 1
            (connected AutoAddPolicy tt tt (start tt))),
     Raise (mkExn KeyboardInterrupt "")).
Proof.
  apply (interrupt_leaves_unreported interrupted_listing 1 tt tt tt);
    reflexivity.
Defined.

(** X6.  When the listing of the web root answers no name, or only names
    that begin with a dot, the cleanup makes no other call than that
    listing, prints nothing and returns, at every recursion bound. *)
Theorem hidden_only_cleanup_is_one_listing {W} (env : Env W)
        fuel s w1 names :
  sftp_listdir env REMOTE_DIR (world s) = (w1, Ok names) ->
  forallb (fun n => startswith n ".") names = true ->
  cleanup env fuel s = (called (c_listdir REMOTE_DIR) None w1 s, Return tt).
Proof.
  intros Hl Hh. apply cleanup_body_returned.
  apply (cleanup_body_intro env fuel s w1 names); [exact Hl|].
  now apply hidden_loop.
Qed.

Lemma hidden_only_cleanup_is_one_listing_witness :
  cleanup posix 0 (start site_blocked_put)
  = (called (c_listdir REMOTE_DIR) None site_blocked_put
            (start site_blocked_put), Return tt).
Proof.
  apply (hidden_only_cleanup_is_one_listing posix 0
           (start site_blocked_put) site_blocked_put [".env"]);
    vm_compute; reflexivity.
Defined.

(** X7.  A visible entry whose delete fails and whose listing fails too
    (a file the server refuses to delete) ends the cleanup loop there:
    the loop raises what the listing raised, after these two calls, and
    no entry listed after it is touched. *)
Theorem undeletable_entry_ends_cleanup_loop {W} (env : Env W)
        fuel item rest s w1 e1 w2 e2 :
  startswith item "." = false ->
  sftp_remove env (REMOTE_DIR ++ "/" ++ item) (world s) = (w1, Err e1) ->
  sftp_listdir env (REMOTE_DIR ++ "/" ++ item) w1 = (w2, Err e2) ->
  for_each (item :: rest) (clean_item env (S fuel)) s
  = (called (c_listdir (REMOTE_DIR ++ "/" ++ item)) (Some e2) w2
       (called (c_remove (REMOTE_DIR ++ "/" ++ item)) (Some e1) w1 s),
     Raise e2).
Proof.
  intros Hv Hr Hl. cbn [for_each]. apply bind_raise.
  unfold clean_item. rewrite Hv. cbn [negb]. unfold try_except.
  erewrite bind_raise; [|apply invoke_err; exact Hr]. cbn [any_exn].
  apply bind_raise. cbn [rmdir_recursive]. apply bind_raise.
  apply invoke_err. exact Hl.
Qed.

Lemma undeletable_entry_ends_cleanup_loop_witness :
  for_each ["old.html"; "stale.js"] (clean_item posix 1)
           (start site_locked_file)
  = (called (c_listdir (REMOTE_DIR ++ "/" ++ "old.html")) (Some efailure)
       site_locked_file
       (called (c_remove (REMOTE_DIR ++ "/" ++ "old.html")) (Some eacces)
          site_locked_file (start site_locked_file)),
     Raise efailure).
Proof.
  apply (undeletable_entry_ends_cleanup_loop posix 0);
    vm_compute; reflexivity.
Defined.

(** ** What the phases do to the remote tree, whatever their outcome *)

(** X8.  On a server that refuses nothing, [rmdir_recursive] on a
    well-formed directory that nests no deeper than the recursion bound
    returns; the directory is gone then, with all it held, and every path
    apart from it leads to the node it led to. *)
Theorem rmdir_recursive_removes fuel path pp n es s :
  rsegs path = (pp ++ [n])%list ->
  lookup (rsegs path) (remote (world s)) = Some (Dir es) ->
  well_formed (Dir es) = true ->
  depth (Dir es) <= fuel ->
  readonly (world s) = [] ->
  exists s',
    rmdir_recursive posix fuel path s = (s', Return tt) /\
    lookup (rsegs path) (remote (world s')) = None /\
    within (rsegs path) (world s) (world s').
Proof.
  intros Hp Hl Hw Hd Hro.
  destruct (rmdir_recursive_total fuel path pp n es s Hp Hl Hw Hd Hro)
    as [s' H].
  exists s'. split; [exact H|].
  split; [exact (rmdir_recursive_gone _ _ _ _ H)|].
  exact (rmdir_recursive_within fuel path _ _ _ H).
Qed.

Lemma rmdir_recursive_removes_witness :
  exists s',
    rmdir_recursive posix 1 (REMOTE_DIR ++ "/css") (start scenario_A)
    = (s', Return tt) /\
    lookup (rsegs (REMOTE_DIR ++ "/css")) (remote (world s')) = None /\
    within (rsegs (REMOTE_DIR ++ "/css")) (world (start scenario_A))
           (world s').
Proof.
  apply (rmdir_recursive_removes 1 (REMOTE_DIR ++ "/css")
           (rsegs REMOTE_DIR) "css"
           [("a.css", File "a"); (".keep", File "")] (start scenario_A));
    vm_compute; try reflexivity; lia.
Defined.

Lemma cleanup_run {W} (env : Env W) fuel s s' r :
  cleanup env fuel s = (s', r) ->
  exists s1 r1, cleanup_body env fuel s = (s1, r1) /\ world s' = world s1.
Proof.
  unfold cleanup. intros H.
  apply try_inv in H as [(s1 & e & H1 & _ & H2)|(H1 & _)].
  - exists s1, (Raise e). split; [exact H1|]. now inversion H2.
  - now exists s', r.
Qed.

Lemma confined_refl rp w : confined rp w w.
Proof.
  split; [apply steady_refl|].
  split; [apply same_outside_refl|]. now intros i rel _.
Qed.

Lemma confined_trans rp w1 w2 w3 :
  confined rp w1 w2 -> confined rp w2 w3 -> confined rp w1 w3.
Proof.
  intros (S1 & O1 & K1) (S2 & O2 & K2).
  split; [eapply steady_trans; eassumption|].
  split; [eapply same_outside_trans; eassumption|].
  intros i rel Hi. now rewrite (K2 i rel Hi), (K1 i rel Hi).
Qed.

Lemma clean_item_confined fuel item :
  valid_name item = true ->
  preserves (confined (rsegs REMOTE_DIR)) (clean_item posix fuel item).
Proof.
  intros Hv s s' r H. destruct (startswith item ".") eqn:Hi.
  - unfold clean_item in H. rewrite Hi in H. cbn [negb] in H.
    inversion H; subst. apply confined_refl.
  - pose proof (clean_item_within fuel item _ _ _ H) as (St & Look & Kind).
    rewrite (rsegs_join _ _ Hv) in Look, Kind.
    split; [exact St|]. split.
    + intros q Hq. apply Kind. rewrite strip_snoc.
      now destruct Hq as [->| ->].
    + intros i rel Hh. apply Look. apply apart_siblings.
      intros ->. congruence.
Qed.

(** X9.  On a well-formed remote tree a cleanup, whether it returns,
    warns or raises, changes nothing but visible entries of the web
    root: every hidden entry of the web root is the same node with all it
    holds, the web root and every path outside it show what they showed,
    and the local tree is as it was. *)
Theorem cleanup_is_confined fuel s s' r :
  well_formed (remote (world s)) = true ->
  cleanup posix fuel s = (s', r) ->
  confined (rsegs REMOTE_DIR) (world s) (world s').
Proof.
  intros Hw H. apply cleanup_run in H as (s1 & r1 & H & ->).
  apply cleanup_body_run in H as
      [(w1 & names & Hop & H)|(w1 & e & Hop & -> & _)].
  - apply posix_listdir_ok in Hop as (-> & es & Hl & ->).
    pose proof (listing_names_valid _ _ _ Hw Hl) as Hvalid.
    rewrite Forall_forall in Hvalid.
    apply (preserves_for_each (confined (rsegs REMOTE_DIR))
             (confined_refl _) (confined_trans _)
             (map fst es) (clean_item posix fuel)) in H; [exact H|].
    intros item Hin. apply clean_item_confined. now apply Hvalid.
  - apply posix_listdir_same in Hop as ->. apply confined_refl.
Qed.

Lemma cleanup_is_confined_witness :
  confined (rsegs REMOTE_DIR) (world (start site_locked_dir))
           (world (fst (cleanup posix 3 (start site_locked_dir)))).
Proof.
  apply (cleanup_is_confined 3 (start site_locked_dir) _
           (snd (cleanup posix 3 (start site_locked_dir))));
    vm_compute; reflexivity.
Defined.

Lemma only_adds_refl w : only_adds w w.
Proof.
  split; [apply steady_refl|]. intros q.
  destruct (kind_at q (remote w)) as [[d| |]|]; auto.
Qed.

Lemma only_adds_trans w1 w2 w3 :
  only_adds w1 w2 -> only_adds w2 w3 -> only_adds w1 w3.
Proof.
  intros [S1 H1] [S2 H2]. split; [eapply steady_trans; eassumption|].
  intros q. specialize (H1 q). specialize (H2 q).
  destruct (kind_at q (remote w1)) as [[d| |]|]; [| | |exact I].
  - destruct H1 as [E|[x E]]; rewrite E in H2; destruct H2 as [E'|[y E']];
      [now left|right; now exists y|right; now exists x|right; now exists y].
  - destruct H1 as [E|[x E]]; rewrite E in H2; [exact H2|].
    destruct H2 as [E'|[y E']]; right; [now exists x|now exists y].
  - now rewrite H1 in H2.
Qed.

Lemma posix_mkdir_only_adds path w w' rep :
  posix_mkdir path w = (w', rep) -> only_adds w w'.
Proof.
  destruct rep as [[]|e]; intros H.
  - apply posix_mkdir_ok in H as (St & Hnone & Hq). split; [exact St|].
    intros q. rewrite Hq.
    destruct (strip (rsegs path) q) as [[|x r]|] eqn:Hs.
    + apply strip_inv in Hs. rewrite app_nil_r in Hs. subst q.
      now rewrite Hnone.
    + destruct (kind_at q (remote w)) as [[d| |]|]; auto.
    + destruct (kind_at q (remote w)) as [[d| |]|]; auto.
  - apply remote_change_inv in H as [(Hr & _)|(-> & _)];
      [discriminate|apply only_adds_refl].
Qed.

Lemma posix_put_only_adds localpath remotepath w w' rep :
  posix_put localpath remotepath w = (w', rep) -> only_adds w w'.
Proof.
  destruct rep as [[]|e]; intros H.
  - apply posix_put_ok in H as (data & _ & St & Hk & Hq).
    split; [exact St|]. intros q. rewrite Hq.
    destruct (strip (rsegs remotepath) q) as [[|x r]|] eqn:Hs.
    + apply strip_inv in Hs. rewrite app_nil_r in Hs. subst q.
      destruct (kind_at (rsegs remotepath) (remote w)) as [[d| |]|];
        [right; now exists data|right; now exists data
        |now contradiction Hk|exact I].
    + destruct (kind_at q (remote w)) as [[d| |]|]; auto.
    + destruct (kind_at q (remote w)) as [[d| |]|]; auto.
  - unfold posix_put in H.
    destruct (lookup (lsegs localpath) (local w)) as [[d| |es]|];
      try (inversion H; subst; apply only_adds_refl).
    apply remote_change_inv in H as [(Hr & _)|(-> & _)];
      [discriminate|apply only_adds_refl].
Qed.

Lemma upload_directory_only_adds fuel :
  forall local_dir remote_dir,
    preserves only_adds (upload_directory posix fuel local_dir remote_dir).
Proof.
  induction fuel as [|fuel IH]; intros local_dir remote_dir;
    cbn [upload_directory].
  - apply preserves_diverge. apply only_adds_refl.
  - apply preserves_bind; [apply only_adds_trans| |intros _].
    { unfold ensure_remote_dir.
      apply preserves_try; [apply only_adds_trans| |intros _].
      - apply preserves_invoke. intros w w' rep H.
        apply posix_stat_same in H as ->. apply only_adds_refl.
      - apply preserves_bind; [apply only_adds_trans| |intros _].
        + apply preserves_print. apply only_adds_refl.
        + apply preserves_invoke. intros w w' rep H.
          exact (posix_mkdir_only_adds _ _ _ _ H). }
    apply preserves_bind; [apply only_adds_trans| |intros items].
    { apply preserves_invoke. intros w w' rep H.
      cbn [os_listdir posix] in H. unfold posix_os_listdir in H.
      inversion H; subst. apply only_adds_refl. }
    apply preserves_for_each; [apply only_adds_refl|apply only_adds_trans|].
    intros item _. unfold upload_item.
    apply preserves_bind; [apply only_adds_trans| |intros [|]].
    + apply preserves_query. apply only_adds_refl.
    + apply preserves_bind; [apply only_adds_trans| |intros _].
      * apply preserves_print. apply only_adds_refl.
      * apply preserves_invoke. intros w w' rep H.
        exact (posix_put_only_adds _ _ _ _ _ H).
    + apply preserves_bind; [apply only_adds_trans| |intros [|]].
      * apply preserves_query. apply only_adds_refl.
      * apply IH.
      * apply preserves_ret. apply only_adds_refl.
Qed.

(** X10.  An upload, whether it returns or raises half-way, takes
    nothing away from the remote tree: every remote directory is still a
    directory, every other remote entry is what it was or has become a
    file, and the local tree is as it was. *)
Theorem upload_only_adds fuel local_dir remote_dir s s' r :
  upload_directory posix fuel local_dir remote_dir s = (s', r) ->
  only_adds (world s) (world s').
Proof. apply upload_directory_only_adds. Qed.

Lemma upload_only_adds_witness :
  only_adds (world (start site_blocked_put))
            (world (fst (upload_directory posix 3 LOCAL_DIST REMOTE_DIR
                           (start site_blocked_put)))).
Proof.
  apply (upload_only_adds 3 LOCAL_DIST REMOTE_DIR (start site_blocked_put) _
           (snd (upload_directory posix 3 LOCAL_DIST REMOTE_DIR
                   (start site_blocked_put)))).
  vm_compute. reflexivity.
Defined.

(** ** Runs that succeed and runs that cannot *)

(** X11.  On a well-formed remote tree whose web root is a directory, on a
    server that refuses nothing and with a recursion bound no smaller
    than the depth of the tree, the cleanup returns without a warning and
    leaves nothing below a visible name of the web root and all else as
    it was. *)
Theorem cleanup_never_fails fuel s es :
  lookup (rsegs REMOTE_DIR) (remote (world s)) = Some (Dir es) ->
  well_formed (remote (world s)) = true ->
  readonly (world s) = [] ->
  depth (remote (world s)) <= fuel ->
  exists s',
    cleanup_body posix fuel s = (s', Return tt) /\
    cleanup posix fuel s = (s', Return tt) /\
    forall q, kind_at q (remote (world s'))
              = cleaned (rsegs REMOTE_DIR) (remote (world s)) q.
Proof.
  intros Hl Hw Hro Hd.
  destruct (cleanup_body_total fuel s es Hl Hw Hro Hd) as [s' H].
  exists s'. split; [exact H|]. split; [now apply cleanup_body_returned|].
  exact (proj2 (cleanup_body_kinds fuel s s' Hw H)).
Qed.

Lemma cleanup_never_fails_witness :
  exists s',
    cleanup_body posix 8 (start scenario_A) = (s', Return tt) /\
    cleanup posix 8 (start scenario_A) = (s', Return tt) /\
    forall q, kind_at q (remote (world s'))
              = cleaned (rsegs REMOTE_DIR)
                        (remote (world (start scenario_A))) q.
Proof.
  apply (cleanup_never_fails 8 (start scenario_A)
           [("old.html", File "old"); (".htaccess", File "deny");
            ("css", Dir [("a.css", File "a"); (".keep", File "")])]);
    vm_compute; try reflexivity; lia.
Defined.

Lemma fits_free les rp t :
  kind_at rp t = None -> fits (Dir les) rp t.
Proof.
  intros Hnone.
  assert (Hbelow : forall rel, kind_at (rp ++ rel) t = None).
  { intros [|x rel]; [now rewrite app_nil_r|].
    apply kind_below_nondir. rewrite Hnone. discriminate. }
  split.
  - intros rel data _. rewrite Hbelow. discriminate.
  - intros rel c n _ _. left. apply Hbelow.
Qed.

(** X12.  An upload to a remote place that is not there yet, inside a
    remote directory, on a server that refuses nothing and with a
    recursion bound no smaller than the depth of the well-formed local
    directory, returns and makes that place an exact copy of the local
    directory: a file for each file, with its bytes, a directory for each
    directory, and nothing for an entry that is neither, nor anywhere
    else below. *)
Theorem fresh_upload_is_exact_copy fuel local_dir remote_dir les s pp n :
  well_formed (local (world s)) = true ->
  readonly (world s) = [] ->
  lookup (lsegs local_dir) (local (world s)) = Some (Dir les) ->
  depth (Dir les) <= fuel ->
  rsegs remote_dir = (pp ++ [n])%list ->
  kind_at pp (remote (world s)) = Some KDir ->
  kind_at (rsegs remote_dir) (remote (world s)) = None ->
  exists s',
    upload_directory posix fuel local_dir remote_dir s = (s', Return tt) /\
    forall rel,
      kind_at (rsegs remote_dir ++ rel) (remote (world s'))
      = match lookup rel (Dir les) with
        | Some (File data) => Some (KFile data)
        | Some (Dir _) => Some KDir
        | _ => None
        end.
Proof.
  intros Hw Hro Hl Hd Hp Hpp Hnone.
  destruct (upload_total fuel local_dir remote_dir les s Hw Hro Hl Hd)
    as [s' H].
  { right. now exists pp, n. }
  { now apply fits_free. }
  exists s'. split; [exact H|].
  destruct (upload_spec fuel _ _ _ _ Hw H) as (les' & Hl' & _ & Hq).
  rewrite Hl in Hl'. inversion Hl'; subst les'; clear Hl'.
  intros rel. rewrite Hq. unfold uploaded. rewrite strip_app.
  assert (Hb : kind_at (rsegs remote_dir ++ rel) (remote (world s)) = None).
  { destruct rel as [|x rel]; [now rewrite app_nil_r|].
    apply kind_below_nondir. rewrite Hnone. discriminate. }
  rewrite Hb. now destruct (lookup rel (Dir les)) as [[d| |ces]|].
Qed.

Lemma fresh_upload_is_exact_copy_witness :
  exists s',
    upload_directory posix 1 LOCAL_DIST REMOTE_DIR (start scenario_B)
    = (s', Return tt) /\
    forall rel,
      kind_at (rsegs REMOTE_DIR ++ rel) (remote (world s'))
      = match lookup rel (Dir [("index.html", File "<html>")]) with
        | Some (File data) => Some (KFile data)
        | Some (Dir _) => Some KDir
        | _ => None
        end.
Proof.
  apply (fresh_upload_is_exact_copy 1 LOCAL_DIST REMOTE_DIR
           [("index.html", File "<html>")] (start scenario_B)
           ["var"; "www"; "u3372484"; "data"; "www"]
           "factchain-traker.online");
    vm_compute; try reflexivity; lia.
Defined.

Lemma upload_item_file_fails {W} (env : Env W)
      recurse local_dir remote_dir item s w1 e :
  os_path_isfile env (os_path_join env local_dir item) (world s) = true ->
  sftp_put env (os_path_join env local_dir item) (remote_dir ++ "/" ++ item)
           (world s) = (w1, Err e) ->
  upload_item env recurse local_dir remote_dir item s
  = (called (c_put (os_path_join env local_dir item)
                   (remote_dir ++ "/" ++ item)) (Some e) w1
       (printed ("Uploading: " ++ item ++ " -> " ++ remote_dir ++ "/" ++ item)
                s),
     Raise e).
Proof.
  intros Hf Hop. unfold upload_item, bind at 1, query at 1. cbn zeta.
  rewrite Hf. unfold bind at 1, print at 1, put.
  erewrite invoke_err; [reflexivity|exact Hop].
Qed.

Lemma posix_put_refuses_dir localpath remotepath w data es :
  lookup (lsegs localpath) (local w) = Some (File data) ->
  lookup (rsegs remotepath) (remote w) = Some (Dir es) ->
  exists e, posix_put localpath remotepath w = (w, Err e).
Proof.
  intros Hl Hr. unfold posix_put. rewrite Hl. unfold remote_change.
  destruct (denied w (rsegs remotepath)); [now eexists|].
  rewrite alter_refused; [now eexists|]. now rewrite Hr.
Qed.

(** X13.  A local file whose remote name is a directory cannot be
    uploaded: the transfer raises, the remote tree is as it was, and the
    loop over the local directory ends there. *)
Theorem directory_blocks_file recurse local_dir remote_dir les item rest
        data s :
  valid_name item = true ->
  lookup (lsegs local_dir) (local (world s)) = Some (Dir les) ->
  find item les = Some (File data) ->
  kind_at (rsegs remote_dir ++ [item]) (remote (world s)) = Some KDir ->
  exists e,
    for_each (item :: rest) (upload_item posix recurse local_dir remote_dir)
             s
    = (called (c_put (os_path_join posix local_dir item)
                     (remote_dir ++ "/" ++ item)) (Some e) (world s)
         (printed ("Uploading: " ++ item ++ " -> "
                   ++ remote_dir ++ "/" ++ item) s),
       Raise e).
Proof.
  intros Hv Hl Hf Hk.
  destruct (posix_local_kind local_dir item (world s) les Hv Hl) as [Hif _].
  rewrite Hf in Hif. cbn [is_file] in Hif.
  apply kind_at_dir in Hk as [es Hes].
  rewrite <- (rsegs_join _ _ Hv) in Hes.
  destruct (posix_put_refuses_dir (os_path_join posix local_dir item)
              (remote_dir ++ "/" ++ item) (world s) data es) as [e He].
  { now rewrite (posix_isfile_join _ _ _ _ Hv Hl). }
  { exact Hes. }
  exists e. cbn [for_each]. apply bind_raise.
  now apply upload_item_file_fails.
Qed.

Lemma directory_blocks_file_witness :
  exists e,
    for_each [".env"; "z.js"]
      (upload_item posix (upload_directory posix 0) LOCAL_DIST REMOTE_DIR)
      (start site_blocked_put)
    = (called (c_put (os_path_join posix LOCAL_DIST ".env")
                     (REMOTE_DIR ++ "/" ++ ".env")) (Some e)
         (world (start site_blocked_put))
         (printed ("Uploading: " ++ ".env" ++ " -> "
                   ++ REMOTE_DIR ++ "/" ++ ".env")
                  (start site_blocked_put)),
       Raise e).
Proof.
  apply (directory_blocks_file (upload_directory posix 0) LOCAL_DIST
           REMOTE_DIR
           [("a.js", File "a"); (".env", File "KEY=1"); ("z.js", File "z")]
           ".env" ["z.js"] "KEY=1" (start site_blocked_put));
    vm_compute; reflexivity.
Defined.

Lemma upload_directory_listing_fails {W} (env : Env W)
      fuel local_dir remote_dir s s1 w2 e :
  ensure_remote_dir env remote_dir s = (s1, Return tt) ->
  os_listdir env local_dir (world s1) = (w2, Err e) ->
  upload_directory env (S fuel) local_dir remote_dir s
  = (called (c_os_listdir local_dir) (Some e) w2 s1, Raise e).
Proof.
  intros H1 H2. rewrite upload_directory_unfold.
  rewrite (bind_return _ _ _ _ _ H1). apply bind_raise.
  now apply invoke_err.
Qed.

(** X14.  Nothing looks at the build folder before the cleanup: when the
    local build folder is missing, on a well-formed remote tree whose web
    root is a directory and a server that refuses nothing, the run first
    deletes every visible entry of the web root and then raises
    [FileNotFoundError], leaving the site emptied of them and nothing
    uploaded. *)
Theorem missing_build_wipes_site fuel w es :
  link_error w = None ->
  well_formed (remote w) = true ->
  readonly w = [] ->
  lookup (rsegs REMOTE_DIR) (remote w) = Some (Dir es) ->
  lookup (lsegs LOCAL_DIST) (local w) = None ->
  depth (remote w) <= fuel ->
  exists s',
    main posix fuel (start w) = (s', Raise enoent) /\
    forall q, kind_at q (remote (world s'))
              = cleaned (rsegs REMOTE_DIR) (remote w) q.
Proof.
  intros Hlink Hw Hro Hl Hloc Hd.
  destruct fuel as [|fuel].
  { apply depth_lookup in Hl. cbn [depth] in Hl. lia. }
  destruct (cleanup_body_total (S fuel)
              (connected AutoAddPolicy w w (start w)) es Hl Hw Hro Hd)
    as [sb Hb].
  destruct (cleanup_body_kinds (S fuel)
              (connected AutoAddPolicy w w (start w)) sb Hw Hb)
    as [(N1 & N2 & N3 & N4) Hq].
  cbn [world connected printed called start] in N1, N2, N3, N4, Hq.
  assert (Hroot : kind_at (rsegs REMOTE_DIR) (remote (world sb))
                  = Some KDir).
  { rewrite Hq. unfold cleaned. rewrite strip_self. unfold kind_at.
    now rewrite Hl. }
  destruct (ensure_remote_dir_found posix REMOTE_DIR
              (printed (nl ++ "Uploading " ++ LOCAL_DIST ++ " -> "
                           ++ REMOTE_DIR) sb) (world sb)) as [s1 H1].
  { cbn [sftp_stat posix world printed]. unfold posix_stat.
    apply kind_at_dir in Hroot as [es' Hes']. now rewrite Hes'. }
  destruct (ensure_remote_dir_spec _ _ _ H1) as [(M1 & _) Hq1].
  cbn [world printed] in M1, Hq1.
  assert (Hlist : os_listdir posix LOCAL_DIST (world s1)
                  = (world s1, Err enoent)).
  { cbn [os_listdir posix]. unfold posix_os_listdir.
    now rewrite M1, N1, Hloc. }
  pose proof (upload_directory_listing_fails posix fuel LOCAL_DIST
                REMOTE_DIR _ s1 (world s1) enoent H1 Hlist) as Hup.
  assert (Hph : upload_phase posix (S fuel) sb
                = (called (c_os_listdir LOCAL_DIST) (Some enoent)
                          (world s1) s1, Raise enoent)).
  { unfold upload_phase.
    rewrite (bind_return
               (print (nl ++ "Uploading " ++ LOCAL_DIST ++ " -> "
                          ++ REMOTE_DIR)) _ sb
               (printed (nl ++ "Uploading " ++ LOCAL_DIST ++ " -> "
                            ++ REMOTE_DIR) sb) tt eq_refl).
    exact Hup. }
  assert (Hconn : ssh_connect posix AutoAddPolicy HOST PORT USERNAME
                    PASSWORD 30 w = (w, Ok tt)).
  { apply posix_connect_run. split; [reflexivity|exact Hlink]. }
  assert (Hses : session posix (S fuel) AutoAddPolicy
                   (printed ("Connecting to " ++ HOST ++ "...") (start w))
                 = (called (c_os_listdir LOCAL_DIST) (Some enoent)
                           (world s1) s1, Raise enoent)).
  { rewrite (session_connected posix (S fuel) AutoAddPolicy
               (printed ("Connecting to " ++ HOST ++ "...") (start w)) w w
               Hconn eq_refl).
    rewrite (bind_return _ _ _ _ _ (cleanup_body_returned posix _ _ _ Hb)).
    exact (bind_raise _ _ _ _ _ Hph). }
  exists (reported enoent
            (called (c_os_listdir LOCAL_DIST) (Some enoent) (world s1) s1)).
  split; [exact (main_raises posix (S fuel) w _ enoent Hses)|].
  intros q. change (kind_at q (remote (world s1))
                    = cleaned (rsegs REMOTE_DIR) (remote w) q).
  rewrite Hq1, <- Hq.
  destruct (strip (rsegs REMOTE_DIR) q) as [[|x rel]|] eqn:Hs;
    try reflexivity.
  apply strip_inv in Hs. rewrite app_nil_r in Hs. subst q.
  rewrite Hroot. reflexivity.
Qed.

Lemma missing_build_wipes_site_witness :
  exists s',
    main posix 7 (start site_no_build) = (s', Raise enoent) /\
    forall q, kind_at q (remote (world s'))
              = cleaned (rsegs REMOTE_DIR) (remote site_no_build) q.
Proof.
  apply (missing_build_wipes_site 7 site_no_build
           [("old.html", File "old"); (".htaccess", File "deny")]);
    vm_compute; try reflexivity; lia.
Defined.

(** ** Probes and creations *)

Section TraceShapes.
Context {W : Type} (P : list event -> Prop).
Hypothesis P_nil : P [].
Hypothesis P_app : forall a b, P a -> P b -> P (a ++ b)%list.

Lemma traces_still {A} (m : M W A) :
  (forall s s' r, m s = (s', r) -> calls s' = calls s) -> traces P m.
Proof.
  intros Hm s s' r H. exists []. rewrite app_nil_r.
  split; [exact (Hm _ _ _ H)|exact P_nil].
Qed.

Lemma traces_invoke {A} c (op : W -> W * reply A) :
  (forall r, P [(c, r)]) -> traces P (invoke c op).
Proof.
  intros Hc s s' r H. apply invoke_inv in H as (w' & rep & _ & -> & _).
  exists [(c, failure rep)]. split; [reflexivity|apply Hc].
Qed.

Lemma traces_bind {A B} (m : M W A) (k : A -> M W B) :
  traces P m -> (forall a, traces P (k a)) -> traces P (bind m k).
Proof.
  intros Hm Hk s s' r H.
  apply bind_inv in H as [(s1 & a & H1 & H2)|[(e & H1 & _)|(H1 & _)]].
  - apply Hm in H1 as (ev1 & E1 & F1). apply Hk in H2 as (ev2 & E2 & F2).
    exists (ev1 ++ ev2)%list. split; [now rewrite E2, E1, app_assoc|].
    now apply P_app.
  - now apply Hm in H1.
  - now apply Hm in H1.
Qed.

Lemma traces_for_each {A} (items : list A) (body : A -> M W unit) :
  (forall item, traces P (body item)) -> traces P (for_each items body).
Proof.
  intros Hb. induction items as [|item rest IH]; cbn [for_each].
  - apply traces_still. intros s s' r H. now inversion H.
  - apply traces_bind; [apply Hb|intros _; exact IH].
Qed.

End TraceShapes.

Lemma probe_then_create_nil : probe_then_create [].
Proof.
  split; intros [|x pre] *; discriminate.
Qed.

Lemma probe_then_create_app a b :
  probe_then_create a -> probe_then_create b -> probe_then_create (a ++ b).
Proof.
  intros [A1 A2] [B1 B2]. split.
  - intros pre p r post E. apply app_eq_app in E as [l [[Ea Eb]|[Ea Eb]]].
    + destruct l as [|x l].
      * cbn in Eb. rewrite app_nil_r in Ea. subst a.
        destruct (B1 [] p r post (eq_sym Eb)) as (pre' & e & Hp & _).
        now destruct pre'.
      * inversion Eb; subst x. exact (A1 pre p r l Ea).
    + destruct (B1 l p r post Eb) as (pre' & e & -> & He).
      exists (a ++ pre')%list, e. split; [|exact He].
      now rewrite Ea, app_assoc.
  - intros pre p e post E He.
    apply app_eq_app in E as [l [[Ea Eb]|[Ea Eb]]].
    + destruct l as [|x l].
      * cbn in Eb. exact (B2 [] p e post (eq_sym Eb) He).
      * inversion Eb; subst x.
        destruct (A2 pre p e l Ea He) as (r & post' & ->).
        exists r, (post' ++ b)%list. now subst post.
    + exact (B2 l p e post Eb He).
Qed.

Lemma probe_then_create_other c r :
  is_probe_or_create c = false -> probe_then_create [(c, r)].
Proof.
  intros Hc. split.
  - intros [|x [|y pre]] p r' post E; inversion E; subst; discriminate.
  - intros [|x [|y pre]] p e post E; inversion E; subst; discriminate.
Qed.

Lemma ensure_remote_dir_probes {W} (env : Env W) remote_dir :
  traces probe_then_create (ensure_remote_dir env remote_dir).
Proof.
  intros s s' r H. apply ensure_remote_dir_run in H as (w1 & rep & _ & H).
  destruct rep as [[]|e].
  - destruct H as [-> _]. exists [(c_stat remote_dir, None)].
    split; [reflexivity|]. split.
    + intros [|x [|y pre]] p r' post E; inversion E.
    + intros [|x [|y pre]] p e post E; inversion E.
  - destruct (is_FileNotFoundError e) eqn:He.
    + destruct H as (w2 & rep2 & _ & -> & _).
      exists [(c_stat remote_dir, Some e);
              (c_mkdir remote_dir, failure rep2)].
      split; [cbn [calls called printed]; now rewrite <- app_assoc|].
      split.
      * intros [|x [|y [|z pre]]] p r' post E; inversion E; subst.
        exists [], e. now split.
      * intros [|x [|y [|z pre]]] p e' post E _; inversion E; subst.
        now eexists; eexists.
    + destruct H as [-> _]. exists [(c_stat remote_dir, Some e)].
      split; [reflexivity|]. split.
      * intros [|x [|y pre]] p r' post E; inversion E.
      * intros [|x [|y pre]] p e' post E He'; inversion E; subst.
        congruence.
Qed.

Lemma upload_directory_probes {W} (env : Env W) fuel :
  forall local_dir remote_dir,
    traces probe_then_create
           (upload_directory env fuel local_dir remote_dir).
Proof.
  induction fuel as [|fuel IH]; intros local_dir remote_dir;
    cbn [upload_directory].
  - apply traces_still; [apply probe_then_create_nil|].
    intros s s' r H. now inversion H.
  - apply traces_bind;
      [apply probe_then_create_app|apply ensure_remote_dir_probes|intros _].
    apply traces_bind; [apply probe_then_create_app| |intros items].
    { apply traces_invoke. intros r. now apply probe_then_create_other. }
    apply traces_for_each;
      [apply probe_then_create_nil|apply probe_then_create_app|].
    intros item. unfold upload_item.
    apply traces_bind; [apply probe_then_create_app| |intros [|]].
    + apply traces_still; [apply probe_then_create_nil|].
      intros s s' r H. now inversion H.
    + apply traces_bind; [apply probe_then_create_app| |intros _].
      * apply traces_still; [apply probe_then_create_nil|].
        intros s s' r H. now inversion H.
      * apply traces_invoke. intros r. now apply probe_then_create_other.
    + apply traces_bind; [apply probe_then_create_app| |intros [|]].
      * apply traces_still; [apply probe_then_create_nil|].
        intros s s' r H. now inversion H.
      * apply IH.
      * apply traces_still; [apply probe_then_create_nil|].
        intros s s' r H. now inversion H.
Qed.

(** X15.  In every upload, at every depth and whatever the outcome, a
    remote directory is created only right after the probe of that very
    path answered [FileNotFoundError], and every probe that answered so
    is followed at once by the creation of its path: nothing is created
    unprobed, and no absence is left without an attempt to create. *)
Theorem creation_follows_absent_probe {W} (env : Env W)
        fuel local_dir remote_dir s s' r :
  upload_directory env fuel local_dir remote_dir s = (s', r) ->
  exists evs,
    calls s' = (calls s ++ evs)%list /\ probe_then_create evs.
Proof. apply upload_directory_probes. Qed.

Lemma creation_follows_absent_probe_witness :
  exists evs,
    calls (fst (upload_directory posix 3 LOCAL_DIST REMOTE_DIR
                  (start scenario_B)))
    = (calls (start scenario_B) ++ evs)%list /\ probe_then_create evs.
Proof.
  apply (creation_follows_absent_probe posix 3 LOCAL_DIST REMOTE_DIR
           (start scenario_B) _
           (snd (upload_directory posix 3 LOCAL_DIST REMOTE_DIR
                   (start scenario_B)))).
  vm_compute. reflexivity.
Defined.
